(** * Verification of the GraphQL response resolver and the AST transformation
      scheduler of graphql-go-tools

    The development embeds, as executable Rocq functions, the following parts
    of the repository:
    - [pkg/engine/resolve/resolve.go]: byte buffer pairs, the node resolvers,
      the array executor, the fetch layer and the response assembler
      (module [resolve]), and the steps of concurrent calls of
      [resolveSingleFetch] on the shared inflight table (module
      [singleflight]);
    - [pkg/ast/ast_selection.go] and the inline fragment helpers: the
      index-based selection-set surgery (module [ast]);
    - the transformation scheduler of package asttransform (module
      [asttransform]);
    - [pkg/astnormalization/inline_fragment_invalid_deletion.go] (module
      [astnormalization]), and with it the visitors of
      [interface_selection_set_expansion.go] and
      [inline_fragment_type_expansion.go];
    - the result writer of the execution engine (module [graphql]).

    Go byte slices are modelled as [string] (a Rocq string is a sequence of
    8-bit characters), Go [int] as [Z], a [nil]-able slice as [option bytes],
    a Go [map] as a [gmap], and a mutated buffer as a value that is passed in
    and returned. *)

From stdpp Require Import gmap strings list sorting.
From Stdlib Require Import ZArith Lia.

Abbreviation bytes := string (only parsing).

(** ** Facts about byte strings *)

Module Bytes.

(** Go's [len(b)] / [Buffer.Len()]. *)
Definition len (b : bytes) : Z := Z.of_nat (String.length b).

(** The byte with code 34, the JSON string delimiter. *)
Definition dquote : bytes := String (Ascii.ascii_of_nat 34) "".

(** [quoted s] is [s] between two double quotes. *)
Definition quoted (s : bytes) : bytes := dquote +:+ s +:+ dquote.

End Bytes.

(** ** The resolver: [pkg/engine/resolve/resolve.go] *)

Module resolve.

Import Bytes.

Definition lBrace : bytes := "{".
Definition rBrace : bytes := "}".
Definition lBrack : bytes := "[".
Definition rBrack : bytes := "]".
Definition comma : bytes := ",".
Definition colon : bytes := ":".
Definition quote : bytes := dquote.
Definition null : bytes := "null".
Definition literalData : bytes := "data".
Definition literalErrors : bytes := "Errors".
Definition literalMessage : bytes := "message".
Definition literalLocations : bytes := "locations".
Definition literalPath : bytes := "path".

(** Go [error] values seen by the resolver.  The two sentinels are the
    package-level variables of the same names; they are unexported, so an
    error made outside the package (by jsonparser, by a data source, by
    [fmt.Errorf]) is never one of them and [errors.Is] against a sentinel is
    equality. *)
Inductive error : Type :=
| errNonNullableFieldValueIsNull
| errTypeNameSkipped
| errExternal (msg : string).

Global Instance error_eq_dec : EqDecision error.
Proof. solve_decision. Defined.

(** [errors.Is(err, target)] for a non-nil [err]. *)
Definition errorsIs (err target : error) : bool := bool_decide (err = target).

(** *** BufPair *)

Record BufPair : Type := mkBufPair { Data : bytes; Errors : bytes }.

Definition NewBufPair : BufPair := {| Data := ""; Errors := "" |}.

Definition HasData (b : BufPair) : bool := negb (len (Data b) =? 0)%Z.
Definition HasErrors (b : BufPair) : bool := negb (len (Errors b) =? 0)%Z.

Definition Reset (b : BufPair) : BufPair := {| Data := ""; Errors := "" |}.

(** [bytes.Buffer.Write] appends and never returns an error. *)
Definition writeData (b : BufPair) (data : bytes) : BufPair :=
  {| Data := Data b +:+ data; Errors := Errors b |}.

Definition resetData (b : BufPair) : BufPair :=
  {| Data := ""; Errors := Errors b |}.



(** The result of a merge: both buffers after the call ([WriteTo] drains the
    source), the byte count and the error. *)
Record merged : Type := mkMerged {
  m_from : BufPair; m_to : BufPair; m_written : Z; m_err : option error }.

Definition MergeBufPairData (from to : BufPair) (prefixDataWithComma : bool) : merged :=
  if negb (HasData from) then mkMerged from to 0 None
  else
    let '(to, dataWritten) :=
      if prefixDataWithComma then (writeData to comma, len comma) else (to, 0%Z) in
    let written := len (Data from) in
    mkMerged (resetData from) (writeData to (Data from)) (dataWritten + written) None.

Definition MergeBufPairErrors (from to : BufPair) : merged :=
  if negb (HasErrors from) then mkMerged from to 0 None
  else
    let '(to, errorsWritten) :=
      if HasErrors to
      then ({| Data := Data to; Errors := Errors to +:+ comma |}, len comma)
      else (to, 0%Z) in
    let written := len (Errors from) in
    mkMerged {| Data := Data from; Errors := "" |}
             {| Data := Data to; Errors := Errors to +:+ Errors from |}
             (errorsWritten + written) None.

(** [MergeBufPairs] returns [(dataWritten, errorsWritten, err)] next to the
    two buffers. *)
Definition MergeBufPairs (from to : BufPair) (prefixDataWithComma : bool)
  : BufPair * BufPair * Z * Z * option error :=
  let d := MergeBufPairData from to prefixDataWithComma in
  match m_err d with
  | Some e => (m_from d, m_to d, m_written d, 0%Z, Some e)
  | None =>
      let e := MergeBufPairErrors (m_from d) (m_to d) in
      (m_from e, m_to e, m_written d, m_written e, m_err e)
  end.

(** *** The plan tree *)

(** [jsonparser.ValueType] of github.com/buger/jsonparser. *)
Module jsonparser.
Inductive ValueType : Type :=
| NotExist | String | Number | Object | Array | Boolean | Null | Unknown.

Global Instance ValueType_eq_dec : EqDecision ValueType.
Proof. solve_decision. Defined.
End jsonparser.

(** [DataSource] interface: [Load] fills the buffer pair it is given and may
    return an error of its own. *)
Record DataSource : Type := mkDataSource {
  Load : bytes → BufPair → BufPair * option string;
  UniqueIdentifier : bytes }.

Definition StaticSegmentType : Z := 1.
Definition VariableSegmentType : Z := 2.
Definition VariableSourceObject : Z := 3.
Definition VariableSourceContext : Z := 4.

Record TemplateSegment : Type := mkTemplateSegment {
  SegmentType : Z;
  SegmentData : bytes;
  VariableSource : Z;
  VariableSourcePath : list string }.

Record InputTemplate : Type := mkInputTemplate { Segments : list TemplateSegment }.

(** The fields [Input] and [Variables] of [SingleFetch] are planner data
    that the resolver never reads; they are left out. *)
Record SingleFetch : Type := mkSingleFetch {
  BufferId : Z;
  FetchDataSource : DataSource;
  DisallowSingleFlight : bool;
  FetchInputTemplate : InputTemplate }.

Inductive Fetch : Type :=
| FetchSingle (f : SingleFetch)
| FetchParallel (Fetches : list SingleFetch).

(** The implementations of the [Node] interface.  [NodeNil] stands for a
    [nil] interface value (the [default] branch of [resolveNode]). *)
Inductive Node : Type :=
| NodeObject (Nullable : bool) (Path : list string) (FieldSets : list FieldSet)
    (fetch : option Fetch)
| NodeEmptyObject
| NodeArray (Path : list string) (Nullable : bool) (ResolveAsynchronous : bool)
    (Item : Node)
| NodeEmptyArray
| NodeNull
| NodeString (Path : list string) (Nullable : bool)
| NodeBoolean (Path : list string) (Nullable : bool)
| NodeInteger (Path : list string) (Nullable : bool)
| NodeFloat (Path : list string) (Nullable : bool)
| NodeNil
with FieldSet : Type :=
| mkFieldSet (OnTypeName : option bytes) (BufferID : Z) (HasBuffer : bool)
    (Fields : list Field)
with Field : Type :=
| mkField (Name : bytes) (Value : Node).

Record Context : Type := mkContext { Variables : option bytes }.

Record GraphQLResponse : Type := mkGraphQLResponse { ResponseData : Node }.

(** Control flow of a loop body that may [return] from the enclosing
    function. *)
Inductive flow (S R : Type) : Type :=
| Next (s : S)
| Return (r : R).
Global Arguments Next {S R} s.
Global Arguments Return {S R} r.

(** [writeSafe] on the [Data] buffer of a pair. *)
Definition writeSafe (err : option error) (b : BufPair) (data : bytes)
  : BufPair * option error :=
  match err with
  | Some e => (b, Some e)
  | None => (writeData b data, None)
  end.

Definition resolveNull (b : BufPair) : BufPair * option error :=
  writeSafe None b null.

Definition resolveEmptyArray (b : BufPair) : BufPair * option error :=
  let '(b, err) := writeSafe None b lBrack in
  writeSafe err b rBrack.

Definition resolveEmptyObject (b : BufPair) : BufPair * option error :=
  let '(b, err) := writeSafe None b lBrace in
  writeSafe err b rBrace.

(** [bytes.Equal]: a nil slice equals an empty one. *)
Definition bytesEqual (a b : option bytes) : bool :=
  bool_decide (default "" a = default "" b).

(** The record of a fetch in flight, as its dependents see it once
    [waitLoad] has been released. *)
Record inflightFetch : Type := mkInflightFetch {
  inflight_err : option error;
  inflight_bufPair : BufPair }.

Global Instance BufPair_inhabited : Inhabited BufPair := populate NewBufPair.

Definition notNil {A : Type} (o : option A) : bool :=
  match o with Some _ => true | None => false end.

(** State of the loops of [resolveObject]: the object's buffer, the reused
    field buffer and the local variables [first], [typeNameSkip], [err]. *)
Record objectState : Type := mkObjectState {
  o_objectBuf : BufPair;
  o_fieldBuf : BufPair;
  o_first : bool;
  o_typeNameSkip : bool;
  o_err : option error }.

(** State of the loop of [resolveArraySynchronous] and of the merge loop of
    [resolveArrayAsynchronous]. *)
Record arrayState : Type := mkArrayState {
  a_arrayBuf : BufPair;
  a_itemBuf : BufPair;
  a_hasPreviousItem : bool;
  a_err : option error }.

Section Resolver.

(** [jsonparser.Get(data, keys...)]: the value, its type and the error
    (the offset is never read by the resolver). *)
Variable jsonGet :
  option bytes → list string → option bytes * jsonparser.ValueType * option string.
(** [jsonparser.ArrayEach(data, cb, keys...)]: the values handed to the
    callback, in source order. *)
Variable jsonArrayEach : option bytes → list string → list (option bytes).
(** [Sum64] of the xxhash hasher after the given bytes were written. *)
Variable hash64 : bytes → Z.
(** Scheduling of [resolveArrayAsynchronous]: among the errors the item
    goroutines try to send, the index of the one whose non-blocking send
    fills the single-slot channel. *)
Variable raceWinner : list error → nat.
(** The field of the same name of [Resolver]. *)
Variable EnableSingleFlightLoader : bool.

(** **** Scalars *)

Definition resolveInteger (Path : list string) (Nullable : bool)
    (data : option bytes) (integerBuf : BufPair) : BufPair * option error :=
  let '(value, dataType, err) := jsonGet data Path in
  if notNil err || negb (bool_decide (dataType = jsonparser.Number)) then
    if negb Nullable then (integerBuf, Some errNonNullableFieldValueIsNull)
    else resolveNull integerBuf
  else writeSafe None integerBuf (default "" value).

Definition resolveFloat (Path : list string) (Nullable : bool)
    (data : option bytes) (integerBuf : BufPair) : BufPair * option error :=
  let '(value, dataType, err) := jsonGet data Path in
  if notNil err || negb (bool_decide (dataType = jsonparser.Number)) then
    if negb Nullable then (integerBuf, Some errNonNullableFieldValueIsNull)
    else resolveNull integerBuf
  else writeSafe None integerBuf (default "" value).

Definition resolveBoolean (Path : list string) (Nullable : bool)
    (data : option bytes) (booleanBuf : BufPair) : BufPair * option error :=
  let '(value, valueType, err) := jsonGet data Path in
  if notNil err || negb (bool_decide (valueType = jsonparser.Boolean)) then
    if negb Nullable then (booleanBuf, Some errNonNullableFieldValueIsNull)
    else resolveNull booleanBuf
  else writeSafe None booleanBuf (default "" value).

Definition resolveString (Path : list string) (Nullable : bool)
    (data : option bytes) (stringBuf : BufPair) : BufPair * option error :=
  let '(value, valueType, err) := jsonGet data Path in
  if notNil err || negb (bool_decide (valueType = jsonparser.String)) then
    if negb Nullable then (stringBuf, Some errNonNullableFieldValueIsNull)
    else resolveNull stringBuf
  else if negb (notNil data) && negb Nullable then
    (stringBuf, Some errNonNullableFieldValueIsNull)
  else
    let '(stringBuf, err) := writeSafe None stringBuf quote in
    let '(stringBuf, err) := writeSafe err stringBuf (default "" value) in
    writeSafe err stringBuf quote.

(** **** Fetch layer *)

(** [InputTemplate.Render]; [err] is the named result, which only the
    static branch assigns. *)
Fixpoint renderSegments (ctx : Context) (data : option bytes)
    (segs : list TemplateSegment) (preparedInput : bytes) (err : option error)
    : bytes * option error :=
  match segs with
  | [] => (preparedInput, err)
  | seg :: segs =>
      if (SegmentType seg =? StaticSegmentType)%Z then
        renderSegments ctx data segs (preparedInput +:+ SegmentData seg) None
      else if (SegmentType seg =? VariableSegmentType)%Z then
        let variableSource :=
          if (VariableSource seg =? VariableSourceObject)%Z then Some data
          else if (VariableSource seg =? VariableSourceContext)%Z
               then Some (Variables ctx)
               else None in
        match variableSource with
        | None =>
            (preparedInput,
             Some (errExternal "InputTemplate.Render: cannot resolve variable of kind"))
        | Some variableSource =>
            let '(value, _, gerr) :=
              jsonGet variableSource (VariableSourcePath seg) in
            match gerr with
            | Some e => (preparedInput, Some (errExternal e))
            | None =>
                renderSegments ctx data segs (preparedInput +:+ default "" value) err
            end
        end
      else renderSegments ctx data segs preparedInput err
  end.

Definition Render (i : InputTemplate) (ctx : Context) (data : option bytes)
    (preparedInput : bytes) : bytes * option error :=
  renderSegments ctx data (Segments i) preparedInput None.

Definition prepareSingleFetch (ctx : Context) (fetch : SingleFetch)
    (data : option bytes) (set : gmap Z BufPair) (preparedInput : bytes)
    : gmap Z BufPair * bytes * option error :=
  let '(preparedInput, err) := Render (FetchInputTemplate fetch) ctx data preparedInput in
  (<[BufferId fetch := NewBufPair]> set, preparedInput, err).

(** The copy the leader makes after the load:
    [if inflight.bufPair.HasData() { _, err = buf.Data.Write(...) }] and the
    same for the errors; each [Write] that is made assigns its (nil) error to
    the named result [err]. *)
Definition leaderCopy (shared buf : BufPair) (err : option error)
    : BufPair * option error :=
  let '(buf, err) :=
    if HasData shared then (writeData buf (Data shared), None) else (buf, err) in
  if HasErrors shared
  then ({| Data := Data buf; Errors := Errors buf +:+ Errors shared |}, None)
  else (buf, err).

(** The copy a dependent makes after [waitLoad.Wait()]; its [Write]s do not
    fail, so the early returns are not taken. *)
Definition dependentCopy (shared buf : BufPair) : BufPair :=
  let buf := if HasData shared then writeData buf (Data shared) else buf in
  if HasErrors shared
  then {| Data := Data buf; Errors := Errors buf +:+ Errors shared |}
  else buf.

(** The path of [resolveSingleFetch] taken when the key is not in the
    inflight table: load into the record's own (reset) buffer pair, record
    the error, copy the bytes to the caller's pair.  The third component
    is the record left for the dependents. *)
Definition resolveSingleFetch_leader (fetch : SingleFetch) (preparedInput : bytes)
    (buf : BufPair) : BufPair * option error * inflightFetch :=
  let '(shared, lerr) := Load (FetchDataSource fetch) preparedInput NewBufPair in
  let err := errExternal <$> lerr in
  let inflight := {| inflight_err := err; inflight_bufPair := shared |} in
  let '(buf, err) := leaderCopy shared buf err in
  (buf, err, inflight).

(** The path taken when the key is in the table, after [waitLoad.Wait()]
    returned. *)
Definition resolveSingleFetch_dependent (inflight : inflightFetch) (buf : BufPair)
    : BufPair * option error :=
  (dependentCopy (inflight_bufPair inflight) buf, inflight_err inflight).

Definition fetchID (fetch : SingleFetch) (preparedInput : bytes) : Z :=
  hash64 (UniqueIdentifier (FetchDataSource fetch) +:+ preparedInput).

Definition resolveSingleFetch (inflightFetches : gmap Z inflightFetch)
    (fetch : SingleFetch) (preparedInput : bytes) (buf : BufPair)
    : BufPair * option error :=
  if negb EnableSingleFlightLoader || DisallowSingleFlight fetch then
    let '(buf, lerr) := Load (FetchDataSource fetch) preparedInput buf in
    (buf, errExternal <$> lerr)
  else
    match inflightFetches !! fetchID fetch preparedInput with
    | Some inflight => resolveSingleFetch_dependent inflight buf
    | None => (resolveSingleFetch_leader fetch preparedInput buf).1
    end.

(** First loop of the [ParallelFetch] branch. *)
Fixpoint prepareFetches (ctx : Context) (data : option bytes)
    (fetches : list SingleFetch) (set : gmap Z BufPair) (preparedInputs : list bytes)
    : gmap Z BufPair * list bytes * option error :=
  match fetches with
  | [] => (set, preparedInputs, None)
  | f :: fetches =>
      let '(set, preparedInput, err) := prepareSingleFetch ctx f data set "" in
      match err with
      | Some e => (set, preparedInputs, Some e)
      | None => prepareFetches ctx data fetches set (preparedInputs ++ [preparedInput])
      end
  end.

(** Second loop of the [ParallelFetch] branch.  Every worker writes into
    the pair stored under its own [BufferId] and its error is dropped; a
    resolution in one request runs the workers one after the other here,
    with no other fetch in flight. *)
Fixpoint runFetches (fetches : list SingleFetch) (preparedInputs : list bytes)
    (set : gmap Z BufPair) : gmap Z BufPair :=
  match fetches, preparedInputs with
  | s :: fetches, preparedInput :: preparedInputs =>
      let buf := set !!! BufferId s in
      let '(buf, _) := resolveSingleFetch ∅ s preparedInput buf in
      runFetches fetches preparedInputs (<[BufferId s := buf]> set)
  | _, _ => set
  end.

Definition resolveFetch (ctx : Context) (fetch : Fetch) (data : option bytes)
    (set : gmap Z BufPair) : gmap Z BufPair * option error :=
  match fetch with
  | FetchSingle f =>
      let '(set, preparedInput, err) := prepareSingleFetch ctx f data set "" in
      match err with
      | Some e => (set, Some e)
      | None =>
          let '(buf, err) :=
            resolveSingleFetch ∅ f preparedInput (set !!! BufferId f) in
          (<[BufferId f := buf]> set, err)
      end
  | FetchParallel Fetches =>
      let '(set, preparedInputs, err) := prepareFetches ctx data Fetches set [] in
      match err with
      | Some e => (set, Some e)
      | None => (runFetches Fetches preparedInputs set, None)
      end
  end.

(** [for i := range set.buffers { MergeBufPairErrors(set.buffers[i], objectBuf) }];
    the buffers are visited in the order of [map_to_list]. *)
Definition mergeSetErrors (set : gmap Z BufPair) (objectBuf : BufPair)
    : gmap Z BufPair * BufPair :=
  foldl (λ acc kb,
           let m := MergeBufPairErrors kb.2 acc.2 in
           (<[kb.1 := m_from m]> acc.1, m_to m))
        (set, objectBuf) (map_to_list set).

(** **** Objects and arrays

    The loops are written over the recursive call [resolveNode], which
    is tied below. *)

Section Loops.

Variable resolveNode : Node → option bytes → BufPair → BufPair * option error.

(** One iteration of the loop over [object.FieldSets[i].Fields]. *)
Definition resolveField (Nullable : bool) (fieldSetData : option bytes)
    (f : Field) (st : objectState) : flow objectState (BufPair * option error) :=
  match f with
  | mkField Name Value =>
      let '(objectBuf, err) :=
        if o_first st then writeSafe (o_err st) (o_objectBuf st) lBrace
        else writeSafe (o_err st) (o_objectBuf st) comma in
      let '(objectBuf, err) := writeSafe err objectBuf quote in
      let '(objectBuf, err) := writeSafe err objectBuf Name in
      let '(objectBuf, err) := writeSafe err objectBuf quote in
      let '(objectBuf, err) := writeSafe err objectBuf colon in
      match err with
      | Some e => Return (objectBuf, Some e)
      | None =>
          let '(fieldBuf, err) := resolveNode Value fieldSetData (o_fieldBuf st) in
          match err with
          | Some e =>
              if errorsIs e errNonNullableFieldValueIsNull && Nullable
              then Return (writeSafe None (resetData objectBuf) null)
              else Return (objectBuf, Some e)
          | None =>
              let '(fieldBuf, objectBuf, _, _, err) :=
                MergeBufPairs fieldBuf objectBuf false in
              Next {| o_objectBuf := objectBuf; o_fieldBuf := fieldBuf;
                      o_first := false; o_typeNameSkip := o_typeNameSkip st;
                      o_err := err |}
          end
      end
  end.

Definition resolveFields (Nullable : bool) (fieldSetData : option bytes)
  : list Field → objectState → flow objectState (BufPair * option error) :=
  fix loop fields st :=
    match fields with
    | [] => Next st
    | f :: fields =>
        match resolveField Nullable fieldSetData f st with
        | Next st => loop fields st
        | Return r => Return r
        end
    end.

(** The data a field set reads: its fetch buffer or the object's data. *)
Definition fieldSetSource (set : option (gmap Z BufPair)) (data : option bytes)
    (BufferID : Z) (HasBuffer : bool) : option bytes :=
  match set with
  | Some buffers =>
      if HasBuffer then
        match buffers !! BufferID with
        | Some buffer => Some (Data buffer)
        | None => None
        end
      else data
  | None => data
  end.

(** The [__typename] gate of a field set. *)
Definition typeNameMismatch (OnTypeName : option bytes)
    (fieldSetData : option bytes) : bool :=
  match OnTypeName with
  | Some t =>
      let '(typeName, _, _) := jsonGet fieldSetData ["__typename"] in
      negb (bytesEqual typeName (Some t))
  | None => false
  end.

(** One iteration of the loop over [object.FieldSets]. *)
Definition resolveFieldSet (Nullable : bool) (set : option (gmap Z BufPair))
    (data : option bytes) (fs : FieldSet) (st : objectState)
    : flow objectState (BufPair * option error) :=
  match fs with
  | mkFieldSet OnTypeName BufferID HasBuffer Fields =>
      let fieldSetData := fieldSetSource set data BufferID HasBuffer in
      if typeNameMismatch OnTypeName fieldSetData then
        Next {| o_objectBuf := o_objectBuf st; o_fieldBuf := o_fieldBuf st;
                o_first := o_first st; o_typeNameSkip := true; o_err := o_err st |}
      else resolveFields Nullable fieldSetData Fields st
  end.

Definition resolveFieldSets (Nullable : bool) (set : option (gmap Z BufPair))
    (data : option bytes)
  : list FieldSet → objectState → flow objectState (BufPair * option error) :=
  fix loop fieldSets st :=
    match fieldSets with
    | [] => Next st
    | fs :: fieldSets =>
        match resolveFieldSet Nullable set data fs st with
        | Next st => loop fieldSets st
        | Return r => Return r
        end
    end.

(** What [resolveObject] does once the loops are over. *)
Definition finishObject (Nullable : bool) (st : objectState)
    : BufPair * option error :=
  if o_first st then
    if negb Nullable then
      if o_typeNameSkip st then (o_objectBuf st, Some errTypeNameSkipped)
      else (o_objectBuf st, Some errNonNullableFieldValueIsNull)
    else resolveNull (o_objectBuf st)
  else writeSafe (o_err st) (o_objectBuf st) rBrace.

(** The fetch prologue of [resolveObject]: the result set and the
    object's buffer after the fetch errors were merged into it. *)
Definition fetchObject (ctx : Context) (fetch : option Fetch)
    (data : option bytes) (objectBuf : BufPair)
    : flow (option (gmap Z BufPair) * BufPair) (BufPair * option error) :=
  match fetch with
  | Some f =>
      let '(set, err) := resolveFetch ctx f data ∅ in
      match err with
      | Some e => Return (objectBuf, Some e)
      | None =>
          let '(set, objectBuf) := mergeSetErrors set objectBuf in
          Next (Some set, objectBuf)
      end
  | None => Next (None, objectBuf)
  end.

(** The data an object reads, scoped to its path. *)
Definition objectData (Path : list string) (data : option bytes) : option bytes :=
  if negb (Z.of_nat (length Path) =? 0)%Z then (jsonGet data Path).1.1 else data.

Definition resolveObject (ctx : Context) (Nullable : bool) (Path : list string)
    (FieldSets : list FieldSet) (fetch : option Fetch)
    (data : option bytes) (objectBuf : BufPair) : BufPair * option error :=
  let data := objectData Path data in
  match fetchObject ctx fetch data objectBuf with
  | Return r => r
  | Next (set, objectBuf) =>
      let st := {| o_objectBuf := objectBuf; o_fieldBuf := NewBufPair;
                   o_first := true; o_typeNameSkip := false; o_err := None |} in
      match resolveFieldSets Nullable set data FieldSets st with
      | Return r => r
      | Next st => finishObject Nullable st
      end
  end.

(** One iteration of the loop of [resolveArraySynchronous]. *)
Definition resolveItem (Nullable : bool) (Item : Node) (itemData : option bytes)
    (st : arrayState) : flow arrayState (BufPair * option error) :=
  let '(itemBuf, err) := resolveNode Item itemData (a_itemBuf st) in
  match err with
  | Some e =>
      if errorsIs e errNonNullableFieldValueIsNull && Nullable
      then Return (resolveNull (resetData (a_arrayBuf st)))
      else if errorsIs e errTypeNameSkipped
      then Next {| a_arrayBuf := a_arrayBuf st; a_itemBuf := itemBuf;
                   a_hasPreviousItem := a_hasPreviousItem st; a_err := None |}
      else Return (a_arrayBuf st, Some e)
  | None =>
      let '(itemBuf, arrayBuf, dataWritten, _, err) :=
        MergeBufPairs itemBuf (a_arrayBuf st) (a_hasPreviousItem st) in
      Next {| a_arrayBuf := arrayBuf; a_itemBuf := itemBuf;
              a_hasPreviousItem :=
                if negb (a_hasPreviousItem st) && negb (dataWritten =? 0)%Z
                then true else a_hasPreviousItem st;
              a_err := err |}
  end.

Fixpoint resolveItems (Nullable : bool) (Item : Node)
    (arrayItems : list (option bytes)) (st : arrayState)
    : flow arrayState (BufPair * option error) :=
  match arrayItems with
  | [] => Next st
  | itemData :: arrayItems =>
      match resolveItem Nullable Item itemData st with
      | Next st => resolveItems Nullable Item arrayItems st
      | Return r => Return r
      end
  end.

Definition resolveArraySynchronous (Nullable : bool) (Item : Node)
    (arrayItems : list (option bytes)) (arrayBuf : BufPair)
    : BufPair * option error :=
  let '(arrayBuf, err) := writeSafe None arrayBuf lBrack in
  let st := {| a_arrayBuf := arrayBuf; a_itemBuf := NewBufPair;
               a_hasPreviousItem := false; a_err := err |} in
  match resolveItems Nullable Item arrayItems st with
  | Return r => r
  | Next st => writeSafe (a_err st) (a_arrayBuf st) rBrack
  end.

(** The error an item goroutine tries to send: any error but the
    typename sentinel. *)
Definition sentError (r : BufPair * option error) : option error :=
  match r.2 with
  | Some e => if errorsIs e errTypeNameSkipped then None else Some e
  | None => None
  end.

(** What the receive after [wg.Wait()] finds in the channel. *)
Definition receivedError (results : list (BufPair * option error))
    : option error :=
  let sent := omap sentError results in
  sent !! (raceWinner sent `mod` length sent)%nat.

(** One iteration of the merge loop of [resolveArrayAsynchronous]. *)
Definition mergeItem (st : arrayState) (itemBuf : BufPair) : arrayState :=
  let '(itemBuf, arrayBuf, dataWritten, _, err) :=
    MergeBufPairs itemBuf (a_arrayBuf st) (a_hasPreviousItem st) in
  {| a_arrayBuf := arrayBuf; a_itemBuf := itemBuf;
     a_hasPreviousItem :=
       if negb (a_hasPreviousItem st) && negb (dataWritten =? 0)%Z
       then true else a_hasPreviousItem st;
     a_err := err |}.

Definition resolveArrayAsynchronous (Nullable : bool) (Item : Node)
    (arrayItems : list (option bytes)) (arrayBuf : BufPair)
    : BufPair * option error :=
  let '(arrayBuf, err) := writeSafe None arrayBuf lBrack in
  let results := map (λ itemData, resolveNode Item itemData NewBufPair) arrayItems in
  let bufSlice := map fst results in
  let err := match receivedError results with Some e => Some e | None => err end in
  match err with
  | Some e =>
      if errorsIs e errNonNullableFieldValueIsNull && Nullable
      then resolveNull (resetData arrayBuf)
      else (arrayBuf, Some e)
  | None =>
      let st := foldl mergeItem
                  {| a_arrayBuf := arrayBuf; a_itemBuf := NewBufPair;
                     a_hasPreviousItem := false; a_err := err |} bufSlice in
      writeSafe (a_err st) (a_arrayBuf st) rBrack
  end.

Definition resolveArray (Path : list string) (Nullable : bool)
    (ResolveAsynchronous : bool) (Item : Node)
    (data : option bytes) (arrayBuf : BufPair) : BufPair * option error :=
  let arrayItems := jsonArrayEach data Path in
  if (Z.of_nat (length arrayItems) =? 0)%Z then
    if negb Nullable then (arrayBuf, Some errNonNullableFieldValueIsNull)
    else resolveNull arrayBuf
  else if ResolveAsynchronous
  then resolveArrayAsynchronous Nullable Item arrayItems arrayBuf
  else resolveArraySynchronous Nullable Item arrayItems arrayBuf.

End Loops.

Fixpoint resolveNode (ctx : Context) (node : Node) (data : option bytes)
    (bufPair : BufPair) {struct node} : BufPair * option error :=
  match node with
  | NodeObject Nullable Path FieldSets fetch =>
      resolveObject (resolveNode ctx) ctx Nullable Path FieldSets fetch data bufPair
  | NodeArray Path Nullable ResolveAsynchronous Item =>
      resolveArray (resolveNode ctx) Path Nullable ResolveAsynchronous Item data bufPair
  | NodeNull => resolveNull bufPair
  | NodeString Path Nullable => resolveString Path Nullable data bufPair
  | NodeBoolean Path Nullable => resolveBoolean Path Nullable data bufPair
  | NodeInteger Path Nullable => resolveInteger Path Nullable data bufPair
  | NodeFloat Path Nullable => resolveFloat Path Nullable data bufPair
  | NodeEmptyObject => resolveEmptyObject bufPair
  | NodeEmptyArray => resolveEmptyArray bufPair
  | NodeNil => (bufPair, None)
  end.

(** **** Response assembler

    The caller's [io.Writer] is a state [W] with a [Write] that may
    fail. *)

Section Assembler.

Variable W : Type.
Variable Write : W → bytes → W * option error.

(** [writeSafe] on the caller's writer. *)
Definition writeSafeTo (err : option error) (writer : W) (data : bytes)
    : W * option error :=
  match err with
  | Some e => (writer, Some e)
  | None => Write writer data
  end.

Definition ResolveGraphQLResponse (ctx : Context) (response : GraphQLResponse)
    (data : option bytes) (writer : W) : W * option error :=
  let buf := NewBufPair in
  let '(buf, err) := resolveNode ctx (ResponseData response) data buf in
  match err with
  | Some e => (writer, Some e)
  | None =>
      let hasErrors := negb (len (Errors buf) =? 0)%Z in
      let hasData := negb (len (Data buf) =? 0)%Z in
      let '(writer, err) := writeSafeTo err writer lBrace in
      let '(writer, err) :=
        if hasErrors then
          let '(writer, err) := writeSafeTo err writer quote in
          let '(writer, err) := writeSafeTo err writer literalErrors in
          let '(writer, err) := writeSafeTo err writer quote in
          let '(writer, err) := writeSafeTo err writer colon in
          let '(writer, err) := writeSafeTo err writer lBrack in
          let '(writer, err) := Write writer (Errors buf) in
          writeSafeTo err writer rBrack
        else (writer, err) in
      let '(writer, err) :=
        if hasData then
          let '(writer, err) :=
            if hasErrors then writeSafeTo err writer comma else (writer, err) in
          let '(writer, err) := writeSafeTo err writer quote in
          let '(writer, err) := writeSafeTo err writer literalData in
          let '(writer, err) := writeSafeTo err writer quote in
          let '(writer, err) := writeSafeTo err writer colon in
          Write writer (Data buf)
        else (writer, err) in
      writeSafeTo err writer rBrace
  end.

End Assembler.

End Resolver.

(** A [bytes.Buffer] as the caller's writer: [Write] appends and returns no
    error. *)
Definition bufferWrite (w : bytes) (p : bytes) : bytes * option error :=
  (w +:+ p, None).

(** *** Other functions of the package *)

(** The fields [Fields] of a [FieldSet] and [Value] of a [Field]. *)
Definition FieldSet_Fields (fs : FieldSet) : list Field :=
  match fs with mkFieldSet _ _ _ Fields => Fields end.

Definition Field_Value (f : Field) : Node :=
  match f with mkField _ Value => Value end.

(** [Fetches.AppendIfUnique].  A [Fetch] interface value holds a pointer,
    and [==] compares the pointers: [F] is the type of these pointers. *)
Section Fetches.

Context {F : Type} `{EqDecision F}.

(** The loop over [*f], with the whole slice at hand for the [append]
    that follows it. *)
Fixpoint appendIfUniqueFrom (fetch : F) (rest f : list F) : list F :=
  match rest with
  | [] => f ++ [fetch]
  | x :: rest => if bool_decide (fetch = x) then f else appendIfUniqueFrom fetch rest f
  end.

Definition AppendIfUnique (f : list F) (fetch : F) : list F :=
  appendIfUniqueFrom fetch f f.

End Fetches.

(** [writeErrSafe] and [resolveObjectFieldSafe], on a writer that may
    fail. *)
Section ErrorObject.

Variable W : Type.
Variable Write : W → bytes → W * option error.

Definition resolveObjectFieldSafe (err : option error) (writer : W)
    (fieldName fieldContent : bytes) : W * option error :=
  match err with
  | Some e => (writer, Some e)
  | None =>
      let '(writer, err) := Write writer quote in
      match err with
      | Some e => (writer, Some e)
      | None =>
          let '(writer, err) := Write writer fieldName in
          match err with
          | Some e => (writer, Some e)
          | None =>
              let '(writer, err) := Write writer quote in
              match err with
              | Some e => (writer, Some e)
              | None =>
                  let '(writer, err) := Write writer colon in
                  match err with
                  | Some e => (writer, Some e)
                  | None => Write writer fieldContent
                  end
              end
          end
      end
  end.

(** One of the two blocks guarded by [locations != nil]: a comma and the
    member [fieldName], whose content is [locations] in both. *)
Definition writeMemberOfLocations (writer : W) (fieldName locations : bytes)
    : W * option error :=
  let '(writer, err) := Write writer comma in
  match err with
  | Some e => (writer, Some e)
  | None => resolveObjectFieldSafe err writer fieldName locations
  end.

Definition writeErrSafe (err : option error) (writer : W)
    (message : bytes) (locations path : option bytes) : W * option error :=
  match err with
  | Some e => (writer, Some e)
  | None =>
      let '(writer, err) := Write writer lBrace in
      let '(writer, err) := resolveObjectFieldSafe err writer literalMessage message in
      match err with
      | Some e => (writer, Some e)
      | None =>
          let '(writer, err) :=
            match locations with
            | Some locations => writeMemberOfLocations writer literalLocations locations
            | None => (writer, None)
            end in
          match err with
          | Some e => (writer, Some e)
          | None =>
              let '(writer, err) :=
                match locations with
                | Some locations => writeMemberOfLocations writer literalPath locations
                | None => (writer, None)
                end in
              match err with
              | Some e => (writer, Some e)
              | None => Write writer rBrace
              end
          end
      end
  end.

End ErrorObject.

(** **** Variables of a fetch input *)

Definition variablePrefixSuffix : string := "$$".
Definition quotes : string := dquote.

Definition VariableKindContext : Z := 1.
Definition VariableKindObject : Z := 2.

(** The implementations of the [Variable] interface ([Variable] is a
    reserved word here); a value stands for a pointer to the struct that is
    not nil. *)
Inductive Variable_ : Type :=
| ContextVariable (Path : list string)
| ObjectVariable (Path : list string).

#[global] Instance Variable_eq_dec : EqDecision Variable_.
Proof. solve_decision. Defined.

Definition VariablePath (v : Variable_) : list string :=
  match v with
  | ContextVariable Path => Path
  | ObjectVariable Path => Path
  end.

Definition VariableKind (v : Variable_) : Z :=
  match v with
  | ContextVariable _ => VariableKindContext
  | ObjectVariable _ => VariableKindObject
  end.

(** [for i := range c.Path { if c.Path[i] != another.Path[i] { return false } }],
    entered with two paths of one length; [None] is the panic of an index
    out of range. *)
Fixpoint pathsEqual (path another : list string) : option bool :=
  match path with
  | [] => Some true
  | x :: path =>
      match another with
      | [] => None
      | y :: another =>
          if negb (bool_decide (x = y)) then Some false else pathsEqual path another
      end
  end.

(** The body shared, word for word, by [ContextVariable.Equals] and
    [ObjectVariable.Equals]; [another] is [None] for a nil interface. *)
Definition equalsVariable (c : Variable_) (another : option Variable_) : option bool :=
  match another with
  | None => Some false
  | Some another =>
      if negb (VariableKind another =? VariableKind c)%Z then Some false
      else if negb (Z.of_nat (length (VariablePath c))
                      =? Z.of_nat (length (VariablePath another)))%Z
      then Some false
      else pathsEqual (VariablePath c) (VariablePath another)
  end.

Definition ContextVariable_Equals (Path : list string) (another : option Variable_) :=
  equalsVariable (ContextVariable Path) another.

Definition ObjectVariable_Equals (Path : list string) (another : option Variable_) :=
  equalsVariable (ObjectVariable Path) another.

(** The method call [x.Equals(another)] on an interface value; a nil [x]
    panics. *)
Definition Equals (x : option Variable_) (another : option Variable_) : option bool :=
  match x with
  | None => None
  | Some (ContextVariable Path) => ContextVariable_Equals Path another
  | Some (ObjectVariable Path) => ObjectVariable_Equals Path another
  end.

(** The type [Variables], a slice of interface values; [None] is the nil
    interface. *)
Definition VariableList : Type := list (option Variable_).

Definition NewVariables (variables : VariableList) : VariableList := variables.

(** The loop of [AddVariable] from position [i] on: the index it leaves in
    [index], [-1] when it runs to the end. *)
Fixpoint findVariable (v : VariableList) (variable : option Variable_) (i : Z)
    : option Z :=
  match v with
  | [] => Some (-1)%Z
  | x :: v =>
      eq ← Equals x variable;
      if (eq : bool) then Some i else findVariable v variable (i + 1)
  end.

Section AddVariable.

(** [strconv.Itoa]. *)
Variable Itoa : Z → string.

Definition AddVariable (v : VariableList) (variable : option Variable_)
    (quoteValue : bool) : option (VariableList * string * bool) :=
  index ← findVariable v variable 0;
  let exists_ := negb (index =? -1)%Z in
  let '(v, index) :=
    if (index =? -1)%Z
    then (v ++ [variable], (Z.of_nat (length (v ++ [variable])) - 1)%Z)
    else (v, index) in
  let i := Itoa index in
  let name := variablePrefixSuffix +:+ i +:+ variablePrefixSuffix in
  let name := if quoteValue then quotes +:+ name +:+ quotes else name in
  Some (v, name, exists_).

End AddVariable.

End resolve.

(** ** Concurrent calls of [resolveSingleFetch]

    The calls of [resolveSingleFetch] that run at the same time are
    interleaved step by step.  A section of the function that runs under
    [inflightFetchMu] contains no blocking call and is one step; a call
    blocked in [waitLoad.Wait()], and the goroutine blocked in
    [waitFree.Wait()], have no step until the counter is zero. *)

Module singleflight.

Import Bytes resolve.

(** An [inflightFetch] with the counters of its two wait groups. *)
Record record : Type := mkRecord {
  waitLoad : nat;
  waitFree : nat;
  err : option error;
  bufPair : BufPair }.

(** What [inflightFetchPool.New] returns, and what [freeInflightFetch]
    leaves. *)
Definition newRecord : record :=
  {| waitLoad := 0; waitFree := 0; err := None; bufPair := NewBufPair |}.

(** Where a call of [resolveSingleFetch] stands. *)
Inductive pc : Type :=
| Enter                  (** at the head of the function *)
| LeaderLoad (r : nat)   (** key inserted, about to call [Load] *)
| LeaderCopy (r : nat)   (** about to copy the record's bytes to [buf] *)
| LeaderDone (r : nat)   (** about to call [waitLoad.Done()] *)
| LeaderDelete (r : nat) (** about to delete the key under the mutex *)
| LeaderSpawn (r : nat)  (** about to start the goroutine that frees the record *)
| DependentWait (r : nat)   (** in [waitLoad.Wait()] *)
| DependentCopy (r : nat)   (** about to copy the record's bytes to [buf] *)
| DependentReturn (r : nat) (** about to run the deferred [waitFree.Done()] *)
| Returned.

(** A call: its arguments, its named result [err] and its position. *)
Record call : Type := mkCall {
  c_fetch : SingleFetch;
  c_preparedInput : bytes;
  c_buf : BufPair;
  c_err : option error;
  c_pc : pc }.

(** The resolver state the calls share: the inflight table, the records
    ever allocated (a table entry, a pool entry and a call refer to a record
    by its index), the pool, the goroutines waiting to free a record, and the
    log of the [Load] invocations as [(UniqueIdentifier, input)]. *)
Record state : Type := mkState {
  inflightFetches : gmap Z nat;
  records : list record;
  inflightFetchPool : list nat;
  freeing : list nat;
  calls : list call;
  loads : list (bytes * bytes) }.

Definition start (fetch : SingleFetch) (preparedInput : bytes) (buf : BufPair) : call :=
  {| c_fetch := fetch; c_preparedInput := preparedInput; c_buf := buf;
     c_err := None; c_pc := Enter |}.

(** A resolver with an empty table and an empty pool, and the calls about to
    start. *)
Definition initial (calls : list call) : state :=
  {| inflightFetches := ∅; records := []; inflightFetchPool := []; freeing := [];
     calls := calls; loads := [] |}.

Section Steps.

Variable hash64 : bytes → Z.
Variable EnableSingleFlightLoader : bool.

Definition withCall (s : state) (i : nat) (c : call) : state :=
  {| inflightFetches := inflightFetches s; records := records s;
     inflightFetchPool := inflightFetchPool s; freeing := freeing s;
     calls := <[i := c]> (calls s); loads := loads s |}.

Definition withRecord (s : state) (r : nat) (x : record) : state :=
  {| inflightFetches := inflightFetches s; records := <[r := x]> (records s);
     inflightFetchPool := inflightFetchPool s; freeing := freeing s;
     calls := calls s; loads := loads s |}.

Definition at_ (c : call) (p : pc) : call :=
  {| c_fetch := c_fetch c; c_preparedInput := c_preparedInput c; c_buf := c_buf c;
     c_err := c_err c; c_pc := p |}.

Definition logLoad (s : state) (c : call) : state :=
  {| inflightFetches := inflightFetches s; records := records s;
     inflightFetchPool := inflightFetchPool s; freeing := freeing s;
     calls := calls s;
     loads := loads s ++ [(UniqueIdentifier (FetchDataSource (c_fetch c)),
                           c_preparedInput c)] |}.

(** [getInflightFetch]: the oldest record of the pool, or a new one when the
    pool is empty.  ([sync.Pool] may also hand out a new record while it
    holds some; a new record is what a pooled one is after
    [freeInflightFetch].) *)
Definition getInflightFetch (s : state) : state * nat :=
  match inflightFetchPool s with
  | r :: pool =>
      ({| inflightFetches := inflightFetches s; records := records s;
          inflightFetchPool := pool; freeing := freeing s;
          calls := calls s; loads := loads s |}, r)
  | [] =>
      ({| inflightFetches := inflightFetches s; records := records s ++ [newRecord];
          inflightFetchPool := []; freeing := freeing s;
          calls := calls s; loads := loads s |}, length (records s))
  end.

(** One step of the call number [i]; [None] when the call is blocked or has
    returned. *)
Definition stepCall (s : state) (i : nat) : option state :=
  c ← calls s !! i;
  let fetch := c_fetch c in
  let id := fetchID hash64 fetch (c_preparedInput c) in
  match c_pc c with
  | Enter =>
      if negb EnableSingleFlightLoader || DisallowSingleFlight fetch then
        let '(buf, lerr) := Load (FetchDataSource fetch) (c_preparedInput c) (c_buf c) in
        Some (withCall (logLoad s c) i
                {| c_fetch := fetch; c_preparedInput := c_preparedInput c;
                   c_buf := buf; c_err := errExternal <$> lerr; c_pc := Returned |})
      else
        match inflightFetches s !! id with
        | Some r =>
            x ← records s !! r;
            Some (withCall
                    (withRecord s r
                       {| waitLoad := waitLoad x; waitFree := S (waitFree x);
                          err := err x; bufPair := bufPair x |})
                    i (at_ c (DependentWait r)))
        | None =>
            let '(s, r) := getInflightFetch s in
            x ← records s !! r;
            let s := withRecord s r
                       {| waitLoad := S (waitLoad x); waitFree := waitFree x;
                          err := err x; bufPair := bufPair x |} in
            Some (withCall
                    {| inflightFetches := <[id := r]> (inflightFetches s);
                       records := records s;
                       inflightFetchPool := inflightFetchPool s;
                       freeing := freeing s; calls := calls s; loads := loads s |}
                    i (at_ c (LeaderLoad r)))
        end
  | LeaderLoad r =>
      x ← records s !! r;
      let '(shared, lerr) :=
        Load (FetchDataSource fetch) (c_preparedInput c) (bufPair x) in
      Some (withCall
              (withRecord (logLoad s c) r
                 {| waitLoad := waitLoad x; waitFree := waitFree x;
                    err := errExternal <$> lerr; bufPair := shared |})
              i {| c_fetch := fetch; c_preparedInput := c_preparedInput c;
                   c_buf := c_buf c; c_err := errExternal <$> lerr;
                   c_pc := LeaderCopy r |})
  | LeaderCopy r =>
      x ← records s !! r;
      Some (withCall s i
              {| c_fetch := fetch; c_preparedInput := c_preparedInput c;
                 c_buf := (leaderCopy (bufPair x) (c_buf c) (c_err c)).1;
                 c_err := (leaderCopy (bufPair x) (c_buf c) (c_err c)).2;
                 c_pc := LeaderDone r |})
  | LeaderDone r =>
      x ← records s !! r;
      Some (withCall
              (withRecord s r
                 {| waitLoad := pred (waitLoad x); waitFree := waitFree x;
                    err := err x; bufPair := bufPair x |})
              i (at_ c (LeaderDelete r)))
  | LeaderDelete r =>
      Some (withCall
              {| inflightFetches := delete id (inflightFetches s);
                 records := records s; inflightFetchPool := inflightFetchPool s;
                 freeing := freeing s; calls := calls s; loads := loads s |}
              i (at_ c (LeaderSpawn r)))
  | LeaderSpawn r =>
      Some (withCall
              {| inflightFetches := inflightFetches s; records := records s;
                 inflightFetchPool := inflightFetchPool s;
                 freeing := freeing s ++ [r]; calls := calls s; loads := loads s |}
              i (at_ c Returned))
  | DependentWait r =>
      x ← records s !! r;
      if (waitLoad x =? 0)%nat then Some (withCall s i (at_ c (DependentCopy r)))
      else None
  | DependentCopy r =>
      x ← records s !! r;
      Some (withCall s i
              {| c_fetch := fetch; c_preparedInput := c_preparedInput c;
                 c_buf := dependentCopy (bufPair x) (c_buf c);
                 c_err := err x;
                 c_pc := DependentReturn r |})
  | DependentReturn r =>
      x ← records s !! r;
      Some (withCall
              (withRecord s r
                 {| waitLoad := waitLoad x; waitFree := pred (waitFree x);
                    err := err x; bufPair := bufPair x |})
              i (at_ c Returned))
  | Returned => None
  end.

(** The step of the [k]-th goroutine started by a leader:
    [inflight.waitFree.Wait(); r.freeInflightFetch(inflight)]. *)
Definition stepFree (s : state) (k : nat) : option state :=
  r ← freeing s !! k;
  x ← records s !! r;
  if (waitFree x =? 0)%nat then
    Some {| inflightFetches := inflightFetches s;
            records := <[r := {| waitLoad := waitLoad x; waitFree := waitFree x;
                                 err := None; bufPair := NewBufPair |}]> (records s);
            inflightFetchPool := inflightFetchPool s ++ [r];
            freeing := delete k (freeing s);
            calls := calls s; loads := loads s |}
  else None.

(** Who moves next. *)
Inductive actor : Type :=
| Call (i : nat)
| Free (k : nat).

Definition step (s : state) (a : actor) : option state :=
  match a with
  | Call i => stepCall s i
  | Free k => stepFree s k
  end.

(** The state after a schedule, if every step of it is enabled. *)
Definition run (schedule : list actor) (s : state) : option state :=
  foldl (λ s a, s ≫= λ s, step s a) (Some s) schedule.

End Steps.

(** **** Observations on the calls, and the invariant *)

(** The record a call reads as a dependent. *)
Definition dependentOn (c : call) : option nat :=
  match c_pc c with
  | DependentWait r | DependentCopy r | DependentReturn r => Some r
  | _ => None
  end.

(** The record a call owns as the leader, until it has handed it to the
    goroutine that frees it. *)
Definition leads (c : call) : option nat :=
  match c_pc c with
  | LeaderLoad r | LeaderCopy r | LeaderDone r | LeaderDelete r | LeaderSpawn r => Some r
  | _ => None
  end.

(** The record a leader still has under its key in the table. *)
Definition holdsKey (c : call) : option nat :=
  match c_pc c with
  | LeaderLoad r | LeaderCopy r | LeaderDone r | LeaderDelete r => Some r
  | _ => None
  end.

(** How many calls read the record [r] as dependents. *)
Fixpoint dependents (r : nat) (calls : list call) : nat :=
  match calls with
  | [] => 0
  | c :: calls =>
      (if decide (dependentOn c = Some r) then 1 else 0) + dependents r calls
  end.

(** What holds of the resolver state between any two steps: the records
    in use are allocated, a record's [waitFree] counts its dependents, the
    pool, the records waiting to be freed and the records that are led are
    pairwise apart, the table holds the keys of the leaders that have not
    deleted theirs, and no dependent reads a record of the pool. *)
Record invariant (hash64 : bytes → Z) (s : state) : Prop := mkInvariant {
  inv_pool_bound : ∀ r, r ∈ inflightFetchPool s → (r < length (records s))%nat;
  inv_freeing_bound : ∀ r, r ∈ freeing s → (r < length (records s))%nat;
  inv_leads_bound : ∀ i c r,
    calls s !! i = Some c → leads c = Some r → (r < length (records s))%nat;
  inv_dependent_bound : ∀ i c r,
    calls s !! i = Some c → dependentOn c = Some r → (r < length (records s))%nat;
  inv_waitFree : ∀ r x,
    records s !! r = Some x → waitFree x = dependents r (calls s);
  inv_pool_NoDup : NoDup (inflightFetchPool s);
  inv_freeing_NoDup : NoDup (freeing s);
  inv_pool_freeing : ∀ r, r ∈ inflightFetchPool s → r ∉ freeing s;
  inv_leads_out : ∀ i c r,
    calls s !! i = Some c → leads c = Some r →
    (r ∉ inflightFetchPool s) ∧ (r ∉ freeing s);
  inv_leads_inj : ∀ i j c c' r,
    calls s !! i = Some c → calls s !! j = Some c' →
    leads c = Some r → leads c' = Some r → i = j;
  inv_table : ∀ k r,
    inflightFetches s !! k = Some r →
    ∃ i c, calls s !! i = Some c ∧ holdsKey c = Some r ∧
           fetchID hash64 (c_fetch c) (c_preparedInput c) = k;
  inv_key : ∀ i c r,
    calls s !! i = Some c → holdsKey c = Some r →
    inflightFetches s !! fetchID hash64 (c_fetch c) (c_preparedInput c) = Some r;
  inv_safe : ∀ i c r,
    calls s !! i = Some c → dependentOn c = Some r → r ∉ inflightFetchPool s }.

(** The record a leader has not released yet with [waitLoad.Done()]. *)
Definition loading (c : call) : option nat :=
  match c_pc c with
  | LeaderLoad r | LeaderCopy r | LeaderDone r => Some r
  | _ => None
  end.

(** The [waitLoad] of a record is 1 as long as a leader has it and has not
    called [Done], and 0 otherwise. *)
Definition releasedIn (records : list record) (calls : list call) : Prop :=
  ∀ r x, records !! r = Some x → waitLoad x ≠ 0%nat →
         waitLoad x = 1%nat ∧ ∃ i c, calls !! i = Some c ∧ loading c = Some r.

Definition released (s : state) : Prop := releasedIn (records s) (calls s).

End singleflight.

(** ** Selection-set surgery: [pkg/ast/ast_selection.go] and the inline
       fragment helpers

    An index expression that is out of range panics in Go; every operation
    returns [None] for a panic. *)

Module ast.

Definition SelectionKindUnknown : Z := 18.
Definition SelectionKindField : Z := 19.
Definition SelectionKindFragmentSpread : Z := 20.
Definition SelectionKindInlineFragment : Z := 21.

(** [literal.TYPENAME]. *)
Definition TYPENAME : bytes := "__typename".

(** The positions [LBrace], [RBrace] carry no behaviour and are left out. *)
Record SelectionSet : Type := mkSelectionSet { SelectionRefs : list Z }.

Record Selection : Type := mkSelection { Kind : Z; Ref : Z }.

Record TypeCondition : Type := mkTypeCondition { TypeRef : Z }.

Record DirectiveList : Type := mkDirectiveList { Refs : list Z }.

Record InlineFragment : Type := mkInlineFragment {
  InlineFragmentTypeCondition : TypeCondition;
  HasDirectives : bool;
  Directives : DirectiveList;
  InlineFragmentSelectionSet : Z;
  HasSelections : bool }.

(** [ast.Node], a kind and a reference. *)
Record Node : Type := mkNode { NodeKind : Z; NodeRef : Z }.

(** [l[i]] for a Go [int] index. *)
Definition index {A : Type} (l : list A) (i : Z) : option A :=
  if (i <? 0)%Z then None else l !! Z.to_nat i.

Section Document.

(** The arrays of [Document] that the functions below never index
    themselves (fields, fragment spreads, directives, named types, the input
    bytes). *)
Variable Rest : Type.

Record Document : Type := mkDocument {
  Selections : list Selection;
  SelectionSets : list SelectionSet;
  InlineFragments : list InlineFragment;
  rest : Rest }.

(** Functions of package ast whose source is not part of this development. *)
Variable CopyField : Document → Z → option (Document * Z).
Variable CopyFragmentSpread : Document → Z → option (Document * Z).
Variable CopyDirectiveList : Document → DirectiveList → option (Document * DirectiveList).
(** [FieldNameBytes], [AddNamedType] and the name of a named type only
    touch those other arrays. *)
Variable FieldNameBytes : Rest → Z → option bytes.
Variable AddNamedType : Rest → bytes → Rest * Z.
(** [d.Input.ByteSlice(d.Types[i].Name)]. *)
Variable TypeNameBytes : Rest → Z → option bytes.

Definition withRest (d : Document) (r : Rest) : Document :=
  {| Selections := Selections d; SelectionSets := SelectionSets d;
     InlineFragments := InlineFragments d; rest := r |}.

Definition withSelections (d : Document) (l : list Selection) : Document :=
  {| Selections := l; SelectionSets := SelectionSets d;
     InlineFragments := InlineFragments d; rest := rest d |}.

Definition withSelectionSets (d : Document) (l : list SelectionSet) : Document :=
  {| Selections := Selections d; SelectionSets := l;
     InlineFragments := InlineFragments d; rest := rest d |}.

Definition withInlineFragments (d : Document) (l : list InlineFragment) : Document :=
  {| Selections := Selections d; SelectionSets := SelectionSets d;
     InlineFragments := l; rest := rest d |}.

(** [d.SelectionSets[ref].SelectionRefs]. *)
Definition selectionRefs (d : Document) (ref : Z) : option (list Z) :=
  SelectionRefs <$> index (SelectionSets d) ref.

(** [d.SelectionSets[ref].SelectionRefs = refs]. *)
Definition setSelectionRefs (d : Document) (ref : Z) (refs : list Z) : option Document :=
  _ ← index (SelectionSets d) ref;
  Some (withSelectionSets d (<[Z.to_nat ref := mkSelectionSet refs]> (SelectionSets d))).

Definition AddSelectionSetToDocument (d : Document) (set : SelectionSet) : Document * Z :=
  (withSelectionSets d (SelectionSets d ++ [set]), Z.of_nat (length (SelectionSets d))).

(** [AddSelectionSet().Ref]; the new set starts from an empty slice of the
    reference pool. *)
Definition AddSelectionSet (d : Document) : Document * Z :=
  AddSelectionSetToDocument d (mkSelectionSet []).

Definition AddSelectionToDocument (d : Document) (selection : Selection) : Document * Z :=
  (withSelections d (Selections d ++ [selection]), Z.of_nat (length (Selections d))).

Definition AddSelection (d : Document) (set : Z) (selection : Selection) : option Document :=
  let '(d, ref) := AddSelectionToDocument d selection in
  refs ← selectionRefs d set;
  setSelectionRefs d set (refs ++ [ref]).

Definition AddInlineFragment (d : Document) (fragment : InlineFragment) : Document * Z :=
  (withInlineFragments d (InlineFragments d ++ [fragment]),
   Z.of_nat (length (InlineFragments d))).

Definition EmptySelectionSet (d : Document) (ref : Z) : option Document :=
  setSelectionRefs d ref [].

Definition AppendSelectionSet (d : Document) (ref appendRef : Z) : option Document :=
  refs ← selectionRefs d ref;
  appendRefs ← selectionRefs d appendRef;
  setSelectionRefs d ref (refs ++ appendRefs).

Definition ReplaceSelectionOnSelectionSet (d : Document) (ref replace with_ : Z)
    : option Document :=
  refs ← selectionRefs d ref;
  withRefs ← selectionRefs d with_;
  if bool_decide (0 ≤ replace ∧ replace + 1 ≤ Z.of_nat (length refs))%Z then
    setSelectionRefs d ref
      (take (Z.to_nat replace) refs ++ withRefs ++ drop (Z.to_nat (replace + 1)) refs)
  else None.

Definition RemoveFromSelectionSet (d : Document) (ref idx : Z) : option Document :=
  refs ← selectionRefs d ref;
  if bool_decide (0 ≤ idx ∧ idx + 1 ≤ Z.of_nat (length refs))%Z then
    setSelectionRefs d ref
      (take (Z.to_nat idx) refs ++ drop (Z.to_nat (idx + 1)) refs)
  else None.

(** The loop of [SelectionIndex], from position [i] on. *)
Fixpoint selectionIndexFrom (d : Document) (selectionKind selectionRef : Z)
    (refs : list Z) (i : Z) : option (Z * bool) :=
  match refs with
  | [] => Some (0%Z, false)
  | selection :: refs =>
      s ← index (Selections d) selection;
      if bool_decide (Kind s = selectionKind) && bool_decide (Ref s = selectionRef)
      then Some (i, true)
      else selectionIndexFrom d selectionKind selectionRef refs (i + 1)
  end.

Definition SelectionIndex (d : Document) (selectionKind selectionRef selectionSet : Z)
    : option (Z * bool) :=
  refs ← selectionRefs d selectionSet;
  selectionIndexFrom d selectionKind selectionRef refs 0.

(** [CopySelectionSet], [CopySelection] and [CopyInlineFragment] call each
    other through the references stored in the document.  The first two are
    written over the recursive call, which is tied by [CopySelectionSet];
    [fuel] bounds the nesting of inline fragments that is followed. *)
Section Copy.

Variable copySelectionSet : Document → Z → option (Document * Z).

Definition copyInlineFragment (d : Document) (ref : Z) : option (Document * Z) :=
  f ← index (InlineFragments d) ref;
  '(d, directives) ←
    (if HasDirectives f then CopyDirectiveList d (Directives f)
     else Some (d, mkDirectiveList []));
  '(d, selectionSet) ←
    (if HasSelections f then copySelectionSet d (InlineFragmentSelectionSet f)
     else Some (d, 0%Z));
  Some (AddInlineFragment d
          {| InlineFragmentTypeCondition := InlineFragmentTypeCondition f;
             HasDirectives := HasDirectives f;
             Directives := directives;
             InlineFragmentSelectionSet := selectionSet;
             HasSelections := HasSelections f |}).

Definition copySelection (d : Document) (ref : Z) : option (Document * Z) :=
  s ← index (Selections d) ref;
  '(d, innerRef) ←
    (if bool_decide (Kind s = SelectionKindField) then CopyField d (Ref s)
     else if bool_decide (Kind s = SelectionKindFragmentSpread)
     then CopyFragmentSpread d (Ref s)
     else if bool_decide (Kind s = SelectionKindInlineFragment)
     then copyInlineFragment d (Ref s)
     else Some (d, (-1)%Z));
  Some (AddSelectionToDocument d {| Kind := Kind s; Ref := innerRef |}).

(** The loop of [CopySelectionSet]. *)
Definition copySelections (d : Document) (toCopy : list Z) : option (Document * list Z) :=
  foldl (λ acc r,
           '(d, refs) ← acc;
           '(d, c) ← copySelection d r;
           Some (d, refs ++ [c]))
        (Some (d, [])) toCopy.

End Copy.

Fixpoint CopySelectionSet (fuel : nat) (d : Document) (ref : Z)
    {struct fuel} : option (Document * Z) :=
  match fuel with
  | O => None
  | S fuel =>
      toCopy ← selectionRefs d ref;
      '(d, refs) ← copySelections (CopySelectionSet fuel) d toCopy;
      Some (AddSelectionSetToDocument d (mkSelectionSet refs))
  end.

Definition CopySelection (fuel : nat) : Document → Z → option (Document * Z) :=
  copySelection (CopySelectionSet fuel).

Definition CopyInlineFragment (fuel : nat) : Document → Z → option (Document * Z) :=
  copyInlineFragment (CopySelectionSet fuel).

(** [InlineFragmentTypeConditionName]: [nil] when there is no type
    condition. *)
Definition InlineFragmentTypeConditionName (d : Document) (ref : Z)
    : option (option bytes) :=
  f ← index (InlineFragments d) ref;
  if bool_decide (TypeRef (InlineFragmentTypeCondition f) = (-1)%Z) then Some None
  else Some <$> TypeNameBytes (rest d) (TypeRef (InlineFragmentTypeCondition f)).

(** What the first loop of [ExpandInterfaceSelectionSet] finds out about a
    selection: whether it is a field other than [__typename]. *)
Definition isFieldToMove (d : Document) (selection : Z) : option bool :=
  s ← index (Selections d) selection;
  if negb (bool_decide (Kind s = SelectionKindField)) then Some false
  else
    name ← FieldNameBytes (rest d) (Ref s);
    if bool_decide (name = TYPENAME) then Some false else Some true.

(** The first loop of [ExpandInterfaceSelectionSet], about to visit the
    positions [n-1], ..., [0] of the set: a field other than [__typename] is
    removed from the set and appended to the staging set. *)
Fixpoint moveFieldSelections (n : nat) (d : Document)
    (set inlineFragmentSelectionSet : Z) : option Document :=
  match n with
  | O => Some d
  | S i =>
      refs ← selectionRefs d set;
      selection ← index refs (Z.of_nat i);
      move ← isFieldToMove d selection;
      if (move : bool) then
        d ← RemoveFromSelectionSet d set (Z.of_nat i);
        staged ← selectionRefs d inlineFragmentSelectionSet;
        d ← setSelectionRefs d inlineFragmentSelectionSet (staged ++ [selection]);
        moveFieldSelections i d set inlineFragmentSelectionSet
      else moveFieldSelections i d set inlineFragmentSelectionSet
  end.

(** [refs[i], refs[j] = refs[j], refs[i]]. *)
Definition swap (refs : list Z) (i j : nat) : option (list Z) :=
  x ← refs !! i;
  y ← refs !! j;
  Some (<[j := x]> (<[i := y]> refs)).

(** The reversal loop of [ExpandInterfaceSelectionSet]:
    [for i := 0; i < len(refs)/2; i += 1 { refs[i], refs[len(refs)-1] = refs[len(refs)-1], refs[i] }],
    run for the values [i], [i+1], ... of the loop variable, [k] of them. *)
Fixpoint reverseRefsFrom (k i : nat) (refs : list Z) : option (list Z) :=
  match k with
  | O => Some refs
  | S k =>
      refs ← swap refs i (length refs - 1);
      reverseRefsFrom k (S i) refs
  end.

Definition reverseRefs (refs : list Z) : option (list Z) :=
  reverseRefsFrom (length refs / 2) 0 refs.

(** The loop over [concreteTypeNames] of [ExpandInterfaceSelectionSet]. *)
Fixpoint addExpandedFragments (fuel : nat) (concreteTypeNames : list string)
    (d : Document) (selectionSetToAdd inlineFragmentSelectionSet : Z)
    : option Document :=
  match concreteTypeNames with
  | [] => Some d
  | typeName :: concreteTypeNames =>
      let '(r, namedType) := AddNamedType (rest d) typeName in
      let d := withRest d r in
      '(d, copy) ← CopySelectionSet fuel d inlineFragmentSelectionSet;
      let '(d, newInlineFragment) :=
        AddInlineFragment d
          {| InlineFragmentTypeCondition := mkTypeCondition namedType;
             HasDirectives := false;
             Directives := mkDirectiveList [];
             InlineFragmentSelectionSet := copy;
             HasSelections := true |} in
      d ← AddSelection d selectionSetToAdd
            {| Kind := SelectionKindInlineFragment; Ref := newInlineFragment |};
      addExpandedFragments fuel concreteTypeNames d
        selectionSetToAdd inlineFragmentSelectionSet
  end.

Definition ExpandInterfaceSelectionSet (fuel : nat) (d : Document) (set : Z)
    (concreteTypeNames : list string) : option Document :=
  let '(d, selectionSetToAdd) := AddSelectionSet d in
  let '(d, inlineFragmentSelectionSet) := AddSelectionSet d in
  refs ← selectionRefs d set;
  d ← moveFieldSelections (length refs) d set inlineFragmentSelectionSet;
  staged ← selectionRefs d inlineFragmentSelectionSet;
  if (Z.of_nat (length staged) =? 0)%Z then Some d
  else
    refs ← reverseRefs staged;
    d ← setSelectionRefs d inlineFragmentSelectionSet refs;
    d ← addExpandedFragments fuel concreteTypeNames d
          selectionSetToAdd inlineFragmentSelectionSet;
    AppendSelectionSet d set selectionSetToAdd.

(** The loop over [concreteTypeNames] of [ExpandInterfaceInlineFragment]. *)
Fixpoint addRetypedFragments (fuel : nat) (concreteTypeNames : list string)
    (d : Document) (inlineFragment replacementSelectionSet : Z) : option Document :=
  match concreteTypeNames with
  | [] => Some d
  | typeName :: concreteTypeNames =>
      let '(r, namedType) := AddNamedType (rest d) typeName in
      let d := withRest d r in
      '(d, newInlineFragment) ← CopyInlineFragment fuel d inlineFragment;
      f ← index (InlineFragments d) newInlineFragment;
      let d :=
        withInlineFragments d
          (<[Z.to_nat newInlineFragment :=
               {| InlineFragmentTypeCondition := mkTypeCondition namedType;
                  HasDirectives := HasDirectives f;
                  Directives := Directives f;
                  InlineFragmentSelectionSet := InlineFragmentSelectionSet f;
                  HasSelections := HasSelections f |}]> (InlineFragments d)) in
      d ← AddSelection d replacementSelectionSet
            {| Kind := SelectionKindInlineFragment; Ref := newInlineFragment |};
      addRetypedFragments fuel concreteTypeNames d inlineFragment replacementSelectionSet
  end.

Definition ExpandInterfaceInlineFragment (fuel : nat) (d : Document)
    (inlineFragment parentSelectionSet : Z) (concreteTypeNames : list string)
    : option Document :=
  let '(d, replacementSelectionSet) := AddSelectionSet d in
  d ← addRetypedFragments fuel concreteTypeNames d inlineFragment replacementSelectionSet;
  '(idx, _) ← SelectionIndex d SelectionKindInlineFragment inlineFragment parentSelectionSet;
  ReplaceSelectionOnSelectionSet d parentSelectionSet idx replacementSelectionSet.

Definition PromoteUnionInlineFragments (d : Document)
    (inlineFragment parentSelectionSet : Z) : option Document :=
  '(idx, _) ← SelectionIndex d SelectionKindInlineFragment inlineFragment parentSelectionSet;
  f ← index (InlineFragments d) inlineFragment;
  ReplaceSelectionOnSelectionSet d parentSelectionSet idx (InlineFragmentSelectionSet f).

End Document.

(** *** Queries on selection sets *)

Section Queries.

Variable Rest : Type.
(** [NodeKindSelectionSet], a constant of package ast declared outside the
    files embedded here. *)
Variable NodeKindSelectionSet : Z.
(** [FieldAliasIsDefined] and [FieldAliasBytes] read the field and the
    input bytes only. *)
Variable FieldNameBytes : Rest → Z → option bytes.
Variable FieldAliasIsDefined : Rest → Z → option bool.
Variable FieldAliasBytes : Rest → Z → option bytes.

(** The loop of [SelectionsBeforeField], from position [i] on. *)
Fixpoint selectionsBeforeFieldFrom (d : Document Rest) (field : Z)
    (refs : list Z) (i : Z) : option bool :=
  match refs with
  | [] => Some false
  | j :: refs =>
      s ← index (Selections Rest d) j;
      if bool_decide (Kind s = SelectionKindField) && bool_decide (Ref s = field)
      then Some (negb (i =? 0)%Z)
      else selectionsBeforeFieldFrom d field refs (i + 1)
  end.

Definition SelectionsBeforeField (d : Document Rest) (field : Z) (selectionSet : Node)
    : option bool :=
  if negb (NodeKind selectionSet =? NodeKindSelectionSet)%Z then Some false
  else
    refs ← selectionRefs Rest d (NodeRef selectionSet);
    if (Z.of_nat (length refs) =? 1)%Z then Some false
    else selectionsBeforeFieldFrom d field refs 0.

(** The loop of [SelectionsAfter], from position [i] on; [n] is the length
    of the whole slice. *)
Fixpoint selectionsAfterFrom (d : Document Rest) (selectionKind selectionRef : Z)
    (n : Z) (refs : list Z) (i : Z) : option bool :=
  match refs with
  | [] => Some false
  | j :: refs =>
      s ← index (Selections Rest d) j;
      if bool_decide (Kind s = selectionKind) && bool_decide (Ref s = selectionRef)
      then Some (negb (i =? n - 1)%Z)
      else selectionsAfterFrom d selectionKind selectionRef n refs (i + 1)
  end.

Definition SelectionsAfter (d : Document Rest) (selectionKind selectionRef : Z)
    (selectionSet : Node) : option bool :=
  if negb (NodeKind selectionSet =? NodeKindSelectionSet)%Z then Some false
  else
    refs ← selectionRefs Rest d (NodeRef selectionSet);
    if (Z.of_nat (length refs) =? 1)%Z then Some false
    else selectionsAfterFrom d selectionKind selectionRef
           (Z.of_nat (length refs)) refs 0.

Definition SelectionsAfterField (d : Document Rest) (field : Z) (selectionSet : Node) :=
  SelectionsAfter d SelectionKindField field selectionSet.

Definition SelectionsAfterInlineFragment (d : Document Rest) (inlineFragment : Z)
    (selectionSet : Node) :=
  SelectionsAfter d SelectionKindInlineFragment inlineFragment selectionSet.

Definition SelectionsAfterFragmentSpread (d : Document Rest) (fragmentSpread : Z)
    (selectionSet : Node) :=
  SelectionsAfter d SelectionKindFragmentSpread fragmentSpread selectionSet.

(** The loop of [SelectionSetHasFieldSelectionWithNameOrAliasBytes]. *)
Fixpoint hasFieldSelectionFrom (d : Document Rest) (nameOrAlias : bytes)
    (refs : list Z) : option bool :=
  match refs with
  | [] => Some false
  | i :: refs =>
      s ← index (Selections Rest d) i;
      if negb (bool_decide (Kind s = SelectionKindField))
      then hasFieldSelectionFrom d nameOrAlias refs
      else
        let field := Ref s in
        fieldName ← FieldNameBytes (rest Rest d) field;
        if bool_decide (fieldName = nameOrAlias) then Some true
        else
          defined ← FieldAliasIsDefined (rest Rest d) field;
          if negb defined then hasFieldSelectionFrom d nameOrAlias refs
          else
            fieldAlias ← FieldAliasBytes (rest Rest d) field;
            if bool_decide (fieldAlias = nameOrAlias) then Some true
            else hasFieldSelectionFrom d nameOrAlias refs
  end.

Definition SelectionSetHasFieldSelectionWithNameOrAliasBytes (d : Document Rest)
    (set : Z) (nameOrAlias : bytes) : option bool :=
  refs ← selectionRefs Rest d set;
  hasFieldSelectionFrom d nameOrAlias refs.

(** [unsafebytes.StringToBytes] keeps the bytes. *)
Definition SelectionSetHasFieldSelectionWithNameOrAliasString (d : Document Rest)
    (set : Z) (nameOrAlias : string) : option bool :=
  SelectionSetHasFieldSelectionWithNameOrAliasBytes d set nameOrAlias.

(** [InlineFragmentSelections]: [nil] without selections. *)
Definition InlineFragmentSelections (d : Document Rest) (ref : Z)
    : option (option (list Z)) :=
  f ← index (InlineFragments Rest d) ref;
  if negb (HasSelections f) then Some None
  else Some <$> selectionRefs Rest d (InlineFragmentSelectionSet f).

End Queries.

End ast.

(** ** The transformation scheduler: package asttransform *)

Module asttransform.

(** [Transformable], the capability set an AST offers; a method mutates
    the receiver, here it returns the new value. *)
Class Transformable (T : Type) : Type := mkTransformable {
  DeleteRootNode : ast.Node → T → T;
  EmptySelectionSet : Z → T → T;
  AppendSelectionSet : Z → Z → T → T;
  ReplaceFragmentSpread : Z → Z → Z → T → T;
  ReplaceFragmentSpreadWithInlineFragment : Z → Z → Z → ast.TypeCondition → T → T;
  ExpandInterfaceInlineFragment : Z → Z → list string → T → T;
  PromoteUnionInlineFragments : Z → Z → T → T;
  ExpandInterfaceSelectionSet : Z → list string → T → T }.

Record Precedence : Type := mkPrecedence { Depth : Z; Order : Z }.

(** The implementations of the [transformation] interface. *)
Inductive transformation : Type :=
| replaceFragmentSpread (selectionSet spreadRef replaceWithSelectionSet : Z)
| expandInterfaceInlineFragment (inlineFragment parentSelectionSet : Z)
    (concreteTypeNames : list string)
| promoteUnionInlineFragments (inlineFragment parentSelectionSet : Z)
| replaceFragmentSpreadWithInlineFragment
    (selectionSet spreadRef replaceWithSelectionSet : Z)
    (typeCondition : ast.TypeCondition)
| expandInterfaceSelectionSet (selectionSet : Z) (concreteTypeNames : list string)
| deleteRootNode (node : ast.Node)
| emptySelectionSet (ref : Z)
| appendSelectionSet (ref appendRef : Z).

Definition apply {T : Type} `{Transformable T} (t : transformation) (transformable : T) : T :=
  match t with
  | replaceFragmentSpread selectionSet spreadRef replaceWithSelectionSet =>
      ReplaceFragmentSpread selectionSet spreadRef replaceWithSelectionSet transformable
  | expandInterfaceInlineFragment inlineFragment parentSelectionSet concreteTypeNames =>
      ExpandInterfaceInlineFragment inlineFragment parentSelectionSet concreteTypeNames
        transformable
  | promoteUnionInlineFragments inlineFragment parentSelectionSet =>
      PromoteUnionInlineFragments inlineFragment parentSelectionSet transformable
  | replaceFragmentSpreadWithInlineFragment selectionSet spreadRef
      replaceWithSelectionSet typeCondition =>
      ReplaceFragmentSpreadWithInlineFragment selectionSet spreadRef
        replaceWithSelectionSet typeCondition transformable
  | expandInterfaceSelectionSet selectionSet concreteTypeNames =>
      ExpandInterfaceSelectionSet selectionSet concreteTypeNames transformable
  | deleteRootNode node => DeleteRootNode node transformable
  | emptySelectionSet ref => EmptySelectionSet ref transformable
  | appendSelectionSet ref appendRef => AppendSelectionSet ref appendRef transformable
  end.

Record action : Type := mkAction {
  precedence : Precedence;
  action_transformation : transformation }.

Record Transformer : Type := mkTransformer { actions : list action }.

Definition Reset (t : Transformer) : Transformer := {| actions := [] |}.

(** The methods of [Transformer] that register an action. *)
Module Transformer.

Definition register (t : Transformer) (p : Precedence) (tr : transformation) : Transformer :=
  {| actions := actions t ++ [ {| precedence := p; action_transformation := tr |} ] |}.

Definition DeleteRootNode (t : Transformer) (p : Precedence) (node : ast.Node) :=
  register t p (deleteRootNode node).
Definition EmptySelectionSet (t : Transformer) (p : Precedence) (ref : Z) :=
  register t p (emptySelectionSet ref).
Definition AppendSelectionSet (t : Transformer) (p : Precedence) (ref appendRef : Z) :=
  register t p (appendSelectionSet ref appendRef).
Definition ReplaceFragmentSpread (t : Transformer) (p : Precedence)
    (selectionSet spreadRef replaceWithSelectionSet : Z) :=
  register t p (replaceFragmentSpread selectionSet spreadRef replaceWithSelectionSet).
Definition ReplaceFragmentSpreadWithInlineFragment (t : Transformer) (p : Precedence)
    (selectionSet spreadRef replaceWithSelectionSet : Z) (typeCondition : ast.TypeCondition) :=
  register t p (replaceFragmentSpreadWithInlineFragment selectionSet spreadRef
                  replaceWithSelectionSet typeCondition).
Definition ExpandInterfaceInlineFragment (t : Transformer) (p : Precedence)
    (inlineFragment parentSelectionSet : Z) (concreteTypeNames : list string) :=
  register t p (expandInterfaceInlineFragment inlineFragment parentSelectionSet
                  concreteTypeNames).
Definition PromoteUnionInlineFragments (t : Transformer) (p : Precedence)
    (inlineFragment parentSelectionSet : Z) :=
  register t p (promoteUnionInlineFragments inlineFragment parentSelectionSet).
Definition ExpandInterfaceSelectionSet (t : Transformer) (p : Precedence)
    (selectionSet : Z) (concreteTypeNames : list string) :=
  register t p (expandInterfaceSelectionSet selectionSet concreteTypeNames).

End Transformer.

(** The [less] closure handed to [sort.Slice], on the elements it compares. *)
Definition less (a b : action) : bool :=
  if negb (Depth (precedence a) =? Depth (precedence b))%Z
  then (Depth (precedence a) >? Depth (precedence b))%Z
  else (Order (precedence a) <? Order (precedence b))%Z.

(** The loop of [ApplyTransformations]. *)
Definition applyAll {T : Type} `{Transformable T} (l : list action) (transformable : T) : T :=
  foldl (λ tr a, apply (action_transformation a) tr) transformable l.

Section Apply.

(** [sort.Slice] of the Go standard library, as a function of the closure
    and the slice. *)
Variable sortSlice : (action → action → bool) → list action → list action.

Definition ApplyTransformations {T : Type} `{Transformable T}
    (t : Transformer) (transformable : T) : Transformer * T :=
  let sorted := sortSlice less (actions t) in
  ({| actions := sorted |}, applyAll sorted transformable).

End Apply.

(** What the documentation of [sort.Slice] promises for this closure: the
    slice is permuted, and afterwards no element is [less] than one before
    it.  Nothing is promised for elements that compare equal. *)
Definition sortSliceContract
    (sortSlice : (action → action → bool) → list action → list action) : Prop :=
  ∀ l, sortSlice less l ≡ₚ l ∧
       StronglySorted (λ a b, less b a = false) (sortSlice less l).



(** The AST of package ast as a [Transformable]; a panic is [None]. *)
Section DocumentTransformable.

Context {Rest : Type}.
Variable CopyField : ast.Document Rest → Z → option (ast.Document Rest * Z).
Variable CopyFragmentSpread : ast.Document Rest → Z → option (ast.Document Rest * Z).
Variable CopyDirectiveList :
  ast.Document Rest → ast.DirectiveList → option (ast.Document Rest * ast.DirectiveList).
Variable FieldNameBytes : Rest → Z → option bytes.
Variable AddNamedType : Rest → bytes → Rest * Z.
(** Methods of [Document] whose source is not part of this development. *)
Variable DocDeleteRootNode : ast.Node → ast.Document Rest → option (ast.Document Rest).
Variable DocReplaceFragmentSpread :
  Z → Z → Z → ast.Document Rest → option (ast.Document Rest).
Variable DocReplaceFragmentSpreadWithInlineFragment :
  Z → Z → Z → ast.TypeCondition → ast.Document Rest → option (ast.Document Rest).
Variable fuel : nat.

Definition DocumentTransformable : Transformable (option (ast.Document Rest)) := {|
  DeleteRootNode node d := d ≫= DocDeleteRootNode node;
  EmptySelectionSet ref d := d ≫= λ d, ast.EmptySelectionSet Rest d ref;
  AppendSelectionSet ref appendRef d :=
    d ≫= λ d, ast.AppendSelectionSet Rest d ref appendRef;
  ReplaceFragmentSpread a b c d := d ≫= DocReplaceFragmentSpread a b c;
  ReplaceFragmentSpreadWithInlineFragment a b c tc d :=
    d ≫= DocReplaceFragmentSpreadWithInlineFragment a b c tc;
  ExpandInterfaceInlineFragment inlineFragment parentSelectionSet names d :=
    d ≫= λ d, ast.ExpandInterfaceInlineFragment Rest CopyField CopyFragmentSpread
                CopyDirectiveList AddNamedType fuel d
                inlineFragment parentSelectionSet names;
  PromoteUnionInlineFragments inlineFragment parentSelectionSet d :=
    d ≫= λ d, ast.PromoteUnionInlineFragments Rest d inlineFragment parentSelectionSet;
  ExpandInterfaceSelectionSet set names d :=
    d ≫= λ d, ast.ExpandInterfaceSelectionSet Rest CopyField CopyFragmentSpread
                CopyDirectiveList FieldNameBytes AddNamedType fuel d set names
|}.

End DocumentTransformable.

End asttransform.

(** ** The walker state that the visitors read: package astvisitor

    Of [astvisitor.Walker] the visitors read three fields, which the
    walker keeps up to date while it descends. *)

Module astvisitor.

Record Walker : Type := mkWalker {
  Ancestors : list ast.Node;
  EnclosingTypeDefinition : ast.Node;
  Depth : Z }.

End astvisitor.

(** ** Deletion of invalid inline fragments:
       [pkg/astnormalization/inline_fragment_invalid_deletion.go] *)

Module astnormalization.

Section deleteInvalidInlineFragmentsVisitor.

Context {Rest : Type}.
Variable TypeNameBytes : Rest → Z → option bytes.
(** [d.definition.Index.FirstNonExtensionNodeByNameBytes(typeName)]:
    [(node, exists)]. *)
Variable FirstNonExtensionNodeByNameBytes : option bytes → option ast.Node.
(** [d.definition.NodeFragmentIsAllowedOnNode]. *)
Variable NodeFragmentIsAllowedOnNode : ast.Node → ast.Node → bool.
(** The walker's [EnclosingTypeDefinition] when the selection set is
    entered. *)
Variable EnclosingTypeDefinition : ast.Node.

(** What the local slice [selections] shows after
    [RemoveFromSelectionSet(ref, idx)] on a set of [m] references: the slice
    shares its array with the set, whose tail was moved one place down. *)
Definition selectionsAfterRemove (selections : list Z) (m idx : nat) : list Z :=
  take idx selections ++ take (m - 1 - idx) (drop (S idx) selections)
    ++ drop (m - 1) selections.

(** What the loop body finds out about a selection: whether it is an inline
    fragment whose type condition names a type of the definition that is not
    allowed on the enclosing type. *)
Definition isInvalidInlineFragment (operation : ast.Document Rest) (selection : Z)
    : option bool :=
  s ← ast.index (ast.Selections Rest operation) selection;
  if negb (bool_decide (ast.Kind s = ast.SelectionKindInlineFragment)) then Some false
  else
    let inlineFragment := ast.Ref s in
    typeName ← ast.InlineFragmentTypeConditionName Rest TypeNameBytes
                  operation inlineFragment;
    match FirstNonExtensionNodeByNameBytes typeName with
    | None => Some false
    | Some node => Some (negb (NodeFragmentIsAllowedOnNode node EnclosingTypeDefinition))
    end.

(** The loop of [EnterSelectionSet], about to visit the positions [n-1],
    ..., [0]. *)
Fixpoint deleteInvalidFrom (n : nat) (selections : list Z)
    (operation : ast.Document Rest) (ref : Z) : option (ast.Document Rest) :=
  match n with
  | O => Some operation
  | S idx =>
      selection ← selections !! idx;
      invalid ← isInvalidInlineFragment operation selection;
      if (invalid : bool) then
        refs ← ast.selectionRefs Rest operation ref;
        operation ← ast.RemoveFromSelectionSet Rest operation ref (Z.of_nat idx);
        deleteInvalidFrom idx
          (selectionsAfterRemove selections (length refs) idx) operation ref
      else deleteInvalidFrom idx selections operation ref
  end.

Definition EnterSelectionSet (operation : ast.Document Rest) (ref : Z)
    : option (ast.Document Rest) :=
  selections ← ast.selectionRefs Rest operation ref;
  if (Z.of_nat (length selections) =? 0)%Z then Some operation
  else deleteInvalidFrom (length selections) selections operation ref.

End deleteInvalidInlineFragmentsVisitor.

(** *** The visitors that register expansions:
        [interface_selection_set_expansion.go] and
        [inline_fragment_type_expansion.go]

    A visitor holds a [Transformer]; its methods are given the walker as it
    stands when they are called.  A panic of an index expression is
    [None]. *)

Section ExpansionVisitors.

(** The node kinds of package ast that the visitors compare with. *)
Variable NodeKindField : Z.
Variable NodeKindInlineFragment : Z.
Variable NodeKindInterfaceTypeDefinition : Z.
Variable NodeKindUnionTypeDefinition : Z.
(** [e.definition.ConcreteInterfaceImplementationTypeNames]. *)
Variable ConcreteInterfaceImplementationTypeNames : Z → list string.
Variable sortSlice :
  (asttransform.action → asttransform.action → bool)
  → list asttransform.action → list asttransform.action.

(** [e.Walker.Ancestors[len(e.Walker.Ancestors)-k]]. *)
Definition ancestor (w : astvisitor.Walker) (k : Z) : option ast.Node :=
  ast.index (astvisitor.Ancestors w)
    (Z.of_nat (length (astvisitor.Ancestors w)) - k).

(** [expandInterfaceSelectionSetsVisitor]. *)
Definition expandInterfaceSelectionSets_EnterDocument (transformer : asttransform.Transformer)
    : asttransform.Transformer :=
  asttransform.Reset transformer.

Definition expandInterfaceSelectionSets_LeaveDocument {T : Type}
    `{asttransform.Transformable T}
    (transformer : asttransform.Transformer) (operation : T)
    : asttransform.Transformer * T :=
  asttransform.ApplyTransformations sortSlice transformer operation.

Definition expandInterfaceSelectionSets_EnterSelectionSet (w : astvisitor.Walker)
    (transformer : asttransform.Transformer) (ref : Z)
    : option asttransform.Transformer :=
  if negb (ast.NodeKind (astvisitor.EnclosingTypeDefinition w)
             =? NodeKindInterfaceTypeDefinition)%Z
  then Some transformer
  else
    parent ← ancestor w 1;
    if negb (ast.NodeKind parent =? NodeKindField)%Z then Some transformer
    else
      let precedence :=
        {| asttransform.Depth := astvisitor.Depth w; asttransform.Order := 0 |} in
      let typeNames :=
        ConcreteInterfaceImplementationTypeNames
          (ast.NodeRef (astvisitor.EnclosingTypeDefinition w)) in
      Some (asttransform.Transformer.ExpandInterfaceSelectionSet transformer
              precedence ref typeNames).

(** [expandAbstractInlineFragmentsVisitor]. *)
Definition expandAbstractInlineFragments_EnterDocument
    (transformer : asttransform.Transformer) : asttransform.Transformer :=
  asttransform.Reset transformer.

Definition expandAbstractInlineFragments_LeaveDocument {T : Type}
    `{asttransform.Transformable T}
    (transformer : asttransform.Transformer) (operation : T)
    : asttransform.Transformer * T :=
  asttransform.ApplyTransformations sortSlice transformer operation.

Definition expandAbstractInlineFragments_EnterSelectionSet (w : astvisitor.Walker)
    (transformer : asttransform.Transformer) (ref : Z)
    : option asttransform.Transformer :=
  inlineFragmentNode ← ancestor w 1;
  if negb (ast.NodeKind inlineFragmentNode =? NodeKindInlineFragment)%Z
  then Some transformer
  else
    let enclosingKind := ast.NodeKind (astvisitor.EnclosingTypeDefinition w) in
    if negb (enclosingKind =? NodeKindInterfaceTypeDefinition)%Z
       && negb (enclosingKind =? NodeKindUnionTypeDefinition)%Z
    then Some transformer
    else
      parentSelectionSetNode ← ancestor w 2;
      let parentSelectionSet := ast.NodeRef parentSelectionSetNode in
      let precedence :=
        {| asttransform.Depth := astvisitor.Depth w; asttransform.Order := 0 |} in
      if (enclosingKind =? NodeKindInterfaceTypeDefinition)%Z then
        let typeNames :=
          ConcreteInterfaceImplementationTypeNames
            (ast.NodeRef (astvisitor.EnclosingTypeDefinition w)) in
        Some (asttransform.Transformer.ExpandInterfaceInlineFragment transformer
                precedence (ast.NodeRef inlineFragmentNode) parentSelectionSet typeNames)
      else if (enclosingKind =? NodeKindUnionTypeDefinition)%Z then
        Some (asttransform.Transformer.PromoteUnionInlineFragments transformer
                precedence (ast.NodeRef inlineFragmentNode) parentSelectionSet)
      else Some transformer.

End ExpansionVisitors.

End astnormalization.

(** ** The result writer of the execution engine:
       [EngineResultWriter] of package graphql

    The buffer is the value it holds; the flush callback acts on a state
    [World] of the caller and is given the bytes as they are when it is
    called. *)

Module graphql.

Import Bytes.

Section EngineResultWriter.

Variable World : Type.

Record EngineResultWriter : Type := mkEngineResultWriter {
  buf : bytes;
  flushCallback : option (bytes → World → World) }.

Definition NewEngineResultWriter : EngineResultWriter :=
  {| buf := ""; flushCallback := None |}.

Definition NewEngineResultWriterFromBuffer (buf : bytes) : EngineResultWriter :=
  {| buf := buf; flushCallback := None |}.

Definition SetFlushCallback (e : EngineResultWriter)
    (flushCb : option (bytes → World → World)) : EngineResultWriter :=
  {| buf := buf e; flushCallback := flushCb |}.

(** [bytes.Buffer.Write] appends, returns the length of [p] and no error. *)
Definition Write (e : EngineResultWriter) (p : bytes)
    : EngineResultWriter * Z * option resolve.error :=
  ({| buf := buf e +:+ p; flushCallback := flushCallback e |}, len p, None).

Definition Len (e : EngineResultWriter) : Z := len (buf e).

Definition Bytes (e : EngineResultWriter) : bytes := buf e.

Definition String (e : EngineResultWriter) : string := buf e.

Definition Reset (e : EngineResultWriter) : EngineResultWriter :=
  {| buf := ""; flushCallback := flushCallback e |}.

Definition Flush (e : EngineResultWriter) (world : World) : EngineResultWriter * World :=
  let world :=
    match flushCallback e with
    | Some flushCb => flushCb (Bytes e) world
    | None => world
    end in
  (Reset e, world).

End EngineResultWriter.

End graphql.

(** ** Concrete inputs

    Stand-ins for the collaborators whose source is outside the repository
    (jsonparser, the data sources, the parts of package ast not covered
    above), and the plans and documents on which the properties below are
    exercised. *)

Module Examples.

Import Bytes resolve.

(** jsonparser on the documents of an example, given as the table of the
    lookups that succeed; any other lookup fails as a missing key path
    does. *)
Definition tableGet
    (tbl : list (bytes * list string * (bytes * jsonparser.ValueType)))
    (data : option bytes) (path : list string)
    : option bytes * jsonparser.ValueType * option string :=
  match data with
  | None => (None, jsonparser.NotExist, Some "Key path not found")
  | Some d =>
      match list_find (λ e, bool_decide (e.1 = (d, path))) tbl with
      | Some (_, (_, (v, t))) => (Some v, t, None)
      | None => (None, jsonparser.NotExist, Some "Key path not found")
      end
  end.

Definition tableArrayEach (tbl : list (bytes * list string * list bytes))
    (data : option bytes) (path : list string) : list (option bytes) :=
  match data with
  | None => []
  | Some d =>
      match list_find (λ e, bool_decide (e.1 = (d, path))) tbl with
      | Some (_, (_, vs)) => Some <$> vs
      | None => []
      end
  end.

Definition noHash : bytes → Z := λ _, 0%Z.
Definition firstWins : list error → nat := λ _, 0%nat.
Definition ctx0 : Context := {| Variables := None |}.

(** *** A non-null scalar that is null upstream *)

(** [{"name":null}] *)
Definition nameDoc : bytes := "{" +:+ quoted "name" +:+ ":null}".

Definition nameGet := tableGet [ (nameDoc, ["name"], ("null", jsonparser.Null)) ].




(** *** A fetch whose data source reports an error next to its data *)

(** [{"a":1}] *)
Definition aDoc : bytes := "{" +:+ quoted "a" +:+ ":1}".

(** [{"message":"boom"}] *)
Definition boomError : bytes := "{" +:+ quoted "message" +:+ ":" +:+ quoted "boom" +:+ "}".

Definition boomSource : DataSource := {|
  Load := λ input buf,
    ({| Data := Data buf +:+ aDoc; Errors := Errors buf +:+ boomError |}, None);
  UniqueIdentifier := "boom" |}.

Definition boomFetch : SingleFetch := {|
  BufferId := 0;
  FetchDataSource := boomSource;
  DisallowSingleFlight := false;
  FetchInputTemplate :=
    {| Segments := [ {| SegmentType := StaticSegmentType; SegmentData := "query";
                        VariableSource := 0; VariableSourcePath := [] |} ] |} |}.

Definition aGet := tableGet [ (aDoc, ["a"], ("1", jsonparser.Number)) ].

Definition boomPlan : Node :=
  NodeObject false []
    [mkFieldSet None 0 true [mkField "a" (NodeInteger ["a"] false)]]
    (Some (FetchSingle boomFetch)).

(** *** A data source that fails after it wrote data *)

Definition failingSource : DataSource := {|
  Load := λ input buf,
    ({| Data := Data buf +:+ aDoc; Errors := Errors buf |}, Some "upstream failed");
  UniqueIdentifier := "failing" |}.

Definition failingFetch : SingleFetch := {|
  BufferId := 0;
  FetchDataSource := failingSource;
  DisallowSingleFlight := false;
  FetchInputTemplate := {| Segments := [] |} |}.

(** *** Arrays *)




(** Two pets, a cat and a dog:
    [[{"__typename":"Cat"},{"__typename":"Dog","x":1}]]. *)
Definition catDoc : bytes := "{" +:+ quoted "__typename" +:+ ":" +:+ quoted "Cat" +:+ "}".
Definition dogDoc : bytes :=
  "{" +:+ quoted "__typename" +:+ ":" +:+ quoted "Dog" +:+ "," +:+ quoted "x" +:+ ":1}".
Definition petsDoc : bytes := "[" +:+ catDoc +:+ "," +:+ dogDoc +:+ "]".

Definition petsGet :=
  tableGet [ (catDoc, ["__typename"], ("Cat", jsonparser.String));
             (dogDoc, ["__typename"], ("Dog", jsonparser.String));
             (dogDoc, ["x"], ("1", jsonparser.Number)) ].
Definition petsEach := tableArrayEach [ (petsDoc, [], [catDoc; dogDoc]) ].
Definition catsEach := tableArrayEach [ (petsDoc, [], [catDoc]) ].

(** An object whose only field set is gated on [Dog]. *)
Definition dogObject (Nullable : bool) : Node :=
  NodeObject Nullable [] [mkFieldSet (Some "Dog") 0 false
                            [mkField "x" (NodeInteger ["x"] false)]] None.

(** An array of such objects. *)
Definition dogsPlan (Nullable ResolveAsynchronous : bool) : Node :=
  NodeArray [] false ResolveAsynchronous (dogObject Nullable).


(** *** Documents *)

(** The arrays of a document the functions of [ast] do not index: the names
    of the fields and of the named types. *)
Record names : Type := mkNames { FieldNames : list bytes; TypeNames : list bytes }.

Definition FieldNameBytes (n : names) (ref : Z) : option bytes :=
  ast.index (FieldNames n) ref.

Definition TypeNameBytes (n : names) (ref : Z) : option bytes :=
  ast.index (TypeNames n) ref.

Definition withNames (d : ast.Document names) (n : names) : ast.Document names :=
  {| ast.Selections := ast.Selections names d;
     ast.SelectionSets := ast.SelectionSets names d;
     ast.InlineFragments := ast.InlineFragments names d;
     ast.rest := n |}.

(** Copy of a field without arguments, directives or selections. *)
Definition CopyField (d : ast.Document names) (ref : Z)
    : option (ast.Document names * Z) :=
  name ← FieldNameBytes (ast.rest names d) ref;
  Some (withNames d {| FieldNames := FieldNames (ast.rest names d) ++ [name];
                       TypeNames := TypeNames (ast.rest names d) |},
        Z.of_nat (length (FieldNames (ast.rest names d)))).

Definition AddNamedType (n : names) (name : bytes) : names * Z :=
  ({| FieldNames := FieldNames n; TypeNames := TypeNames n ++ [name] |},
   Z.of_nat (length (TypeNames n))).

(** The documents below hold no fragment spreads and no directives. *)
Definition CopyFragmentSpread (d : ast.Document names) (ref : Z)
    : option (ast.Document names * Z) := None.
Definition CopyDirectiveList (d : ast.Document names) (l : ast.DirectiveList)
    : option (ast.Document names * ast.DirectiveList) := Some (d, l).

Definition fieldSelection (ref : Z) : ast.Selection :=
  {| ast.Kind := ast.SelectionKindField; ast.Ref := ref |}.
Definition inlineFragmentSelection (ref : Z) : ast.Selection :=
  {| ast.Kind := ast.SelectionKindInlineFragment; ast.Ref := ref |}.

(** [{ a b c d }]: one selection set with four fields. *)
Definition fourFields : ast.Document names := {|
  ast.Selections := fieldSelection <$> [0; 1; 2; 3]%Z;
  ast.SelectionSets := [ast.mkSelectionSet [0; 1; 2; 3]%Z];
  ast.InlineFragments := [];
  ast.rest := {| FieldNames := ["a"; "b"; "c"; "d"]; TypeNames := [] |} |}.

(** [{ a b c }]: one selection set with three fields. *)
Definition threeFields : ast.Document names := {|
  ast.Selections := fieldSelection <$> [0; 1; 2]%Z;
  ast.SelectionSets := [ast.mkSelectionSet [0; 1; 2]%Z];
  ast.InlineFragments := [];
  ast.rest := {| FieldNames := ["a"; "b"; "c"]; TypeNames := [] |} |}.

Definition ExpandInterfaceSelectionSet :=
  ast.ExpandInterfaceSelectionSet names CopyField CopyFragmentSpread
    CopyDirectiveList FieldNameBytes AddNamedType 2.

(** The names of the fields a selection set selects, in order. *)
Definition fieldNamesOf (d : ast.Document names) (set : Z) : option (list bytes) :=
  refs ← ast.selectionRefs names d set;
  mapM (λ r, s ← ast.index (ast.Selections names d) r;
             FieldNameBytes (ast.rest names d) (ast.Ref s)) refs.

Definition inlineFragmentOn (type set : Z) : ast.InlineFragment := {|
  ast.InlineFragmentTypeCondition := ast.mkTypeCondition type;
  ast.HasDirectives := false;
  ast.Directives := ast.mkDirectiveList [];
  ast.InlineFragmentSelectionSet := set;
  ast.HasSelections := true |}.

(** [dog { ... on Dog { barkVolume } ... on Dog {} }]: set 0 is the selection
    set of [dog], sets 1 and 2 those of the two fragments. *)
Definition dogWithEmptyFragment : ast.Document names := {|
  ast.Selections := [inlineFragmentSelection 0; inlineFragmentSelection 1; fieldSelection 0];
  ast.SelectionSets := [ast.mkSelectionSet [0; 1]%Z; ast.mkSelectionSet [2%Z];
                        ast.mkSelectionSet []];
  ast.InlineFragments := [inlineFragmentOn 0 1; inlineFragmentOn 1 2];
  ast.rest := {| FieldNames := ["barkVolume"]; TypeNames := ["Dog"; "Dog"] |} |}.

(** [dog { ... on Dog { barkVolume } ... on Cat { meowVolume } }]. *)
Definition dogWithCatFragment : ast.Document names := {|
  ast.Selections := [inlineFragmentSelection 0; inlineFragmentSelection 1;
                     fieldSelection 0; fieldSelection 1];
  ast.SelectionSets := [ast.mkSelectionSet [0; 1]%Z; ast.mkSelectionSet [2%Z];
                        ast.mkSelectionSet [3%Z]];
  ast.InlineFragments := [inlineFragmentOn 0 1; inlineFragmentOn 1 2];
  ast.rest := {| FieldNames := ["barkVolume"; "meowVolume"]; TypeNames := ["Dog"; "Cat"] |} |}.

(** The schema of the tests: object types [Dog] and [Cat]; a fragment on an
    object type is allowed on an object type when the two are the same. *)
Definition dogNode : ast.Node := {| ast.NodeKind := 1; ast.NodeRef := 0 |}.
Definition catNode : ast.Node := {| ast.NodeKind := 1; ast.NodeRef := 1 |}.

Definition FirstNonExtensionNodeByNameBytes (name : option bytes) : option ast.Node :=
  if bool_decide (name = Some "Dog") then Some dogNode
  else if bool_decide (name = Some "Cat") then Some catNode
  else None.

Definition NodeFragmentIsAllowedOnNode (fragmentNode onNode : ast.Node) : bool :=
  bool_decide (ast.NodeRef fragmentNode = ast.NodeRef onNode).

Definition EnterSelectionSet :=
  astnormalization.EnterSelectionSet TypeNameBytes FirstNonExtensionNodeByNameBytes
    NodeFragmentIsAllowedOnNode dogNode.

(** *** Transformations *)

Import asttransform.

(** A sort that meets the contract of [sort.Slice] and is not stable. *)
Definition reversingSort (lt : action → action → bool) (l : list action) : list action :=
  @merge_sort action (λ a b, lt b a = false)
    (λ a b, decide_rel (=) (lt b a) false) (reverse l).

(** Two selection sets, [{ 10 }] and [{ 20 }] (the selections themselves
    play no role). *)
Definition twoSets : ast.Document names := {|
  ast.Selections := [];
  ast.SelectionSets := [ast.mkSelectionSet [10%Z]; ast.mkSelectionSet [20%Z]];
  ast.InlineFragments := [];
  ast.rest := {| FieldNames := []; TypeNames := [] |} |}.

Definition namesTransformable : Transformable (option (ast.Document names)) :=
  DocumentTransformable CopyField CopyFragmentSpread CopyDirectiveList
    FieldNameBytes AddNamedType (λ _ _, None) (λ _ _ _ _, None) (λ _ _ _ _ _, None) 2.

(** Append set 1 to set 0, then empty set 0, registered in this order with
    the same precedence. *)
Definition appendThenEmpty : Transformer :=
  Transformer.EmptySelectionSet
    (Transformer.AppendSelectionSet {| actions := [] |}
       {| Depth := 1; Order := 0 |} 0 1)
    {| Depth := 1; Order := 0 |} 0.

(** Append set 1 to set 0 at depth 1, empty set 0 at depth 2. *)
Definition emptyDeeperThanAppend : Transformer :=
  Transformer.EmptySelectionSet
    (Transformer.AppendSelectionSet {| actions := [] |}
       {| Depth := 1; Order := 0 |} 0 1)
    {| Depth := 2; Order := 0 |} 0.

(** *** [sort.Slice] as the Go library had it *)








(** *** Two calls of [resolveSingleFetch] with the same key *)

Definition twoCalls : singleflight.state :=
  singleflight.initial
    [singleflight.start failingFetch "" NewBufPair;
     singleflight.start failingFetch "" NewBufPair].

(** Call 0 enters and becomes the leader, call 1 enters while the key is in
    the table, call 0 loads, copies and signals, call 1 wakes up, copies and
    returns, call 0 removes the key and returns, the record is freed. *)
Definition overlapping : list singleflight.actor :=
  [singleflight.Call 0; singleflight.Call 1;
   singleflight.Call 0; singleflight.Call 0; singleflight.Call 0;
   singleflight.Call 1; singleflight.Call 1; singleflight.Call 1;
   singleflight.Call 0; singleflight.Call 0; singleflight.Free 0].

(** *** Fields without aliases *)

Definition FieldAliasIsDefined (n : names) (ref : Z) : option bool := Some false.
Definition FieldAliasBytes (n : names) (ref : Z) : option bytes := None.

(** *** A walk *)

(** Stand-ins for the node kinds of package ast. *)
Definition kindSelectionSet : Z := 1.
Definition kindField : Z := 2.
Definition kindInlineFragment : Z := 3.
Definition kindInterface : Z := 4.
Definition kindUnion : Z := 5.
Definition kindObject : Z := 6.

Definition implementations (interface : Z) : list string := ["Dog"; "Cat"].

(** The selection set 0 of a field whose type is the interface 7, entered
    at depth 2. *)
Definition petFieldWalker : astvisitor.Walker := {|
  astvisitor.Ancestors :=
    [ {| ast.NodeKind := kindSelectionSet; ast.NodeRef := 9 |};
      {| ast.NodeKind := kindField; ast.NodeRef := 0 |} ];
  astvisitor.EnclosingTypeDefinition := {| ast.NodeKind := kindInterface; ast.NodeRef := 7 |};
  astvisitor.Depth := 2 |}.

(** The selection set of the inline fragment 1, which is held by the
    selection set 0; the enclosing type is the union 8. *)
Definition unionFragmentWalker : astvisitor.Walker := {|
  astvisitor.Ancestors :=
    [ {| ast.NodeKind := kindSelectionSet; ast.NodeRef := 0 |};
      {| ast.NodeKind := kindInlineFragment; ast.NodeRef := 1 |} ];
  astvisitor.EnclosingTypeDefinition := {| ast.NodeKind := kindUnion; ast.NodeRef := 8 |};
  astvisitor.Depth := 3 |}.

(** *** Calls that have not finished *)

(** Call 0 leads, call 1 waits for its load. *)
Definition bothEntered : list singleflight.actor :=
  [singleflight.Call 0; singleflight.Call 1].

End Examples.

(** ** Vocabulary of the specification *)

Module Spec.

Import Bytes resolve.


(** A comma-separated list, without outer brackets. *)
Fixpoint joinErrors (objs : list bytes) : bytes :=
  match objs with
  | [] => ""
  | o :: objs' =>
      match objs' with
      | [] => o
      | _ :: _ => o +:+ comma +:+ joinErrors objs'
      end
  end.

(** An errors buffer is in order when it is the comma-separated list of
    some error objects; [P] says what a complete error object is. *)
Definition errorList (P : bytes → Prop) (errors : bytes) : Prop :=
  ∃ objs, Forall (λ o, P o ∧ o ≠ "") objs ∧ errors = joinErrors objs.







(** The field set is gated on a type name that the source does not carry. *)
Definition skipped
    (jsonGet : option bytes → list string
               → option bytes * jsonparser.ValueType * option string)
    (set : option (gmap Z BufPair)) (data : option bytes)
    (fs : FieldSet) : Prop :=
  match fs with
  | mkFieldSet OnTypeName BufferID HasBuffer _ =>
      typeNameMismatch jsonGet OnTypeName (fieldSetSource set data BufferID HasBuffer)
        = true
  end.

(** The loop state after a field set was skipped. *)
Definition markSkipped (st : objectState) : objectState :=
  {| o_objectBuf := o_objectBuf st; o_fieldBuf := o_fieldBuf st;
     o_first := o_first st; o_typeNameSkip := true; o_err := o_err st |}.

(** *** Selections of a selection set *)

(** The selection [j] is of the given kind and refers to [ref]. *)
Definition selects {Rest : Type} (d : ast.Document Rest) (kind ref : Z) (j : Z) : Prop :=
  ∃ s, ast.index (ast.Selections Rest d) j = Some s ∧ ast.Kind s = kind ∧ ast.Ref s = ref.

(** Position [i] of [refs] is the first that holds such a selection. *)
Definition firstAt {Rest : Type} (d : ast.Document Rest) (kind ref : Z)
    (refs : list Z) (i : nat) : Prop :=
  (∃ j, refs !! i = Some j ∧ selects d kind ref j) ∧
  ∀ i' j', (i' < i)%nat → refs !! i' = Some j' → ¬ selects d kind ref j'.

(** Every reference of the slice is a selection of the document. *)
Definition selectionsExist {Rest : Type} (d : ast.Document Rest) (refs : list Z) : Prop :=
  Forall (λ j, is_Some (ast.index (ast.Selections Rest d) j)) refs.

(** The selection [j] is a field whose name or defined alias is
    [nameOrAlias]. *)
Definition namedBy {Rest : Type} (FieldNameBytes : Rest → Z → option bytes)
    (FieldAliasIsDefined : Rest → Z → option bool)
    (FieldAliasBytes : Rest → Z → option bytes)
    (d : ast.Document Rest) (nameOrAlias : bytes) (j : Z) : Prop :=
  ∃ s, ast.index (ast.Selections Rest d) j = Some s ∧
       ast.Kind s = ast.SelectionKindField ∧
       (FieldNameBytes (ast.rest Rest d) (ast.Ref s) = Some nameOrAlias ∨
        (FieldAliasIsDefined (ast.rest Rest d) (ast.Ref s) = Some true ∧
         FieldAliasBytes (ast.rest Rest d) (ast.Ref s) = Some nameOrAlias)).

(** The selection [j] exists and, when it is a field, the field has a name
    and, when its alias is defined, an alias. *)
Definition fieldReadable {Rest : Type} (FieldNameBytes : Rest → Z → option bytes)
    (FieldAliasIsDefined : Rest → Z → option bool)
    (FieldAliasBytes : Rest → Z → option bytes)
    (d : ast.Document Rest) (j : Z) : Prop :=
  ∃ s, ast.index (ast.Selections Rest d) j = Some s ∧
       (ast.Kind s = ast.SelectionKindField →
        is_Some (FieldNameBytes (ast.rest Rest d) (ast.Ref s)) ∧
        ∃ defined, FieldAliasIsDefined (ast.rest Rest d) (ast.Ref s) = Some defined ∧
                   (defined = true →
                    is_Some (FieldAliasBytes (ast.rest Rest d) (ast.Ref s)))).

(** The name that stands for the variable at [index] in a fetch input. *)
Definition variableName (Itoa : Z → string) (index : Z) (quoteValue : bool) : string :=
  if quoteValue
  then quotes +:+ (variablePrefixSuffix +:+ Itoa index +:+ variablePrefixSuffix) +:+ quotes
  else variablePrefixSuffix +:+ Itoa index +:+ variablePrefixSuffix.

(** The errors of [b'] are the errors of [b] with more bytes behind. *)
Definition errorsGrow (b b' : BufPair) : Prop :=
  ∃ more, Errors b' = Errors b +:+ more.

(** Where a loop over an object or an array leaves the buffer it fills. *)
Definition objectFlowGrows (b : BufPair)
    (fl : flow objectState (BufPair * option error)) : Prop :=
  match fl with
  | Next st => errorsGrow b (o_objectBuf st)
  | Return r => errorsGrow b r.1
  end.

Definition arrayFlowGrows (b : BufPair)
    (fl : flow arrayState (BufPair * option error)) : Prop :=
  match fl with
  | Next st => errorsGrow b (a_arrayBuf st)
  | Return r => errorsGrow b r.1
  end.

(** The single fetches of the fetch of an object. *)
Definition fetchesOf (fetch : option Fetch) : list SingleFetch :=
  match fetch with
  | None => []
  | Some (FetchSingle f) => [f]
  | Some (FetchParallel Fetches) => Fetches
  end.

(** The data source leaves a list of error objects in the empty buffer
    pair it is given to fill. *)
Definition loadsErrorList (P : bytes → Prop) (ds : DataSource) : Prop :=
  ∀ input, errorList P (Errors (Load ds input NewBufPair).1).

(** The fetches of one object write to buffers of their own, and their data
    sources leave lists of error objects. *)
Definition fetchInOrder (P : bytes → Prop) (fetch : option Fetch) : Prop :=
  Forall (λ f, loadsErrorList P (FetchDataSource f)) (fetchesOf fetch) ∧
  NoDup (BufferId <$> fetchesOf fetch).

(** Every fetch of the plan is in order. *)
#[local] Unset Elimination Schemes.
Inductive planInOrder (P : bytes → Prop) : Node → Prop :=
| object_in_order Nullable Path FieldSets fetch :
    fetchInOrder P fetch →
    Forall (λ fs, Forall (λ f, planInOrder P (Field_Value f)) (FieldSet_Fields fs))
      FieldSets →
    planInOrder P (NodeObject Nullable Path FieldSets fetch)
| array_in_order Path Nullable ResolveAsynchronous Item :
    planInOrder P Item →
    planInOrder P (NodeArray Path Nullable ResolveAsynchronous Item)
| empty_object_in_order : planInOrder P NodeEmptyObject
| empty_array_in_order : planInOrder P NodeEmptyArray
| null_in_order : planInOrder P NodeNull
| string_in_order Path Nullable : planInOrder P (NodeString Path Nullable)
| boolean_in_order Path Nullable : planInOrder P (NodeBoolean Path Nullable)
| integer_in_order Path Nullable : planInOrder P (NodeInteger Path Nullable)
| float_in_order Path Nullable : planInOrder P (NodeFloat Path Nullable)
| nil_in_order : planInOrder P NodeNil.
#[local] Set Elimination Schemes.

(** A resolution step keeps the errors of the buffer it fills a list of
    error objects. *)
Definition keepsErrorList (P : bytes → Prop)
    (rec : Node → option bytes → BufPair → BufPair * option error) (node : Node) : Prop :=
  ∀ data buf, errorList P (Errors buf) → errorList P (Errors (rec node data buf).1).

(** The buffers of a loop over an object or an array hold lists of error
    objects. *)
Definition objectListed (P : bytes → Prop)
    (fl : flow objectState (BufPair * option error)) : Prop :=
  match fl with
  | Next st => errorList P (Errors (o_objectBuf st)) ∧ errorList P (Errors (o_fieldBuf st))
  | Return r => errorList P (Errors r.1)
  end.

Definition arrayListed (P : bytes → Prop)
    (fl : flow arrayState (BufPair * option error)) : Prop :=
  match fl with
  | Next st => errorList P (Errors (a_arrayBuf st)) ∧ errorList P (Errors (a_itemBuf st))
  | Return r => errorList P (Errors r.1)
  end.

(** The path, the nullability and the JSON type that a scalar node
    expects. *)
Definition scalarOf (node : Node) : option (list string * bool * jsonparser.ValueType) :=
  match node with
  | NodeString Path Nullable => Some (Path, Nullable, jsonparser.String)
  | NodeBoolean Path Nullable => Some (Path, Nullable, jsonparser.Boolean)
  | NodeInteger Path Nullable => Some (Path, Nullable, jsonparser.Number)
  | NodeFloat Path Nullable => Some (Path, Nullable, jsonparser.Number)
  | _ => None
  end.

(** *** Walks and visitors *)

(** The calls a walker makes on a document visitor: [EnterDocument], then
    [EnterSelectionSet] for every selection set it enters, with the walker
    as it stands at that moment, then [LeaveDocument]. *)
Definition walk {T : Type}
    (EnterDocument : asttransform.Transformer → asttransform.Transformer)
    (EnterSelectionSet :
       astvisitor.Walker → asttransform.Transformer → Z
       → option asttransform.Transformer)
    (LeaveDocument : asttransform.Transformer → T → asttransform.Transformer * T)
    (entered : list (astvisitor.Walker * Z))
    (transformer : asttransform.Transformer) (operation : T)
    : option (asttransform.Transformer * T) :=
  transformer ←
    foldl (λ t e, t ≫= λ t, EnterSelectionSet e.1 t e.2)
      (Some (EnterDocument transformer)) entered;
  Some (LeaveDocument transformer operation).

(** The node above the selection set that is entered. *)
Definition parentOf (w : astvisitor.Walker) : option ast.Node :=
  last (astvisitor.Ancestors w).

(** The selection set is the one of a field whose type is an interface. *)
Definition interfaceField (NodeKindField NodeKindInterfaceTypeDefinition : Z)
    (w : astvisitor.Walker) : bool :=
  (ast.NodeKind (astvisitor.EnclosingTypeDefinition w) =? NodeKindInterfaceTypeDefinition)%Z
  && match parentOf w with
     | Some parent => (ast.NodeKind parent =? NodeKindField)%Z
     | None => false
     end.

(** The action that stands for the expansion of the selection set [ref]
    entered with the walker [w]. *)
Definition selectionSetExpansion
    (ConcreteInterfaceImplementationTypeNames : Z → list string)
    (e : astvisitor.Walker * Z) : asttransform.action :=
  {| asttransform.precedence :=
       {| asttransform.Depth := astvisitor.Depth e.1; asttransform.Order := 0 |};
     asttransform.action_transformation :=
       asttransform.expandInterfaceSelectionSet e.2
         (ConcreteInterfaceImplementationTypeNames
            (ast.NodeRef (astvisitor.EnclosingTypeDefinition e.1))) |}.

(** The action [a] expands or promotes the inline fragment above the
    selection set entered with the walker [w]: it has the walker's depth and
    order 0, names the fragment and the selection set that holds it, and is
    an expansion when the enclosing type is an interface and a promotion when
    it is a union. *)
Definition fragmentExpansionAt
    (NodeKindInlineFragment NodeKindInterfaceTypeDefinition NodeKindUnionTypeDefinition : Z)
    (ConcreteInterfaceImplementationTypeNames : Z → list string)
    (w : astvisitor.Walker) (a : asttransform.action) : Prop :=
  asttransform.precedence a
    = {| asttransform.Depth := astvisitor.Depth w; asttransform.Order := 0 |} ∧
  ∃ fragment parentSet,
    parentOf w = Some fragment ∧
    ast.NodeKind fragment = NodeKindInlineFragment ∧
    ast.index (astvisitor.Ancestors w)
      (Z.of_nat (length (astvisitor.Ancestors w)) - 2) = Some parentSet ∧
    ((ast.NodeKind (astvisitor.EnclosingTypeDefinition w) = NodeKindInterfaceTypeDefinition ∧
      asttransform.action_transformation a
        = asttransform.expandInterfaceInlineFragment (ast.NodeRef fragment)
            (ast.NodeRef parentSet)
            (ConcreteInterfaceImplementationTypeNames
               (ast.NodeRef (astvisitor.EnclosingTypeDefinition w)))) ∨
     (ast.NodeKind (astvisitor.EnclosingTypeDefinition w) = NodeKindUnionTypeDefinition ∧
      ast.NodeKind (astvisitor.EnclosingTypeDefinition w) ≠ NodeKindInterfaceTypeDefinition ∧
      asttransform.action_transformation a
        = asttransform.promoteUnionInlineFragments (ast.NodeRef fragment)
            (ast.NodeRef parentSet))).

(** *** Clients of the result writer *)

Inductive writerCall : Type :=
| DoWrite (p : bytes)
| DoFlush.

#[global] Instance writerCall_eq_dec : EqDecision writerCall.
Proof. solve_decision. Defined.

(** The calls made one after the other on a writer, the callback acting on
    [world]. *)
Fixpoint runWriter {World : Type} (calls : list writerCall)
    (e : graphql.EngineResultWriter World) (world : World)
    : graphql.EngineResultWriter World * World :=
  match calls with
  | [] => (e, world)
  | DoWrite p :: calls => runWriter calls (graphql.Write World e p).1.1 world
  | DoFlush :: calls =>
      let '(e, world) := graphql.Flush World e world in
      runWriter calls e world
  end.

(** The bytes between one flush and the next, and those written after
    the last flush; [pending] are the bytes not yet flushed at the start. *)
Fixpoint flushes (calls : list writerCall) (pending : bytes) : list bytes * bytes :=
  match calls with
  | [] => ([], pending)
  | DoWrite p :: calls => flushes calls (pending +:+ p)
  | DoFlush :: calls =>
      let '(chunks, rest) := flushes calls "" in (pending :: chunks, rest)
  end.

(** All the bytes written, in the order of the calls. *)
Fixpoint written (calls : list writerCall) : bytes :=
  match calls with
  | [] => ""
  | DoWrite p :: calls => p +:+ written calls
  | DoFlush :: calls => written calls
  end.

(** The concatenation of some pieces of bytes. *)
Definition joinBytes (chunks : list bytes) : bytes :=
  foldr String.app "" chunks.

End Spec.

(** * Properties *)

(** ** Facts about byte strings *)

Section BytesFacts.

Import Bytes.

Lemma app_nil_l (s : bytes) : "" +:+ s = s.
Proof. reflexivity. Qed.

Lemma app_nil_r (s : bytes) : s +:+ "" = s.
Proof.
  induction s as [|c s IH]; [reflexivity|].
  change (String c (s +:+ "") = String c s). by rewrite IH.
Qed.

Lemma app_cons (c : Ascii.ascii) (s t : bytes) : String c s +:+ t = String c (s +:+ t).
Proof. reflexivity. Qed.

Lemma app_assoc (s t u : bytes) : (s +:+ t) +:+ u = s +:+ (t +:+ u).
Proof.
  induction s as [|c s IH]; [reflexivity|].
  rewrite !app_cons. by rewrite IH.
Qed.

Lemma length_app (s t : bytes) :
  String.length (s +:+ t) = (String.length s + String.length t)%nat.
Proof.
  induction s as [|c s IH]; [reflexivity|].
  rewrite app_cons. cbn. by rewrite IH.
Qed.

Lemma length_zero (s : bytes) : String.length s = 0%nat ↔ s = "".
Proof. destruct s; cbn; split; intros; done. Qed.

Lemma app_eq_nil (s t : bytes) : s +:+ t = "" → s = "" ∧ t = "".
Proof. destruct s; [done|]. rewrite app_cons. discriminate. Qed.

End BytesFacts.

(** ** Buffer pairs *)

Section BufPairFacts.

Import Bytes resolve Spec.

Lemma len_zero (s : bytes) : (len s =? 0)%Z = true ↔ s = "".
Proof.
  unfold len. rewrite Z.eqb_eq. destruct s; cbn; split; intros; (done || lia).
Qed.

Lemma HasErrors_false (b : BufPair) : HasErrors b = false ↔ Errors b = "".
Proof. unfold HasErrors. rewrite negb_false_iff. apply len_zero. Qed.

Lemma HasErrors_true (b : BufPair) : HasErrors b = true ↔ Errors b ≠ "".
Proof.
  rewrite <- HasErrors_false. destruct (HasErrors b); split; intros; done.
Qed.

Lemma HasData_false (b : BufPair) : HasData b = false ↔ Data b = "".
Proof. unfold HasData. rewrite negb_false_iff. apply len_zero. Qed.

Lemma HasData_true (b : BufPair) : HasData b = true ↔ Data b ≠ "".
Proof.
  rewrite <- HasData_false. destruct (HasData b); split; intros; done.
Qed.

Lemma BufPair_eta (b : BufPair) : {| Data := Data b; Errors := Errors b |} = b.
Proof. by destruct b. Qed.



(** What [MergeBufPairErrors] does to the two buffers. *)
Lemma MergeBufPairErrors_spec (from to : BufPair) :
  MergeBufPairErrors from to =
    {| m_from := {| Data := Data from; Errors := "" |};
       m_to := {| Data := Data to;
                  Errors := Errors to
                              +:+ (if HasErrors from && HasErrors to then comma else "")
                              +:+ Errors from |};
       m_written := (if HasErrors from
                     then (if HasErrors to then len comma else 0) + len (Errors from)
                     else 0)%Z;
       m_err := None |}.
Proof.
  unfold MergeBufPairErrors.
  destruct (HasErrors from) eqn:Hf; cbn [negb andb].
  - destruct (HasErrors to); cbn [Data Errors]; rewrite ?app_assoc, ?app_nil_l; done.
  - apply HasErrors_false in Hf. rewrite Hf, app_nil_l, app_nil_r.
    destruct from, to; cbn in *; by subst.
Qed.

Lemma joinErrors_nil_iff (objs : list bytes) :
  Forall (λ o, o ≠ "") objs → joinErrors objs = "" ↔ objs = [].
Proof.
  intros Hne. split; [|by intros ->].
  destruct objs as [|o [|o' objs]]; [done| |]; cbn; inversion_clear Hne.
  - done.
  - intros [? _]%app_eq_nil. done.
Qed.

Lemma joinErrors_app (objs1 objs2 : list bytes) :
  joinErrors (objs1 ++ objs2) =
    joinErrors objs1
      +:+ (match objs1, objs2 with _ :: _, _ :: _ => comma | _, _ => "" end)
      +:+ joinErrors objs2.
Proof.
  induction objs1 as [|o objs1 IH]; [by destruct objs2|].
  destruct objs1 as [|o1 objs1].
  - destruct objs2; cbn [app joinErrors]; rewrite ?app_nil_r, ?app_nil_l; done.
  - change (joinErrors ((o :: o1 :: objs1) ++ objs2))
      with (o +:+ comma +:+ joinErrors ((o1 :: objs1) ++ objs2)).
    rewrite IH. change (joinErrors (o :: o1 :: objs1))
      with (o +:+ comma +:+ joinErrors (o1 :: objs1)).
    by rewrite !app_assoc.
Qed.

Lemma errorList_nonempty (P : bytes → Prop) (objs : list bytes) :
  Forall (λ o, P o ∧ o ≠ "") objs → Forall (λ o, o ≠ "") objs.
Proof. intros H. eapply Forall_impl; [exact H|]. cbn. tauto. Qed.

Lemma errorList_empty (P : bytes → Prop) : errorList P "".
Proof. by exists []. Qed.

Lemma errorList_app (P : bytes → Prop) (e1 e2 : bytes) :
  errorList P e1 → errorList P e2 →
  errorList P (e1 +:+ (if bool_decide (e2 ≠ "") && bool_decide (e1 ≠ "")
                       then comma else "") +:+ e2).
Proof.
  intros (o1 & H1 & ->) (o2 & H2 & ->).
  exists (o1 ++ o2). split; [by apply Forall_app|].
  rewrite joinErrors_app.
  pose proof (joinErrors_nil_iff o1 (errorList_nonempty _ _ H1)) as N1.
  pose proof (joinErrors_nil_iff o2 (errorList_nonempty _ _ H2)) as N2.
  destruct o1 as [|a o1], o2 as [|c o2].
  - done.
  - rewrite (bool_decide_eq_false_2 (joinErrors [] ≠ "")) by (intros ?; done).
    by rewrite andb_false_r.
  - by rewrite (bool_decide_eq_false_2 (joinErrors [] ≠ "")) by (intros ?; done).
  - rewrite !bool_decide_eq_true_2; [done| |].
    + intros E. apply N1 in E. done.
    + intros E. apply N2 in E. done.
Qed.



End BufPairFacts.

(** ** Merging buffer pairs *)

Section MergeFacts.

Import Bytes resolve Spec.

Lemma writeSafe_None (b : BufPair) (x : bytes) :
  writeSafe None b x = (writeData b x, None).
Proof. reflexivity. Qed.

Lemma MergeBufPairData_err (from to : BufPair) (p : bool) :
  m_err (MergeBufPairData from to p) = None.
Proof. unfold MergeBufPairData. by destruct (HasData from), p. Qed.

Lemma MergeBufPairData_from (from to : BufPair) (p : bool) :
  m_from (MergeBufPairData from to p) = {| Data := ""; Errors := Errors from |}.
Proof.
  unfold MergeBufPairData. destruct (HasData from) eqn:E; cbn [negb].
  - by destruct p.
  - apply HasData_false in E. destruct from; cbn in *; by subst.
Qed.

Lemma MergeBufPairData_to (from to : BufPair) (p : bool) :
  m_to (MergeBufPairData from to p) =
    {| Data := Data to +:+ (if HasData from && p then comma else "") +:+ Data from;
       Errors := Errors to |}.
Proof.
  unfold MergeBufPairData. destruct (HasData from) eqn:E; cbn [negb andb].
  - destruct p; cbn; unfold writeData; cbn; by rewrite ?app_assoc.
  - apply HasData_false in E. rewrite E. cbn. rewrite !app_nil_r. by destruct to.
Qed.

Lemma MergeBufPairData_written (from to : BufPair) (p : bool) :
  (m_written (MergeBufPairData from to p) =? 0)%Z = negb (HasData from).
Proof.
  unfold MergeBufPairData. destruct (HasData from) eqn:E; cbn [negb]; [|done].
  apply HasData_true in E.
  assert (0 < len (Data from))%Z.
  { unfold len. destruct (Data from); [done|]. cbn. lia. }
  destruct p; cbn [m_written]; apply Z.eqb_neq; unfold len in *; cbn; lia.
Qed.

(** [MergeBufPairs] never fails, drains the source and appends to the
    destination. *)
Lemma MergeBufPairs_spec (from to : BufPair) (p : bool) :
  ∃ dataWritten errorsWritten,
    MergeBufPairs from to p =
      (NewBufPair,
       {| Data := Data to +:+ (if HasData from && p then comma else "") +:+ Data from;
          Errors := Errors to
                      +:+ (if HasErrors from && HasErrors to then comma else "")
                      +:+ Errors from |},
       dataWritten, errorsWritten, None)
    ∧ (dataWritten =? 0)%Z = negb (HasData from).
Proof.
  unfold MergeBufPairs. rewrite MergeBufPairData_err, MergeBufPairErrors_spec.
  cbn [m_from m_to m_written m_err].
  rewrite MergeBufPairData_from, MergeBufPairData_to. cbn [Data Errors].
  eexists _, _. split; [|apply MergeBufPairData_written].
  unfold HasErrors at 1 3. cbn [Errors]. unfold HasErrors. cbn [Errors]. reflexivity.
Qed.

End MergeFacts.

(** ** The loops of the object resolver *)

Section LoopFacts.

Import Bytes resolve Spec.

Variable jsonGet :
  option bytes → list string → option bytes * jsonparser.ValueType * option string.
Variable rec : Node → option bytes → BufPair → BufPair * option error.







End LoopFacts.

(** ** The fetch layer *)

Section FetchFacts.

Import Bytes resolve Spec.

Variable jsonGet :
  option bytes → list string → option bytes * jsonparser.ValueType * option string.
Variable hash64 : bytes → Z.
Variable EnableSingleFlightLoader : bool.









End FetchFacts.

(** ** Nullable objects and arrays *)

Section ObjectFacts.

Import Bytes resolve Spec.

Variable jsonGet :
  option bytes → list string → option bytes * jsonparser.ValueType * option string.
Variable hash64 : bytes → Z.
Variable EnableSingleFlightLoader : bool.
Variable rec : Node → option bytes → BufPair → BufPair * option error.

Local Abbreviation resolveObject :=
  (resolve.resolveObject jsonGet hash64 EnableSingleFlightLoader rec).



End ObjectFacts.

Section ArrayFacts.

Import Bytes resolve Spec.

Variable jsonArrayEach : option bytes → list string → list (option bytes).
Variable raceWinner : list error → nat.
Variable rec : Node → option bytes → BufPair → BufPair * option error.



(** The serial loop never hands the typename sentinel on. *)
Lemma resolveItems_not_skipped (Nullable : bool) (Item : Node)
    (items : list (option bytes)) (st : arrayState) :
  a_err st = None →
  match resolveItems rec Nullable Item items st with
  | Next st' => a_err st' = None
  | Return (_, e) => e ≠ Some errTypeNameSkipped
  end.
Proof.
  revert st. induction items as [|x items IH]; intros st Herr; [done|].
  cbn [resolveItems]. unfold resolveItem.
  destruct (rec Item x (a_itemBuf st)) as [ib [e|]].
  - destruct (errorsIs e errNonNullableFieldValueIsNull && Nullable); [done|].
    unfold errorsIs. destruct (decide (e = errTypeNameSkipped)) as [->|Hne].
    + rewrite bool_decide_eq_true_2 by done. by apply IH.
    + rewrite bool_decide_eq_false_2 by done. congruence.
  - destruct (MergeBufPairs_spec ib (a_arrayBuf st) (a_hasPreviousItem st))
      as (dw & ew & -> & _). by apply IH.
Qed.

Lemma receivedError_not_skipped (results : list (BufPair * option error)) :
  receivedError raceWinner results ≠ Some errTypeNameSkipped.
Proof.
  unfold receivedError. intros H.
  apply list_elem_of_lookup_2 in H. apply list_elem_of_omap in H as (r & _ & H).
  unfold sentError, errorsIs in H. destruct r.2 as [e|]; [|done].
  destruct (decide (e = errTypeNameSkipped)) as [->|Hne].
  - by rewrite bool_decide_eq_true_2 in H.
  - rewrite bool_decide_eq_false_2 in H by done. congruence.
Qed.

Local Abbreviation resolveArray := (resolve.resolveArray jsonArrayEach raceWinner rec).

Lemma mergeItem_err (st : arrayState) (b : BufPair) : a_err (mergeItem st b) = None.
Proof.
  unfold mergeItem.
  by destruct (MergeBufPairs_spec b (a_arrayBuf st) (a_hasPreviousItem st))
    as (dw & ew & -> & _).
Qed.

Lemma foldl_mergeItem_err (l : list BufPair) (st : arrayState) :
  a_err st = None → a_err (foldl mergeItem st l) = None.
Proof.
  revert st. induction l as [|b l IH]; intros st H; [done|].
  cbn. apply IH, mergeItem_err.
Qed.

(** An array never returns the typename sentinel. *)
Lemma resolveArray_not_skipped (Path : list string) (Nullable ResolveAsynchronous : bool)
    (Item : Node) (data : option bytes) (buf : BufPair) :
  (resolveArray Path Nullable ResolveAsynchronous Item data buf).2
    ≠ Some errTypeNameSkipped.
Proof.
  unfold resolve.resolveArray.
  destruct (Z.of_nat (length (jsonArrayEach data Path)) =? 0)%Z.
  { by destruct Nullable. }
  destruct ResolveAsynchronous.
  - unfold resolveArrayAsynchronous. rewrite writeSafe_None.
    set (results := map _ _).
    pose proof (receivedError_not_skipped results) as H.
    destruct (receivedError raceWinner results) as [e|].
    + destruct (errorsIs e errNonNullableFieldValueIsNull && Nullable); [done|].
      cbn. congruence.
    + rewrite foldl_mergeItem_err by done. done.
  - unfold resolveArraySynchronous. rewrite writeSafe_None.
    set (st := {| a_arrayBuf := _ |}).
    pose proof (resolveItems_not_skipped Nullable Item (jsonArrayEach data Path) st eq_refl)
      as H.
    destruct (resolveItems rec Nullable Item _ st) as [st'|[b e]]; [|done].
    by rewrite H.
Qed.



End ArrayFacts.

(** ** Serial and parallel arrays, skipped items *)

Section SerialParallel.

Import Bytes resolve Spec.

Variable raceWinner : list error → nat.
Variable rec : Node → option bytes → BufPair → BufPair * option error.

Lemma mergeItem_empty (st : arrayState) :
  a_itemBuf st = NewBufPair → a_err st = None → mergeItem st NewBufPair = st.
Proof.
  intros H1 H2. unfold mergeItem.
  destruct (MergeBufPairs_spec NewBufPair (a_arrayBuf st) (a_hasPreviousItem st))
    as (dw & ew & -> & Hdw).
  rewrite Hdw. cbn. rewrite !app_nil_r, andb_false_r.
  destruct st as [[d e] ib hp er]. cbn in *. by subst.
Qed.

Lemma mergeItem_itemBuf (st : arrayState) (b : BufPair) :
  a_itemBuf (mergeItem st b) = NewBufPair.
Proof.
  unfold mergeItem.
  by destruct (MergeBufPairs_spec b (a_arrayBuf st) (a_hasPreviousItem st))
    as (dw & ew & -> & _).
Qed.




End SerialParallel.

Section SkipFacts.

Import Bytes resolve Spec.

Variable jsonGet :
  option bytes → list string → option bytes * jsonparser.ValueType * option string.
Variable raceWinner : list error → nat.
Variable rec : Node → option bytes → BufPair → BufPair * option error.

Lemma resolveFieldSets_skipped (Nullable : bool) (set : option (gmap Z BufPair))
    (data : option bytes) (fieldSets : list FieldSet) (st : objectState) :
  Forall (skipped jsonGet set data) fieldSets →
  resolveFieldSets jsonGet rec Nullable set data fieldSets st
    = Next (match fieldSets with [] => st | _ :: _ => markSkipped st end).
Proof.
  revert st. induction fieldSets as [|fs fieldSets IH]; intros st H; [done|].
  inversion_clear H as [|?? Hfs Hrest]. cbn [resolveFieldSets].
  unfold resolveFieldSet. destruct fs as [t id hb fields]. cbn in Hfs. rewrite Hfs.
  rewrite IH by done. by destruct fieldSets.
Qed.

Lemma resolveItems_app (Nullable : bool) (Item : Node) (l1 l2 : list (option bytes))
    (st : arrayState) :
  resolveItems rec Nullable Item (l1 ++ l2) st =
    match resolveItems rec Nullable Item l1 st with
    | Next st' => resolveItems rec Nullable Item l2 st'
    | Return r => Return r
    end.
Proof.
  revert st. induction l1 as [|x l1 IH]; intros st; [done|].
  cbn [app resolveItems]. by destruct (resolveItem rec Nullable Item x st).
Qed.

(** The serial executor drops an item that signals the sentinel. *)
Lemma resolveArraySynchronous_drop (Nullable : bool) (Item : Node)
    (l1 l2 : list (option bytes)) (x : option bytes) (arrayBuf : BufPair) :
  (∀ b, rec Item x b = (b, Some errTypeNameSkipped)) →
  resolveArraySynchronous rec Nullable Item (l1 ++ x :: l2) arrayBuf
    = resolveArraySynchronous rec Nullable Item (l1 ++ l2) arrayBuf.
Proof.
  intros Hx. unfold resolveArraySynchronous. rewrite writeSafe_None.
  set (st := {| a_arrayBuf := _ |}). rewrite !resolveItems_app.
  pose proof (resolveItems_not_skipped rec Nullable Item l1 st eq_refl) as H.
  destruct (resolveItems rec Nullable Item l1 st) as [st'|r]; [|done].
  cbn [resolveItems]. unfold resolveItem at 1. rewrite Hx.
  unfold errorsIs. repeat case_bool_decide; try done. cbn [andb].
  destruct st'; cbn in *; by subst.
Qed.

(** So does the parallel executor. *)
Lemma resolveArrayAsynchronous_drop (Nullable : bool) (Item : Node)
    (l1 l2 : list (option bytes)) (x : option bytes) (arrayBuf : BufPair) :
  (∀ b, rec Item x b = (b, Some errTypeNameSkipped)) →
  resolveArrayAsynchronous raceWinner rec Nullable Item (l1 ++ x :: l2) arrayBuf
    = resolveArrayAsynchronous raceWinner rec Nullable Item (l1 ++ l2) arrayBuf.
Proof.
  intros Hx. unfold resolveArrayAsynchronous. rewrite writeSafe_None.
  rewrite !map_app. cbn [map]. rewrite Hx. cbn [fst].
  assert (E : receivedError raceWinner
                (map (λ y, rec Item y NewBufPair) l1
                   ++ (NewBufPair, Some errTypeNameSkipped)
                   :: map (λ y, rec Item y NewBufPair) l2)
              = receivedError raceWinner
                  (map (λ y, rec Item y NewBufPair) l1
                     ++ map (λ y, rec Item y NewBufPair) l2)).
  { unfold receivedError.
    assert (S : sentError (NewBufPair, Some errTypeNameSkipped) = None).
    { unfold sentError, errorsIs. cbn [snd]. by rewrite bool_decide_eq_true_2. }
    change ((NewBufPair, Some errTypeNameSkipped) :: ?l)
      with ([(NewBufPair, Some errTypeNameSkipped)] ++ l).
    rewrite !omap_app. cbn [omap list_omap]. by rewrite S. }
  rewrite E. clear E. destruct (receivedError _ _); [done|].
  rewrite !foldl_app. cbn [foldl]. rewrite mergeItem_empty; [done| |].
  - generalize (map fst (map (λ y, rec Item y NewBufPair) l1)).
    intros l. induction l as [|b l IH] using rev_ind; [done|].
    rewrite foldl_app. cbn. apply mergeItem_itemBuf.
  - by apply foldl_mergeItem_err.
Qed.

End SkipFacts.

(** ** The single-flight loader under every interleaving *)

Section SingleFlightFacts.

Import resolve singleflight.

Variable hash64 : bytes → Z.
Variable EnableSingleFlightLoader : bool.

(** The count of the dependents of a record, under a step of one call. *)
Lemma dependents_cons (r : nat) (c : call) (calls : list call) :
  dependents r (c :: calls)
    = ((if decide (dependentOn c = Some r) then 1 else 0) + dependents r calls)%nat.
Proof. reflexivity. Qed.

Lemma dependents_insert (r : nat) (calls : list call) (i : nat) (c c' : call) :
  calls !! i = Some c →
  (dependents r (<[i := c']> calls)
     + (if decide (dependentOn c = Some r) then 1 else 0)
   = dependents r calls
     + (if decide (dependentOn c' = Some r) then 1 else 0))%nat.
Proof.
  revert i. induction calls as [|c0 calls IH]; intros [|i] H; try done.
  - injection H as ->.
    change (<[0%nat := c']> (c :: calls)) with (c' :: calls).
    rewrite !dependents_cons. lia.
  - change (<[S i := c']> (c0 :: calls)) with (c0 :: <[i := c']> calls).
    rewrite !dependents_cons. specialize (IH i H). lia.
Qed.

Lemma dependents_pos (r : nat) (calls : list call) (i : nat) (c : call) :
  calls !! i = Some c → dependentOn c = Some r → (0 < dependents r calls)%nat.
Proof.
  revert i. induction calls as [|c0 calls IH]; intros [|i] H Hd; try done.
  - cbn in H. injection H as ->. cbn. rewrite decide_True by done. lia.
  - cbn in H. cbn. specialize (IH _ H Hd). lia.
Qed.

Lemma dependents_none (r : nat) (calls : list call) :
  (∀ i c, calls !! i = Some c → dependentOn c ≠ Some r) → dependents r calls = 0%nat.
Proof.
  induction calls as [|c0 calls IH]; intros H; [done|]. cbn.
  rewrite decide_False by (by apply (H 0%nat)).
  rewrite IH; [done|]. intros i c Hi. by apply (H (S i)).
Qed.

(** A call of the list after one of them has moved. *)
Lemma lookup_insert_call (calls : list call) (i j : nat) (c' c : call) :
  <[i := c']> calls !! j = Some c →
  (j = i ∧ c = c') ∨ (j ≠ i ∧ calls !! j = Some c).
Proof.
  intros H. apply list_lookup_insert_Some in H as [(-> & <- & _)|[? ?]]; eauto.
Qed.

Lemma lookup_not_in_delete {A} (l : list A) (k : nat) (x : A) :
  NoDup l → l !! k = Some x → x ∉ delete k l.
Proof.
  intros Hnd Hk. rewrite <- (take_drop_middle _ _ _ Hk) in Hnd.
  apply NoDup_app in Hnd as (_ & H1 & [H2 _]%NoDup_cons).
  rewrite delete_take_drop. intros [H|H]%elem_of_app; [|done].
  apply (H1 _ H). left.
Qed.

Lemma stepFree_invariant (s s' : state) (k : nat) :
  invariant hash64 s → stepFree s k = Some s' → invariant hash64 s'.
Proof.
  intros I. unfold stepFree.
  destruct (freeing s !! k) as [r|] eqn:Hk; [|done]. cbn.
  destruct (records s !! r) as [x|] eqn:Hr; [|done]. cbn.
  destruct (Nat.eqb_spec (waitFree x) 0) as [H0|]; [|done].
  intros [= <-].
  assert (Hin : r ∈ freeing s) by (by eapply list_elem_of_lookup_2).
  assert (Hnone : ∀ i c, calls s !! i = Some c → dependentOn c ≠ Some r).
  { intros i c Hi Hd. pose proof (dependents_pos _ _ _ _ Hi Hd).
    rewrite <- (inv_waitFree _ _ I _ _ Hr) in H. lia. }
  constructor; cbn.
  - intros r' [H|H]%elem_of_app.
    + rewrite length_insert. by apply (inv_pool_bound _ _ I).
    + apply list_elem_of_singleton in H as ->. rewrite length_insert.
      by apply (inv_freeing_bound _ _ I).
  - intros r' H%list_elem_of_delete_inv. rewrite length_insert.
    by apply (inv_freeing_bound _ _ I).
  - intros i c r' Hi Hl. rewrite length_insert. by apply (inv_leads_bound _ _ I i c).
  - intros i c r' Hi Hl. rewrite length_insert.
    by apply (inv_dependent_bound _ _ I i c).
  - intros r' x' Hx'. apply list_lookup_insert_Some in Hx' as [(<- & <- & _)|[? Hx']].
    + cbn. by apply (inv_waitFree _ _ I).
    + by apply (inv_waitFree _ _ I).
  - apply NoDup_app. split; [apply (inv_pool_NoDup _ _ I)|]. split.
    + intros r' Hp ->%list_elem_of_singleton. by apply (inv_pool_freeing _ _ I r).
    + apply NoDup_singleton.
  - eapply sublist_NoDup; [apply (inv_freeing_NoDup _ _ I)|apply sublist_delete].
  - intros r' [H|H]%elem_of_app.
    + intros H'%list_elem_of_delete_inv. by apply (inv_pool_freeing _ _ I r').
    + apply list_elem_of_singleton in H as ->.
      apply lookup_not_in_delete; [apply (inv_freeing_NoDup _ _ I)|done].
  - intros i c r' Hi Hl. destruct (inv_leads_out _ _ I i c r' Hi Hl) as [Hp Hf]. split.
    + intros [H|H]%elem_of_app; [done|].
      apply list_elem_of_singleton in H as ->. done.
    + by intros H%list_elem_of_delete_inv.
  - apply (inv_leads_inj _ _ I).
  - apply (inv_table _ _ I).
  - apply (inv_key _ _ I).
  - intros i c r' Hi Hd [H|H]%elem_of_app.
    + by apply (inv_safe _ _ I i c r').
    + apply list_elem_of_singleton in H as ->. by apply (Hnone i c).
Qed.


(** A step that changes neither what the call reads, leads and holds nor
    any wait count for the freeing goroutine. *)
Lemma neutral_invariant (s : state) (i : nat) (c c' : call)
    (records' : list record) (loads' : list (bytes * bytes)) :
  invariant hash64 s →
  calls s !! i = Some c →
  dependentOn c' = dependentOn c → leads c' = leads c → holdsKey c' = holdsKey c →
  c_fetch c' = c_fetch c → c_preparedInput c' = c_preparedInput c →
  length records' = length (records s) →
  (∀ r x', records' !! r = Some x' →
           ∃ x, records s !! r = Some x ∧ waitFree x' = waitFree x) →
  invariant hash64
    {| inflightFetches := inflightFetches s; records := records';
       inflightFetchPool := inflightFetchPool s; freeing := freeing s;
       calls := <[i := c']> (calls s); loads := loads' |}.
Proof.
  intros I Hi Hd Hl Hh Hf Hp Hlen Hrec.
  assert (Hold : ∀ j cj, <[i := c']> (calls s) !! j = Some cj →
            ∃ cj0, calls s !! j = Some cj0 ∧ dependentOn cj = dependentOn cj0 ∧
                   leads cj = leads cj0 ∧ holdsKey cj = holdsKey cj0 ∧
                   c_fetch cj = c_fetch cj0 ∧ c_preparedInput cj = c_preparedInput cj0).
  { intros j cj [[-> ->]|[_ Hj]]%lookup_insert_call; eauto 10. }
  assert (Hnew : ∀ j cj0, calls s !! j = Some cj0 →
            ∃ cj, <[i := c']> (calls s) !! j = Some cj ∧ dependentOn cj = dependentOn cj0 ∧
                  leads cj = leads cj0 ∧ holdsKey cj = holdsKey cj0 ∧
                  c_fetch cj = c_fetch cj0 ∧ c_preparedInput cj = c_preparedInput cj0).
  { intros j cj0 Hj. destruct (decide (j = i)) as [->|Hne].
    - exists c'. rewrite list_lookup_insert_eq by (by eapply lookup_lt_Some).
      rewrite Hi in Hj. injection Hj as <-. eauto 10.
    - exists cj0. rewrite list_lookup_insert_ne by done. eauto 10. }
  assert (Hcount : ∀ r, dependents r (<[i := c']> (calls s)) = dependents r (calls s)).
  { intros r. pose proof (dependents_insert r _ _ _ c' Hi) as H.
    rewrite Hd in H. lia. }
  constructor; cbn.
  - intros r H. rewrite Hlen. by apply (inv_pool_bound _ _ I).
  - intros r H. rewrite Hlen. by apply (inv_freeing_bound _ _ I).
  - intros j cj r Hj H. destruct (Hold _ _ Hj) as (cj0 & Hj0 & _ & E & _).
    rewrite Hlen. apply (inv_leads_bound _ _ I j cj0); congruence.
  - intros j cj r Hj H. destruct (Hold _ _ Hj) as (cj0 & Hj0 & E & _).
    rewrite Hlen. apply (inv_dependent_bound _ _ I j cj0); congruence.
  - intros r x' Hx'. destruct (Hrec _ _ Hx') as (x & Hx & ->).
    rewrite Hcount. by apply (inv_waitFree _ _ I).
  - apply (inv_pool_NoDup _ _ I).
  - apply (inv_freeing_NoDup _ _ I).
  - apply (inv_pool_freeing _ _ I).
  - intros j cj r Hj H. destruct (Hold _ _ Hj) as (cj0 & Hj0 & _ & E & _).
    apply (inv_leads_out _ _ I j cj0); congruence.
  - intros j1 j2 c1 c2 r H1 H2 L1 L2.
    destruct (Hold _ _ H1) as (c10 & H10 & _ & E1 & _).
    destruct (Hold _ _ H2) as (c20 & H20 & _ & E2 & _).
    apply (inv_leads_inj _ _ I j1 j2 c10 c20 r); congruence.
  - intros k r Hk. destruct (inv_table _ _ I _ _ Hk) as (j & cj0 & Hj0 & Hh0 & Hk0).
    destruct (Hnew _ _ Hj0) as (cj & Hj & _ & _ & E & Ef & Ep).
    exists j, cj. split; [done|]. split; congruence.
  - intros j cj r Hj H.
    destruct (Hold _ _ Hj) as (cj0 & Hj0 & _ & _ & E & Ef & Ep).
    rewrite Ef, Ep. apply (inv_key _ _ I j cj0); congruence.
  - intros j cj r Hj H. destruct (Hold _ _ Hj) as (cj0 & Hj0 & E & _).
    apply (inv_safe _ _ I j cj0); congruence.
Qed.


Lemma holdsKey_leads (c : call) (r : nat) : holdsKey c = Some r → leads c = Some r.
Proof. unfold holdsKey, leads. by destruct (c_pc c). Qed.

(** A call that finds its key in the table becomes a dependent of the
    record. *)
Lemma dependent_enters_invariant (s : state) (i : nat) (c : call) (r : nat) (x : record) :
  invariant hash64 s →
  calls s !! i = Some c → c_pc c = Enter →
  inflightFetches s !! fetchID hash64 (c_fetch c) (c_preparedInput c) = Some r →
  records s !! r = Some x →
  invariant hash64
    (withCall
       (withRecord s r
          {| waitLoad := waitLoad x; waitFree := S (waitFree x);
             err := err x; bufPair := bufPair x |})
       i (at_ c (DependentWait r))).
Proof.
  intros I Hi Hpc Hk Hr.
  assert (Hc : dependentOn c = None ∧ leads c = None ∧ holdsKey c = None).
  { unfold dependentOn, leads, holdsKey. by rewrite Hpc. }
  destruct Hc as (Hcd & Hcl & Hch).
  constructor; cbn.
  - intros r' H. rewrite length_insert. by apply (inv_pool_bound _ _ I).
  - intros r' H. rewrite length_insert. by apply (inv_freeing_bound _ _ I).
  - intros j cj r' [[-> ->]|[_ Hj]]%lookup_insert_call H; [done|].
    rewrite length_insert. by apply (inv_leads_bound _ _ I j cj).
  - intros j cj r' [[-> ->]|[_ Hj]]%lookup_insert_call H; rewrite length_insert.
    + injection H as <-. by eapply lookup_lt_Some.
    + by apply (inv_dependent_bound _ _ I j cj).
  - intros r' x' Hx'.
    pose proof (dependents_insert r' _ _ _ (at_ c (DependentWait r)) Hi) as Hn.
    rewrite Hcd in Hn. rewrite decide_False in Hn by done.
    apply list_lookup_insert_Some in Hx' as [(<- & <- & _)|[Hne Hx']].
    + cbn. rewrite (inv_waitFree _ _ I _ _ Hr).
      rewrite decide_True in Hn by done. lia.
    + rewrite (inv_waitFree _ _ I _ _ Hx').
      rewrite decide_False in Hn by (cbn; congruence). lia.
  - apply (inv_pool_NoDup _ _ I).
  - apply (inv_freeing_NoDup _ _ I).
  - apply (inv_pool_freeing _ _ I).
  - intros j cj r' [[-> ->]|[_ Hj]]%lookup_insert_call H; [done|].
    by apply (inv_leads_out _ _ I j cj).
  - intros j1 j2 c1 c2 r' [[-> ->]|[_ H1]]%lookup_insert_call
      [[-> ->]|[_ H2]]%lookup_insert_call L1 L2; try done.
    by apply (inv_leads_inj _ _ I j1 j2 c1 c2 r').
  - intros k r' Hk'. destruct (inv_table _ _ I _ _ Hk') as (j & cj & Hj & Hh & Hid).
    exists j, cj. split; [|done].
    rewrite list_lookup_insert_ne; [done|]. intros <-. congruence.
  - intros j cj r' [[-> ->]|[_ Hj]]%lookup_insert_call H; [done|].
    by apply (inv_key _ _ I j cj).
  - intros j cj r' [[-> ->]|[_ Hj]]%lookup_insert_call H.
    + injection H as <-.
      destruct (inv_table _ _ I _ _ Hk) as (j' & cj' & Hj' & Hh' & _).
      by apply (inv_leads_out _ _ I j' cj' r Hj' (holdsKey_leads _ _ Hh')).
    + by apply (inv_safe _ _ I j cj).
Qed.


(** A call that does not find its key takes a record from the pool, or a
    new one, and becomes its leader. *)
Lemma leader_enters_invariant (s : state) (i : nat) (c : call) (r : nat) (x : record)
    (pool' : list nat) (records1 : list record) :
  invariant hash64 s →
  calls s !! i = Some c → c_pc c = Enter →
  inflightFetches s !! fetchID hash64 (c_fetch c) (c_preparedInput c) = None →
  (inflightFetchPool s = r :: pool' ∧ records1 = records s) ∨
  (inflightFetchPool s = [] ∧ pool' = [] ∧ records1 = records s ++ [newRecord]
   ∧ r = length (records s)) →
  records1 !! r = Some x →
  invariant hash64
    {| inflightFetches :=
         <[fetchID hash64 (c_fetch c) (c_preparedInput c) := r]> (inflightFetches s);
       records := <[r := {| waitLoad := S (waitLoad x); waitFree := waitFree x;
                            err := err x; bufPair := bufPair x |}]> records1;
       inflightFetchPool := pool'; freeing := freeing s;
       calls := <[i := at_ c (LeaderLoad r)]> (calls s); loads := loads s |}.
Proof.
  intros I Hi Hpc Hk Hget Hr.
  assert (Hc : dependentOn c = None ∧ leads c = None ∧ holdsKey c = None).
  { unfold dependentOn, leads, holdsKey. by rewrite Hpc. }
  destruct Hc as (Hcd & Hcl & Hch).
  pose proof (lookup_lt_Some _ _ _ Hr) as F1.
  assert (F2 : (length (records s) ≤ length records1)%nat).
  { destruct Hget as [[_ ->]|(_ & _ & -> & _)]; [done|].
    rewrite List.length_app. lia. }
  assert (F3 : ∀ r', r' ∈ pool' → r' ∈ inflightFetchPool s ∧ r' ≠ r).
  { destruct Hget as [[Hp _]|(_ & -> & _)]; [|by intros ? ?%elem_of_nil].
    intros r' H. pose proof (inv_pool_NoDup _ _ I) as Hnd. rewrite Hp in *.
    apply NoDup_cons in Hnd as [Hnd _]. split; [by right|]. by intros ->. }
  assert (F4 : r ∉ freeing s).
  { destruct Hget as [[Hp _]|(_ & _ & _ & ->)].
    - apply (inv_pool_freeing _ _ I). rewrite Hp. left.
    - intros H%(inv_freeing_bound _ _ I). lia. }
  assert (F5 : ∀ j cj, calls s !! j = Some cj →
                       leads cj ≠ Some r ∧ dependentOn cj ≠ Some r).
  { intros j cj Hj. destruct Hget as [[Hp _]|(_ & _ & _ & ->)].
    - assert (r ∈ inflightFetchPool s) by (rewrite Hp; left). split; intros H'.
      + by destruct (inv_leads_out _ _ I j cj r Hj H').
      + by apply (inv_safe _ _ I j cj r Hj H').
    - split; intros H'.
      + pose proof (inv_leads_bound _ _ I j cj _ Hj H'). lia.
      + pose proof (inv_dependent_bound _ _ I j cj _ Hj H'). lia. }
  assert (F6 : NoDup pool').
  { destruct Hget as [[Hp _]|(_ & -> & _)]; [|apply NoDup_nil_2].
    pose proof (inv_pool_NoDup _ _ I) as Hnd. rewrite Hp in Hnd.
    by apply NoDup_cons in Hnd as [_ ?]. }
  assert (F7 : waitFree x = dependents r (calls s)).
  { destruct Hget as [[_ ->]|(_ & _ & -> & ->)].
    - by apply (inv_waitFree _ _ I).
    - rewrite lookup_app_r, Nat.sub_diag in Hr by done. injection Hr as <-.
      cbn. symmetry. apply dependents_none. intros j cj Hj. by apply (F5 j cj). }
  assert (F8 : ∀ r' x', r' ≠ r → records1 !! r' = Some x' → records s !! r' = Some x').
  { intros r' x' Hne Hx'. destruct Hget as [[_ ->]|(_ & _ & -> & ->)]; [done|].
    pose proof (lookup_lt_Some _ _ _ Hx') as Hlt.
    rewrite List.length_app in Hlt. cbn in Hlt.
    by rewrite lookup_app_l in Hx' by lia. }
  assert (Hcount : ∀ r', dependents r' (<[i := at_ c (LeaderLoad r)]> (calls s))
                         = dependents r' (calls s)).
  { intros r'. pose proof (dependents_insert r' _ _ _ (at_ c (LeaderLoad r)) Hi) as Hn.
    rewrite Hcd in Hn. rewrite !decide_False in Hn by done. lia. }
  constructor; cbn.
  - intros r' [H _]%F3. rewrite length_insert.
    pose proof (inv_pool_bound _ _ I _ H). lia.
  - intros r' H. rewrite length_insert.
    pose proof (inv_freeing_bound _ _ I _ H). lia.
  - intros j cj r' [[-> ->]|[_ Hj]]%lookup_insert_call H; rewrite length_insert.
    + by injection H as <-.
    + pose proof (inv_leads_bound _ _ I j cj _ Hj H). lia.
  - intros j cj r' [[-> ->]|[_ Hj]]%lookup_insert_call H; [done|].
    rewrite length_insert. pose proof (inv_dependent_bound _ _ I j cj _ Hj H). lia.
  - intros r' x' Hx'. rewrite Hcount.
    apply list_lookup_insert_Some in Hx' as [(<- & <- & _)|[Hne Hx']]; [done|].
    apply (inv_waitFree _ _ I). by apply F8.
  - done.
  - apply (inv_freeing_NoDup _ _ I).
  - intros r' [H _]%F3. by apply (inv_pool_freeing _ _ I).
  - intros j cj r' [[-> ->]|[_ Hj]]%lookup_insert_call H.
    + injection H as <-. split; [|done]. by intros [_ ?]%F3.
    + destruct (inv_leads_out _ _ I j cj r' Hj H) as [Hp Hf].
      split; [|done]. by intros [? _]%F3.
  - intros j1 j2 c1 c2 r' [[-> ->]|[_ H1]]%lookup_insert_call
      [[-> ->]|[_ H2]]%lookup_insert_call L1 L2; try done.
    + injection L1 as <-. by destruct (F5 _ _ H2).
    + injection L2 as <-. by destruct (F5 _ _ H1).
    + by apply (inv_leads_inj _ _ I j1 j2 c1 c2 r').
  - intros k r' Hk'. apply lookup_insert_Some in Hk' as [[<- <-]|[Hne Hk']].
    + exists i, (at_ c (LeaderLoad r)). split; [|done].
      apply list_lookup_insert_eq. by eapply lookup_lt_Some.
    + destruct (inv_table _ _ I _ _ Hk') as (j & cj & Hj & Hh & Hid).
      exists j, cj. split; [|done].
      rewrite list_lookup_insert_ne; [done|]. intros <-. congruence.
  - intros j cj r' [[-> ->]|[_ Hj]]%lookup_insert_call H.
    + injection H as <-. cbn. apply lookup_insert_eq.
    + pose proof (inv_key _ _ I j cj r' Hj H) as Hkey.
      rewrite lookup_insert_ne; [done|]. intros E. rewrite E in Hk. congruence.
  - intros j cj r' [[-> ->]|[_ Hj]]%lookup_insert_call H; [done|].
    intros [? _]%F3. by apply (inv_safe _ _ I j cj r').
Qed.


(** The leader removes its key from the table. *)
Lemma leader_deletes_invariant (s : state) (i : nat) (c : call) (r : nat) :
  invariant hash64 s →
  calls s !! i = Some c → c_pc c = LeaderDelete r →
  invariant hash64
    (withCall
       {| inflightFetches :=
            delete (fetchID hash64 (c_fetch c) (c_preparedInput c)) (inflightFetches s);
          records := records s; inflightFetchPool := inflightFetchPool s;
          freeing := freeing s; calls := calls s; loads := loads s |}
       i (at_ c (LeaderSpawn r))).
Proof.
  intros I Hi Hpc.
  assert (Hc : dependentOn c = None ∧ leads c = Some r ∧ holdsKey c = Some r).
  { unfold dependentOn, leads, holdsKey. by rewrite Hpc. }
  destruct Hc as (Hcd & Hcl & Hch).
  assert (Hcount : ∀ r', dependents r' (<[i := at_ c (LeaderSpawn r)]> (calls s))
                         = dependents r' (calls s)).
  { intros r'. pose proof (dependents_insert r' _ _ _ (at_ c (LeaderSpawn r)) Hi) as Hn.
    rewrite Hcd in Hn. rewrite !decide_False in Hn by done. lia. }
  constructor; cbn.
  - apply (inv_pool_bound _ _ I).
  - apply (inv_freeing_bound _ _ I).
  - intros j cj r' [[-> ->]|[_ Hj]]%lookup_insert_call H.
    + injection H as <-. by apply (inv_leads_bound _ _ I i c).
    + by apply (inv_leads_bound _ _ I j cj).
  - intros j cj r' [[-> ->]|[_ Hj]]%lookup_insert_call H; [done|].
    by apply (inv_dependent_bound _ _ I j cj).
  - intros r' x' Hx'. rewrite Hcount. by apply (inv_waitFree _ _ I).
  - apply (inv_pool_NoDup _ _ I).
  - apply (inv_freeing_NoDup _ _ I).
  - apply (inv_pool_freeing _ _ I).
  - intros j cj r' [[-> ->]|[_ Hj]]%lookup_insert_call H.
    + injection H as <-. by apply (inv_leads_out _ _ I i c).
    + by apply (inv_leads_out _ _ I j cj).
  - intros j1 j2 c1 c2 r' [[-> ->]|[Hn1 H1]]%lookup_insert_call
      [[-> ->]|[Hn2 H2]]%lookup_insert_call L1 L2; try done.
    + injection L1 as <-. by apply (inv_leads_inj _ _ I i j2 c c2 r).
    + injection L2 as <-. by apply (inv_leads_inj _ _ I j1 i c1 c r).
    + by apply (inv_leads_inj _ _ I j1 j2 c1 c2 r').
  - intros k r' [Hne Hk']%lookup_delete_Some.
    destruct (inv_table _ _ I _ _ Hk') as (j & cj & Hj & Hh & Hid).
    exists j, cj. split; [|done].
    rewrite list_lookup_insert_ne; [done|]. intros <-.
    rewrite Hi in Hj. injection Hj as <-. done.
  - intros j cj r' [[-> ->]|[Hne Hj]]%lookup_insert_call H; [done|].
    pose proof (inv_key _ _ I j cj r' Hj H) as Hkey.
    rewrite lookup_delete_ne; [done|]. intros E.
    pose proof (inv_key _ _ I i c r Hi Hch) as Hkey'.
    rewrite E, Hkey in Hkey'. injection Hkey' as ->.
    apply Hne. apply (inv_leads_inj _ _ I j i cj c r); auto using holdsKey_leads.
  - intros j cj r' [[-> ->]|[_ Hj]]%lookup_insert_call H; [done|].
    by apply (inv_safe _ _ I j cj).
Qed.

(** The leader hands the record to the goroutine that frees it, and
    returns. *)
Lemma leader_returns_invariant (s : state) (i : nat) (c : call) (r : nat) :
  invariant hash64 s →
  calls s !! i = Some c → c_pc c = LeaderSpawn r →
  invariant hash64
    (withCall
       {| inflightFetches := inflightFetches s; records := records s;
          inflightFetchPool := inflightFetchPool s;
          freeing := freeing s ++ [r]; calls := calls s; loads := loads s |}
       i (at_ c Returned)).
Proof.
  intros I Hi Hpc.
  assert (Hc : dependentOn c = None ∧ leads c = Some r ∧ holdsKey c = None).
  { unfold dependentOn, leads, holdsKey. by rewrite Hpc. }
  destruct Hc as (Hcd & Hcl & Hch).
  destruct (inv_leads_out _ _ I i c r Hi Hcl) as [Hrp Hrf].
  assert (Hcount : ∀ r', dependents r' (<[i := at_ c Returned]> (calls s))
                         = dependents r' (calls s)).
  { intros r'. pose proof (dependents_insert r' _ _ _ (at_ c Returned) Hi) as Hn.
    rewrite Hcd in Hn. rewrite !decide_False in Hn by done. lia. }
  constructor; cbn.
  - apply (inv_pool_bound _ _ I).
  - intros r' [H|H]%elem_of_app; [by apply (inv_freeing_bound _ _ I)|].
    apply list_elem_of_singleton in H as ->. by apply (inv_leads_bound _ _ I i c).
  - intros j cj r' [[-> ->]|[_ Hj]]%lookup_insert_call H; [done|].
    by apply (inv_leads_bound _ _ I j cj).
  - intros j cj r' [[-> ->]|[_ Hj]]%lookup_insert_call H; [done|].
    by apply (inv_dependent_bound _ _ I j cj).
  - intros r' x' Hx'. rewrite Hcount. by apply (inv_waitFree _ _ I).
  - apply (inv_pool_NoDup _ _ I).
  - apply NoDup_app. split; [apply (inv_freeing_NoDup _ _ I)|]. split.
    + by intros r' Hf ->%list_elem_of_singleton.
    + apply NoDup_singleton.
  - intros r' Hp [H|H]%elem_of_app; [by apply (inv_pool_freeing _ _ I r')|].
    by apply list_elem_of_singleton in H as ->.
  - intros j cj r' [[-> ->]|[Hne Hj]]%lookup_insert_call H; [done|].
    destruct (inv_leads_out _ _ I j cj r' Hj H) as [Hp Hf]. split; [done|].
    intros [H'|H']%elem_of_app; [done|].
    apply list_elem_of_singleton in H' as ->.
    apply Hne. by apply (inv_leads_inj _ _ I j i cj c r).
  - intros j1 j2 c1 c2 r' [[-> ->]|[_ H1]]%lookup_insert_call
      [[-> ->]|[_ H2]]%lookup_insert_call L1 L2; try done.
    by apply (inv_leads_inj _ _ I j1 j2 c1 c2 r').
  - intros k r' Hk'. destruct (inv_table _ _ I _ _ Hk') as (j & cj & Hj & Hh & Hid).
    exists j, cj. split; [|done].
    rewrite list_lookup_insert_ne; [done|]. intros <-. congruence.
  - intros j cj r' [[-> ->]|[_ Hj]]%lookup_insert_call H; [done|].
    by apply (inv_key _ _ I j cj).
  - intros j cj r' [[-> ->]|[_ Hj]]%lookup_insert_call H; [done|].
    by apply (inv_safe _ _ I j cj).
Qed.

(** A dependent runs its deferred [waitFree.Done()] and returns. *)
Lemma dependent_returns_invariant (s : state) (i : nat) (c : call) (r : nat) (x : record) :
  invariant hash64 s →
  calls s !! i = Some c → c_pc c = DependentReturn r →
  records s !! r = Some x →
  invariant hash64
    (withCall
       (withRecord s r
          {| waitLoad := waitLoad x; waitFree := pred (waitFree x);
             err := err x; bufPair := bufPair x |})
       i (at_ c Returned)).
Proof.
  intros I Hi Hpc Hr.
  assert (Hc : dependentOn c = Some r ∧ leads c = None ∧ holdsKey c = None).
  { unfold dependentOn, leads, holdsKey. by rewrite Hpc. }
  destruct Hc as (Hcd & Hcl & Hch).
  constructor; cbn.
  - intros r' H. rewrite length_insert. by apply (inv_pool_bound _ _ I).
  - intros r' H. rewrite length_insert. by apply (inv_freeing_bound _ _ I).
  - intros j cj r' [[-> ->]|[_ Hj]]%lookup_insert_call H; [done|].
    rewrite length_insert. by apply (inv_leads_bound _ _ I j cj).
  - intros j cj r' [[-> ->]|[_ Hj]]%lookup_insert_call H; [done|].
    rewrite length_insert. by apply (inv_dependent_bound _ _ I j cj).
  - intros r' x' Hx'.
    pose proof (dependents_insert r' _ _ _ (at_ c Returned) Hi) as Hn.
    rewrite Hcd in Hn. rewrite (decide_False (P := dependentOn _ = _)) in Hn by done.
    apply list_lookup_insert_Some in Hx' as [(<- & <- & _)|[Hne Hx']].
    + cbn. rewrite (inv_waitFree _ _ I _ _ Hr).
      rewrite decide_True in Hn by done. lia.
    + rewrite (inv_waitFree _ _ I _ _ Hx').
      rewrite decide_False in Hn by congruence. lia.
  - apply (inv_pool_NoDup _ _ I).
  - apply (inv_freeing_NoDup _ _ I).
  - apply (inv_pool_freeing _ _ I).
  - intros j cj r' [[-> ->]|[_ Hj]]%lookup_insert_call H; [done|].
    by apply (inv_leads_out _ _ I j cj).
  - intros j1 j2 c1 c2 r' [[-> ->]|[_ H1]]%lookup_insert_call
      [[-> ->]|[_ H2]]%lookup_insert_call L1 L2; try done.
    by apply (inv_leads_inj _ _ I j1 j2 c1 c2 r').
  - intros k r' Hk'. destruct (inv_table _ _ I _ _ Hk') as (j & cj & Hj & Hh & Hid).
    exists j, cj. split; [|done].
    rewrite list_lookup_insert_ne; [done|]. intros <-. congruence.
  - intros j cj r' [[-> ->]|[_ Hj]]%lookup_insert_call H; [done|].
    by apply (inv_key _ _ I j cj).
  - intros j cj r' [[-> ->]|[_ Hj]]%lookup_insert_call H; [done|].
    by apply (inv_safe _ _ I j cj).
Qed.


Lemma stepCall_invariant (s s' : state) (i : nat) :
  invariant hash64 s →
  stepCall hash64 EnableSingleFlightLoader s i = Some s' →
  invariant hash64 s'.
Proof.
  intros I. unfold stepCall.
  destruct (calls s !! i) as [c|] eqn:Hi; [|done]. cbn.
  destruct (c_pc c) as [|r|r|r|r|r|r|r|r|] eqn:Hpc.
  - (* Enter *)
    destruct (negb EnableSingleFlightLoader || DisallowSingleFlight (c_fetch c)).
    + destruct (Load _ _ _) as [buf lerr]. intros [= <-].
      apply (neutral_invariant s i c); try done.
      * unfold dependentOn. by rewrite Hpc.
      * unfold leads. by rewrite Hpc.
      * unfold holdsKey. by rewrite Hpc.
      * eauto.
    + destruct (inflightFetches s !! _) as [r|] eqn:Hk.
      * destruct (records s !! r) as [x|] eqn:Hr; [|done]. cbn. intros [= <-].
        by apply dependent_enters_invariant.
      * unfold getInflightFetch.
        destruct (inflightFetchPool s) as [|r pool'] eqn:Hp; cbn.
        -- destruct ((records s ++ [newRecord]) !! length (records s))
             as [x|] eqn:Hr; [|done].
           cbn. intros [= <-].
           apply (leader_enters_invariant s i c (length (records s)) x []
                    (records s ++ [newRecord])); try done.
           right. by rewrite Hp.
        -- destruct (records s !! r) as [x|] eqn:Hr; [|done]. cbn. intros [= <-].
           apply (leader_enters_invariant s i c r x pool' (records s)); try done.
           left. by rewrite Hp.
  - (* LeaderLoad *)
    destruct (records s !! r) as [x|] eqn:Hr; [|done]. cbn.
    destruct (Load _ _ _) as [shared lerr]. intros [= <-].
    apply (neutral_invariant s i c); try done.
    + unfold dependentOn. cbn. by rewrite Hpc.
    + unfold leads. cbn. by rewrite Hpc.
    + unfold holdsKey. cbn. by rewrite Hpc.
    + cbn. by rewrite length_insert.
    + cbn. intros r' x' [(<- & <- & _)|[_ ?]]%list_lookup_insert_Some; eauto.
  - (* LeaderCopy *)
    destruct (records s !! r) as [x|] eqn:Hr; [|done]. cbn. intros [= <-].
    apply (neutral_invariant s i c); try done.
    + unfold dependentOn. cbn. by rewrite Hpc.
    + unfold leads. cbn. by rewrite Hpc.
    + unfold holdsKey. cbn. by rewrite Hpc.
    + eauto.
  - (* LeaderDone *)
    destruct (records s !! r) as [x|] eqn:Hr; [|done]. cbn. intros [= <-].
    apply (neutral_invariant s i c); try done.
    + unfold dependentOn. cbn. by rewrite Hpc.
    + unfold leads. cbn. by rewrite Hpc.
    + unfold holdsKey. cbn. by rewrite Hpc.
    + cbn. by rewrite length_insert.
    + cbn. intros r' x' [(<- & <- & _)|[_ ?]]%list_lookup_insert_Some; eauto.
  - (* LeaderDelete *)
    intros [= <-]. by apply leader_deletes_invariant.
  - (* LeaderSpawn *)
    intros [= <-]. by apply leader_returns_invariant.
  - (* DependentWait *)
    destruct (records s !! r) as [x|] eqn:Hr; [|done]. cbn.
    destruct (waitLoad x =? 0)%nat; [|done]. intros [= <-].
    apply (neutral_invariant s i c); try done.
    + unfold dependentOn. cbn. by rewrite Hpc.
    + unfold leads. cbn. by rewrite Hpc.
    + unfold holdsKey. cbn. by rewrite Hpc.
    + eauto.
  - (* DependentCopy *)
    destruct (records s !! r) as [x|] eqn:Hr; [|done]. cbn. intros [= <-].
    apply (neutral_invariant s i c); try done.
    + unfold dependentOn. cbn. by rewrite Hpc.
    + unfold leads. cbn. by rewrite Hpc.
    + unfold holdsKey. cbn. by rewrite Hpc.
    + eauto.
  - (* DependentReturn *)
    destruct (records s !! r) as [x|] eqn:Hr; [|done]. cbn. intros [= <-].
    by apply dependent_returns_invariant.
  - done.
Qed.

(** Every step keeps the invariant. *)
Lemma step_invariant (s s' : state) (a : actor) :
  invariant hash64 s →
  step hash64 EnableSingleFlightLoader s a = Some s' →
  invariant hash64 s'.
Proof.
  destruct a as [i|k]; cbn.
  - apply stepCall_invariant.
  - apply stepFree_invariant.
Qed.

(** A resolver that is about to run calls starts within the invariant. *)
Lemma initial_invariant (calls0 : list call) :
  Forall (λ c, c_pc c = Enter) calls0 → invariant hash64 (initial calls0).
Proof.
  intros H.
  assert (Hc : ∀ i c, calls0 !! i = Some c →
                 dependentOn c = None ∧ leads c = None ∧ holdsKey c = None).
  { intros i c Hi. pose proof (proj1 (Forall_lookup _ _) H _ _ Hi) as Hpc.
    unfold dependentOn, leads, holdsKey. by rewrite Hpc. }
  constructor; cbn.
  - by intros r ?%elem_of_nil.
  - by intros r ?%elem_of_nil.
  - intros i c r Hi Hl. destruct (Hc _ _ Hi) as (_ & E & _). congruence.
  - intros i c r Hi Hl. destruct (Hc _ _ Hi) as (E & _). congruence.
  - done.
  - apply NoDup_nil_2.
  - apply NoDup_nil_2.
  - by intros r ?%elem_of_nil.
  - intros i c r Hi Hl. destruct (Hc _ _ Hi) as (_ & E & _). congruence.
  - intros i j c c' r Hi _ Hl. destruct (Hc _ _ Hi) as (_ & E & _). congruence.
  - intros k r. by rewrite lookup_empty.
  - intros i c r Hi Hl. destruct (Hc _ _ Hi) as (_ & _ & E). congruence.
  - by intros i c r _ _ ?%elem_of_nil.
Qed.

Lemma run_snoc (schedule : list actor) (a : actor) (s : state) :
  run hash64 EnableSingleFlightLoader (schedule ++ [a]) s
    = run hash64 EnableSingleFlightLoader schedule s
        ≫= λ s, step hash64 EnableSingleFlightLoader s a.
Proof. unfold run. by rewrite foldl_app. Qed.

(** The invariant holds after every schedule. *)
Lemma run_invariant (schedule : list actor) (s s' : state) :
  invariant hash64 s →
  run hash64 EnableSingleFlightLoader schedule s = Some s' →
  invariant hash64 s'.
Proof.
  intros I. revert s'. induction schedule as [|a schedule IH] using rev_ind; intros s'.
  - cbn. by intros [= <-].
  - rewrite run_snoc.
    destruct (run hash64 EnableSingleFlightLoader schedule s) as [s1|]; [|done].
    cbn. apply step_invariant. by apply IH.
Qed.

(** Whatever the calls and however they interleave, a record that a
    dependent may still read is not in the pool. *)
Theorem record_not_recycled (calls0 : list call) (schedule : list actor) (s : state) :
  Forall (λ c, c_pc c = Enter) calls0 →
  run hash64 EnableSingleFlightLoader schedule (initial calls0) = Some s →
  ∀ i c r, calls s !! i = Some c → dependentOn c = Some r →
           (r ∉ inflightFetchPool s) ∧
           ∃ x, records s !! r = Some x ∧ (0 < waitFree x)%nat.
Proof.
  intros H0 Hrun i c r Hi Hd.
  pose proof (run_invariant _ _ _ (initial_invariant _ H0) Hrun) as I.
  split; [by apply (inv_safe _ _ I i c)|].
  destruct (lookup_lt_is_Some_2 (records s) r) as [x Hx].
  { by apply (inv_dependent_bound _ _ I i c). }
  exists x. split; [done|]. rewrite (inv_waitFree _ _ I _ _ Hx).
  by apply (dependents_pos _ _ i c).
Qed.


End SingleFlightFacts.

(** ** The resolver: null propagation, sentinels, envelope, arrays *)

Section ResolverTheorems.

Import Bytes resolve Spec.

Variable jsonGet :
  option bytes → list string → option bytes * jsonparser.ValueType * option string.
Variable jsonArrayEach : option bytes → list string → list (option bytes).
Variable hash64 : bytes → Z.
Variable raceWinner : list error → nat.
Variable EnableSingleFlightLoader : bool.

Local Abbreviation resolveNode :=
  (resolve.resolveNode jsonGet jsonArrayEach hash64 raceWinner EnableSingleFlightLoader).
Local Abbreviation ResolveGraphQLResponse :=
  (resolve.ResolveGraphQLResponse jsonGet jsonArrayEach hash64 raceWinner
     EnableSingleFlightLoader).

(** An error of the root node is returned as it is, and nothing is written. *)
Lemma ResolveGraphQLResponse_error (W : Type) (Write : W → bytes → W * option error)
    (ctx : Context) (response : GraphQLResponse) (data : option bytes) (writer : W)
    (b : BufPair) (e : error) :
  resolveNode ctx (ResponseData response) data NewBufPair = (b, Some e) →
  ResolveGraphQLResponse W Write ctx response data writer = (writer, Some e).
Proof. intros H. unfold resolve.ResolveGraphQLResponse. by rewrite H. Qed.

Lemma writeSafeTo_buffer (w x : bytes) :
  writeSafeTo bytes bufferWrite None w x = (w +:+ x, None).
Proof. reflexivity. Qed.

Lemma bufferWrite_spec (w x : bytes) : bufferWrite w x = (w +:+ x, None).
Proof. reflexivity. Qed.

(** The envelope written to a buffer. *)
Lemma ResolveGraphQLResponse_envelope (ctx : Context) (response : GraphQLResponse)
    (data : option bytes) (w : bytes) (buf : BufPair) :
  resolveNode ctx (ResponseData response) data NewBufPair = (buf, None) →
  ResolveGraphQLResponse bytes bufferWrite ctx response data w =
    (w +:+ lBrace
       +:+ (if HasErrors buf
            then quote +:+ literalErrors +:+ quote +:+ colon +:+ lBrack
                   +:+ Errors buf +:+ rBrack
            else "")
       +:+ (if HasData buf
            then (if HasErrors buf then comma else "")
                   +:+ quote +:+ literalData +:+ quote +:+ colon +:+ Data buf
            else "")
       +:+ rBrace, None).
Proof.
  intros H. unfold resolve.ResolveGraphQLResponse. rewrite H.
  fold (HasErrors buf). fold (HasData buf).
  generalize (HasErrors buf) as he. generalize (HasData buf) as hd.
  intros [|] [|];
    repeat (first [rewrite writeSafeTo_buffer | rewrite bufferWrite_spec];
            cbv beta iota);
    rewrite ?app_assoc, ?app_nil_l, ?app_nil_r; reflexivity.
Qed.

(** C2. When the root resolves with a non-empty errors buffer, the
    envelope written by [ResolveGraphQLResponse] is
    [{"Errors":[<errors>]], then [,"data":<value>] when the data buffer is not
    empty, then [}]: the error list is keyed [Errors], with a capital E. *)
Theorem envelope_keys_errors_with_capital (ctx : Context) (response : GraphQLResponse)
    (data : option bytes) (w : bytes) (buf : BufPair) :
  resolveNode ctx (ResponseData response) data NewBufPair = (buf, None) →
  Errors buf ≠ "" →
  ResolveGraphQLResponse bytes bufferWrite ctx response data w =
    (w +:+ "{" +:+ quoted "Errors" +:+ ":[" +:+ Errors buf +:+ "]"
       +:+ (if HasData buf then "," +:+ quoted "data" +:+ ":" +:+ Data buf else "")
       +:+ "}", None).
Proof.
  intros H He. rewrite (ResolveGraphQLResponse_envelope _ _ _ _ _ H).
  apply HasErrors_true in He. rewrite He. unfold quoted.
  destruct (HasData buf); rewrite ?app_assoc; reflexivity.
Qed.

Lemma resolveNode_not_skipped (ctx : Context) (node : Node) (data : option bytes)
    (buf : BufPair) :
  (resolveNode ctx node data buf).2 = Some errTypeNameSkipped →
  ∃ Nullable Path FieldSets fetch, node = NodeObject Nullable Path FieldSets fetch.
Proof.
  destruct node as [N P F f| |P N A I| | |P N|P N|P N|P N|]; cbn [resolve.resolveNode];
    try done.
  - eauto.
  - intros H. by apply resolveArray_not_skipped in H.
  - unfold resolveString. destruct (jsonGet data P) as [[v t] e].
    destruct (_ || _); [by destruct N|].
    by destruct (negb (notNil data) && negb N).
  - unfold resolveBoolean. destruct (jsonGet data P) as [[v t] e].
    destruct (_ || _); [by destruct N|]. done.
  - unfold resolveInteger. destruct (jsonGet data P) as [[v t] e].
    destruct (_ || _); [by destruct N|]. done.
  - unfold resolveFloat. destruct (jsonGet data P) as [[v t] e].
    destruct (_ || _); [by destruct N|]. done.
Qed.


(** C6 (amended). The TypeNameSkipped sentinel is consumed by the array
    layer: an array never returns it, and neither does a scalar, so a node
    that returns it is an object.  [ResolveGraphQLResponse] returns it to the
    caller when the root node returns it, and writes nothing. *)
Theorem typename_skip_reaches_the_caller (ctx : Context) :
  (∀ node data buf,
      (resolveNode ctx node data buf).2 = Some errTypeNameSkipped →
      ∃ Nullable Path FieldSets fetch, node = NodeObject Nullable Path FieldSets fetch) ∧
  (∀ W Write response data (writer : W) b,
      resolveNode ctx (ResponseData response) data NewBufPair
        = (b, Some errTypeNameSkipped) →
      ResolveGraphQLResponse W Write ctx response data writer
        = (writer, Some errTypeNameSkipped)).
Proof.
  split.
  - intros *. apply resolveNode_not_skipped.
  - intros *. apply ResolveGraphQLResponse_error.
Qed.

(** C5 (amended). An object none of whose field sets passes its typename
    gate signals TypeNameSkipped when it is non-nullable, and emits [null]
    when it is nullable.  An array, serial or parallel, drops an item that
    signals the sentinel: the output is the one of the array without the
    item. *)
Theorem typename_skip_of_objects (ctx : Context) :
  (∀ Path FieldSets fetch data buf set objectBuf,
      FieldSets ≠ [] →
      fetchObject jsonGet hash64 EnableSingleFlightLoader ctx fetch
        (objectData jsonGet Path data) buf = Next (set, objectBuf) →
      Forall (skipped jsonGet set (objectData jsonGet Path data)) FieldSets →
      resolveNode ctx (NodeObject false Path FieldSets fetch) data buf
        = (objectBuf, Some errTypeNameSkipped) ∧
      resolveNode ctx (NodeObject true Path FieldSets fetch) data buf
        = (writeData objectBuf null, None)) ∧
  (∀ Nullable Item l1 x l2 arrayBuf,
      (∀ b, resolveNode ctx Item x b = (b, Some errTypeNameSkipped)) →
      resolveArraySynchronous (resolveNode ctx) Nullable Item (l1 ++ x :: l2) arrayBuf
        = resolveArraySynchronous (resolveNode ctx) Nullable Item (l1 ++ l2) arrayBuf ∧
      resolveArrayAsynchronous raceWinner (resolveNode ctx) Nullable Item
          (l1 ++ x :: l2) arrayBuf
        = resolveArrayAsynchronous raceWinner (resolveNode ctx) Nullable Item
            (l1 ++ l2) arrayBuf).
Proof.
  split.
  - intros Path FieldSets fetch data buf set objectBuf Hne HF Hs.
    cbn [resolve.resolveNode]. unfold resolveObject. rewrite HF.
    rewrite !(resolveFieldSets_skipped jsonGet) by done.
    destruct FieldSets; done.
  - intros Nullable Item l1 x l2 arrayBuf Hx. split.
    + by apply resolveArraySynchronous_drop.
    + by apply resolveArrayAsynchronous_drop.
Qed.


(** The leader copies what a dependent copies, and its result is nil as
    soon as there was something to copy. *)
Lemma leaderCopy_spec (shared buf : BufPair) (err : option error) :
  leaderCopy shared buf err =
    (dependentCopy shared buf, if HasData shared || HasErrors shared then None else err).
Proof.
  unfold leaderCopy, dependentCopy. by destruct (HasData shared), (HasErrors shared).
Qed.

(** The two paths of [resolveSingleFetch] on the record the leader leaves. *)
Lemma leader_and_dependent_paths (fetch : SingleFetch) (preparedInput : bytes)
    (buf : BufPair) :
  let shared := (Load (FetchDataSource fetch) preparedInput NewBufPair).1 in
  let lerr := (Load (FetchDataSource fetch) preparedInput NewBufPair).2 in
  let leader := resolveSingleFetch_leader fetch preparedInput buf in
  let dependent := resolveSingleFetch_dependent leader.2 buf in
  leader.1.1 = dependent.1 ∧
  dependent.2 = errExternal <$> lerr ∧
  leader.1.2 = if HasData shared || HasErrors shared then None else errExternal <$> lerr.
Proof.
  cbv zeta. unfold resolveSingleFetch_leader, resolveSingleFetch_dependent.
  destruct (Load _ _ _) as [shared lerr]. rewrite leaderCopy_spec. done.
Qed.

(** C3. Two calls with the same key, the second entering while the first
    is in flight: [Load] is invoked once, both calls end with the bytes of
    the shared record copied to their buffers, the key leaves the table and
    the record returns to the pool.  The dependent returns the error of the
    load; the leader returns it only when the load left neither data nor
    errors, and no error otherwise.  Whatever the calls and however they
    interleave, a record that a dependent may still read is not in the pool,
    and the goroutine that frees it is held back by its [waitFree]. *)
Theorem singleflight_leader_loses_the_load_error (fetch : SingleFetch)
    (preparedInput : bytes) (buf0 buf1 shared : BufPair) (lerr : option string) :
  DisallowSingleFlight fetch = false →
  Load (FetchDataSource fetch) preparedInput NewBufPair = (shared, lerr) →
  (∃ s, singleflight.run hash64 true Examples.overlapping
          (singleflight.initial
             [singleflight.start fetch preparedInput buf0;
              singleflight.start fetch preparedInput buf1])
          = Some s ∧
        singleflight.loads s
          = [(UniqueIdentifier (FetchDataSource fetch), preparedInput)] ∧
        (λ c, (singleflight.c_pc c, singleflight.c_buf c, singleflight.c_err c))
          <$> singleflight.calls s
          = [ (singleflight.Returned, dependentCopy shared buf0,
               if HasData shared || HasErrors shared then None
               else errExternal <$> lerr);
              (singleflight.Returned, dependentCopy shared buf1,
               errExternal <$> lerr) ] ∧
        singleflight.inflightFetches s = ∅ ∧
        singleflight.inflightFetchPool s = [0%nat]) ∧
  (∀ calls0 schedule s,
      Forall (λ c, singleflight.c_pc c = singleflight.Enter) calls0 →
      singleflight.run hash64 true schedule (singleflight.initial calls0) = Some s →
      ∀ i c r,
        singleflight.calls s !! i = Some c →
        singleflight.dependentOn c = Some r →
        (r ∉ singleflight.inflightFetchPool s) ∧
        ∃ x, singleflight.records s !! r = Some x
             ∧ (0 < singleflight.waitFree x)%nat).
Proof.
  intros Hd Hl. split.
  - unfold singleflight.run, Examples.overlapping, singleflight.initial.
    (* call 0 enters and becomes the leader *)
    cbn. rewrite Hd. cbn. rewrite lookup_empty. cbn.
    (* call 1 enters and finds the key *)
    rewrite Hd. cbn. rewrite lookup_insert_eq. cbn.
    (* the load, and the rest of the schedule *)
    rewrite Hl. cbn. rewrite leaderCopy_spec. cbn.
    eexists. split; [reflexivity|]. cbn.
    by rewrite delete_insert_eq, delete_empty.
  - intros calls0 schedule s. apply record_not_recycled.
Qed.

End ResolverTheorems.

(** ** The transformation scheduler *)

Section SchedulerFacts.

Import asttransform.

(** [a] is not behind [b] in the order of [ApplyTransformations]. *)
Local Abbreviation notAfter := (λ a b : action, less b a = false).

Lemma less_asym (a b : action) : less a b = true → less b a = false.
Proof.
  unfold less. repeat case_match; rewrite ?negb_true_iff, ?negb_false_iff in *; lia.
Qed.

Lemma notAfter_trans (a b c : action) : notAfter a b → notAfter b c → notAfter a c.
Proof.
  unfold less. repeat case_match; rewrite ?negb_true_iff, ?negb_false_iff in *; lia.
Qed.

Lemma notAfter_total (a b : action) : notAfter a b ∨ notAfter b a.
Proof.
  destruct (less b a) eqn:E; [|by left]. right. by apply less_asym.
Qed.

Lemma notAfter_antisym (a b : action) :
  notAfter a b → notAfter b a → precedence a = precedence b.
Proof.
  unfold less. destruct a as [[d1 o1] t1], b as [[d2 o2] t2]. cbn.
  repeat case_match; rewrite ?negb_true_iff, ?negb_false_iff in *;
    intros; f_equal; lia.
Qed.





(** Two sorted arrangements of actions with pairwise distinct precedences
    are the same list. *)
Lemma sorted_unique (l1 l2 : list action) :
  NoDup (precedence <$> l1) → l1 ≡ₚ l2 →
  StronglySorted notAfter l1 → StronglySorted notAfter l2 → l1 = l2.
Proof.
  revert l2. induction l1 as [|a l1 IH]; intros l2 Hnd Hp H1 H2.
  { by apply Permutation_nil_l in Hp. }
  destruct l2 as [|b l2]; [by apply Permutation_nil_r in Hp|].
  inversion_clear H1 as [|?? H1' Ha]. inversion_clear H2 as [|?? H2' Hb].
  apply NoDup_cons in Hnd as [Hin Hnd].
  assert (a = b) as <-.
  { assert (Hb1 : b ∈ a :: l1) by (rewrite Hp; left).
    assert (Ha2 : a ∈ b :: l2) by (rewrite <- Hp; left).
    apply elem_of_cons in Hb1 as [->|Hb1]; [done|].
    apply elem_of_cons in Ha2 as [->|Ha2]; [done|].
    exfalso. apply Hin.
    assert (E : precedence a = precedence b).
    { apply notAfter_antisym.
      - by eapply Forall_forall in Ha.
      - by eapply Forall_forall in Hb. }
    rewrite E. by apply list_elem_of_fmap_2. }
  f_equal. apply IH; try done. by apply Permutation_cons_inv in Hp.
Qed.


End SchedulerFacts.

(** ** Selection sets *)

Section SelectionSetFacts.

Context {Rest : Type}.
Implicit Types (d : ast.Document Rest) (ref : Z) (l refs : list Z).

(** An index expression succeeds on the non-negative positions of the slice. *)
Lemma index_Some {A} (xs : list A) (i : Z) (x : A) :
  ast.index xs i = Some x ↔ (0 ≤ i)%Z ∧ xs !! Z.to_nat i = Some x.
Proof.
  unfold ast.index. destruct (Z.ltb_spec i 0); split.
  - done.
  - intros [? _]. lia.
  - done.
  - by intros [_ ?].
Qed.

(** After an assignment to the references of a set, the set has them, and a
    second assignment overrides the first. *)
Lemma selectionRefs_set d ref l l' d' :
  ast.setSelectionRefs Rest d ref l = Some d' →
  ast.selectionRefs Rest d' ref = Some l ∧
  ast.setSelectionRefs Rest d' ref l' = ast.setSelectionRefs Rest d ref l'.
Proof.
  unfold ast.setSelectionRefs, ast.selectionRefs.
  destruct (ast.index (ast.SelectionSets Rest d) ref) as [x|] eqn:E; [|done].
  cbn. intros [= <-]. cbn.
  apply index_Some in E as [H0 E].
  assert (Hlt : (Z.to_nat ref < length (ast.SelectionSets Rest d))%nat)
    by (by eapply lookup_lt_Some).
  unfold ast.index. destruct (Z.ltb_spec ref 0); [lia|].
  rewrite list_lookup_insert_eq by done. cbn. split; [done|].
  unfold ast.withSelectionSets. cbn. by rewrite list_insert_insert_eq.
Qed.

(** Writing back the references a set already has changes nothing. *)
Lemma setSelectionRefs_id d ref l :
  ast.selectionRefs Rest d ref = Some l →
  ast.setSelectionRefs Rest d ref l = Some d.
Proof.
  unfold ast.selectionRefs, ast.setSelectionRefs.
  destruct (ast.index _ _) as [s|] eqn:E; [|done]. cbn. intros [= <-].
  apply index_Some in E as [_ E].
  rewrite list_insert_id. 2:{ rewrite E. by destruct s. }
  by destruct d.
Qed.

Lemma index_nonneg {A} (l : list A) (i : Z) :
  (0 ≤ i)%Z → ast.index l i = l !! Z.to_nat i.
Proof. intros. unfold ast.index. by destruct (Z.ltb_spec i 0); [lia|]. Qed.

(** Reading and writing the references of a set, on a document given by its
    array of selection sets. *)
Lemma selectionRefs_insert_eq d sets (r : Z) (i : nat) refs :
  (0 ≤ r)%Z → Z.to_nat r = i → (i < length sets)%nat →
  ast.selectionRefs Rest (ast.withSelectionSets Rest d (<[i := ast.mkSelectionSet refs]> sets)) r
    = Some refs.
Proof.
  intros ? <- ?. unfold ast.selectionRefs. cbn. rewrite index_nonneg by done.
  by rewrite list_lookup_insert_eq.
Qed.

Lemma selectionRefs_insert_ne d sets (r : Z) (i : nat) x :
  Z.to_nat r ≠ i →
  ast.selectionRefs Rest (ast.withSelectionSets Rest d (<[i := x]> sets)) r
    = ast.selectionRefs Rest (ast.withSelectionSets Rest d sets) r.
Proof.
  intros. unfold ast.selectionRefs, ast.index. cbn.
  destruct (r <? 0)%Z; [done|]. by rewrite list_lookup_insert_ne.
Qed.

Lemma setSelectionRefs_withSets d sets (r : Z) refs :
  (0 ≤ r)%Z → (Z.to_nat r < length sets)%nat →
  ast.setSelectionRefs Rest (ast.withSelectionSets Rest d sets) r refs
    = Some (ast.withSelectionSets Rest d (<[Z.to_nat r := ast.mkSelectionSet refs]> sets)).
Proof.
  intros. unfold ast.setSelectionRefs. cbn. rewrite index_nonneg by done.
  by destruct (lookup_lt_is_Some_2 sets (Z.to_nat r)) as [? ->].
Qed.

Lemma RemoveFromSelectionSet_withSets d sets (r : Z) refs (idx : nat) :
  (0 ≤ r)%Z → (Z.to_nat r < length sets)%nat →
  ast.selectionRefs Rest (ast.withSelectionSets Rest d sets) r = Some refs →
  (idx < length refs)%nat →
  ast.RemoveFromSelectionSet Rest (ast.withSelectionSets Rest d sets) r (Z.of_nat idx)
    = Some (ast.withSelectionSets Rest d
              (<[Z.to_nat r := ast.mkSelectionSet (take idx refs ++ drop (S idx) refs)]>
                 sets)).
Proof.
  intros ?? Hr ?. unfold ast.RemoveFromSelectionSet. rewrite Hr. cbn.
  rewrite bool_decide_eq_true_2 by lia.
  rewrite setSelectionRefs_withSets by done.
  rewrite Nat2Z.id. by replace (Z.to_nat (Z.of_nat idx + 1)) with (S idx) by lia.
Qed.

End SelectionSetFacts.

(** ** Deletion of invalid inline fragments *)

Section DeleteFacts.
Context {Rest : Type}.
Variable TypeNameBytes : Rest → Z → option bytes.
Variable FirstNonExtensionNodeByNameBytes : option bytes → option ast.Node.
Variable NodeFragmentIsAllowedOnNode : ast.Node → ast.Node → bool.
Variable EnclosingTypeDefinition : ast.Node.

Local Abbreviation isInvalid :=
  (astnormalization.isInvalidInlineFragment TypeNameBytes
     FirstNonExtensionNodeByNameBytes NodeFragmentIsAllowedOnNode
     EnclosingTypeDefinition).
Local Abbreviation deleteFrom :=
  (astnormalization.deleteInvalidFrom TypeNameBytes
     FirstNonExtensionNodeByNameBytes NodeFragmentIsAllowedOnNode
     EnclosingTypeDefinition).
Local Abbreviation Enter :=
  (astnormalization.EnterSelectionSet TypeNameBytes
     FirstNonExtensionNodeByNameBytes NodeFragmentIsAllowedOnNode
     EnclosingTypeDefinition).

Implicit Types (d operation : ast.Document Rest) (ref : Z) (l : list Z).

(** The loop body never reads a selection set: what it decides about a
    selection is the same whatever the selection sets hold. *)
Lemma isInvalid_selectionSets d sets selection :
  isInvalid (ast.withSelectionSets Rest d sets) selection = isInvalid d selection.
Proof. reflexivity. Qed.

Lemma isInvalid_set d ref l d' selection :
  ast.setSelectionRefs Rest d ref l = Some d' →
  isInvalid d' selection = isInvalid d selection.
Proof.
  unfold ast.setSelectionRefs.
  destruct (ast.index _ _); [|done]. cbn. by intros [= <-].
Qed.

(** [RemoveFromSelectionSet] on a set whose references were just assigned. *)
Lemma RemoveFromSelectionSet_set d ref l d' (idx : nat) :
  ast.setSelectionRefs Rest d ref l = Some d' →
  (idx < length l)%nat →
  ast.RemoveFromSelectionSet Rest d' ref (Z.of_nat idx)
    = ast.setSelectionRefs Rest d ref (take idx l ++ drop (S idx) l).
Proof.
  intros Hd Hidx. unfold ast.RemoveFromSelectionSet.
  destruct (selectionRefs_set d ref l (take idx l ++ drop (S idx) l) d' Hd) as [-> E].
  cbn. rewrite bool_decide_eq_true_2 by lia.
  replace (Z.to_nat (Z.of_nat idx + 1)) with (S idx) by lia.
  by rewrite Nat2Z.id.
Qed.

(** Whether an assignment succeeds depends on the set alone. *)
Lemma setSelectionRefs_total d ref l l' d' :
  ast.setSelectionRefs Rest d ref l = Some d' →
  is_Some (ast.setSelectionRefs Rest d ref l').
Proof.
  unfold ast.setSelectionRefs. destruct (ast.index _ _); [|done]. cbn. eauto.
Qed.

(** A removal at [idx] leaves the positions before [idx] of the local slice
    as they were. *)
Lemma take_selectionsAfterRemove selections m idx :
  (idx ≤ length selections)%nat →
  take idx (astnormalization.selectionsAfterRemove selections m idx)
    = take idx selections.
Proof.
  intros. unfold astnormalization.selectionsAfterRemove.
  rewrite take_app_length'; [done|]. rewrite length_take. lia.
Qed.

(** The loop invariant: before position [n-1] is visited, the set holds the
    first [n] references as they were, followed by those of the others that
    are kept. *)
Lemma deleteInvalidFrom_filter operation ref refs n selections d :
  Forall (λ selection, is_Some (isInvalid operation selection)) refs →
  (n ≤ length refs)%nat →
  take n selections = take n refs →
  ast.setSelectionRefs Rest operation ref
    (take n refs ++ filter (λ s, isInvalid operation s = Some false) (drop n refs)) = Some d →
  deleteFrom n selections d ref
    = ast.setSelectionRefs Rest operation ref (filter (λ s, isInvalid operation s = Some false) refs).
Proof.
  intros Hall. revert selections d.
  induction n as [|idx IH]; intros selections d Hn Hsel Hd.
  - cbn in *. by rewrite drop_0 in Hd.
  - cbn [astnormalization.deleteInvalidFrom].
    destruct (lookup_lt_is_Some_2 refs idx) as [x Hx]; [lia|].
    assert (Hsx : selections !! idx = Some x).
    { rewrite <- (lookup_take_lt _ (S idx)) by lia. rewrite Hsel.
      rewrite lookup_take_lt by lia. done. }
    assert (Hsel' : take idx selections = take idx refs).
    { replace idx with (idx `min` S idx)%nat at 1 2 by lia.
      by rewrite <- !take_take, Hsel. }
    rewrite Hsx. cbn.
    rewrite (isInvalid_set _ _ _ _ _ Hd).
    destruct (proj1 (Forall_lookup _ _) Hall _ _ Hx) as [b Hb].
    rewrite Hb. cbn.
    rewrite (take_S_r _ _ _ Hx) in Hd.
    assert (Hlen : length (take idx refs) = idx) by (rewrite length_take; lia).
    set (K := filter _ (drop (S idx) refs)) in *.
    destruct b.
    + assert (HK : filter (λ s, isInvalid operation s = Some false) (drop idx refs) = K).
      { rewrite (drop_S _ _ _ Hx). rewrite filter_cons_False; [done|].
        by rewrite Hb. }
      destruct (selectionRefs_set _ _ _ [] _ Hd) as [-> _]. cbn.
      erewrite RemoveFromSelectionSet_set; [|exact Hd|].
      2:{ rewrite !List.length_app, Hlen. cbn. lia. }
      rewrite (drop_app_length' _ _ (S idx)).
      2:{ rewrite List.length_app. cbn. lia. }
      rewrite <- List.app_assoc. rewrite take_app_length' by done.
      destruct (setSelectionRefs_total _ _ _ (take idx refs ++ K) _ Hd) as [d' Hd'].
      rewrite Hd'. cbn. apply IH.
      * lia.
      * rewrite take_selectionsAfterRemove; [done|].
        apply lookup_lt_Some in Hsx. lia.
      * by rewrite HK.
    + apply IH; [lia|done|].
      rewrite (drop_S _ _ _ Hx). rewrite filter_cons_True.
      2:{ by rewrite Hb. }
      by rewrite <- List.app_assoc in Hd.
Qed.

(** [EnterSelectionSet] removes from the set exactly the inline fragments
    whose type condition names a type that is not allowed on the enclosing
    type. *)
Lemma EnterSelectionSet_filter operation ref refs :
  ast.selectionRefs Rest operation ref = Some refs →
  Forall (λ selection, is_Some (isInvalid operation selection)) refs →
  Enter operation ref
    = ast.setSelectionRefs Rest operation ref (filter (λ s, isInvalid operation s = Some false) refs).
Proof.
  intros Hrefs Hall. unfold astnormalization.EnterSelectionSet.
  rewrite Hrefs. cbn.
  pose proof (setSelectionRefs_id _ _ _ Hrefs) as Hid.
  destruct (Z.eqb_spec (Z.of_nat (length refs)) 0) as [H0|H0].
  - destruct refs; [|cbn in H0; lia]. by rewrite filter_nil.
  - apply deleteInvalidFrom_filter; [done|lia|done|].
    by rewrite drop_all, filter_nil, List.app_nil_r, firstn_all.
Qed.

(** C10. [EnterSelectionSet] leaves in the set, in their order, the
    selections that are not inline fragments on a type that is not allowed on
    the enclosing type, and removes the others.  An inline fragment on an
    allowed type stays in the set when it has no selections or its selection
    set is empty. *)
Theorem empty_inline_fragment_is_kept operation ref refs
    (i : nat) selection s f typeName node :
  ast.selectionRefs Rest operation ref = Some refs →
  Forall (λ selection, is_Some (isInvalid operation selection)) refs →
  refs !! i = Some selection →
  ast.index (ast.Selections Rest operation) selection = Some s →
  ast.Kind s = ast.SelectionKindInlineFragment →
  ast.index (ast.InlineFragments Rest operation) (ast.Ref s) = Some f →
  ast.HasSelections f = false
    ∨ ast.selectionRefs Rest operation (ast.InlineFragmentSelectionSet f) = Some [] →
  ast.InlineFragmentTypeConditionName Rest TypeNameBytes operation (ast.Ref s)
    = Some typeName →
  FirstNonExtensionNodeByNameBytes typeName = Some node →
  NodeFragmentIsAllowedOnNode node EnclosingTypeDefinition = true →
  ∃ d,
    Enter operation ref = Some d ∧
    ast.setSelectionRefs Rest operation ref
      (filter (λ s, isInvalid operation s = Some false) refs) = Some d ∧
    ast.selectionRefs Rest d ref
      = Some (filter (λ s, isInvalid operation s = Some false) refs) ∧
    selection ∈ filter (λ s, isInvalid operation s = Some false) refs.
Proof.
  intros Hrefs Hall Hi Hs Hkind Hf _ Hname Hnode Hallowed.
  rewrite (EnterSelectionSet_filter _ _ _ Hrefs Hall).
  pose proof (setSelectionRefs_id _ _ _ Hrefs) as Hd0.
  destruct (setSelectionRefs_total _ _ _
              (filter (λ s, isInvalid operation s = Some false) refs) _ Hd0)
    as [d Hd].
  exists d. split; [done|]. split; [done|]. split.
  - by destruct (selectionRefs_set _ _ _ [] _ Hd).
  - apply list_elem_of_filter. split; [|by eapply list_elem_of_lookup_2].
    unfold astnormalization.isInvalidInlineFragment.
    rewrite Hs. cbn. rewrite bool_decide_eq_true_2 by done. cbn.
    rewrite Hname. cbn. by rewrite Hnode, Hallowed.
Qed.

End DeleteFacts.

(** ** Expansion of interface selection sets *)

Section ReverseFacts.

(** A swap of two positions of the slice. *)
Lemma swap_Some (refs : list Z) (i j : nat) x y :
  refs !! i = Some x → refs !! j = Some y →
  ast.swap refs i j = Some (<[j := x]> (<[i := y]> refs)).
Proof. unfold ast.swap. by intros -> ->. Qed.

(** The later rounds of the reversal loop leave alone the positions before
    the loop variable, the last one apart. *)
Lemma reverseRefsFrom_before (k i : nat) (refs : list Z) :
  (i + k < length refs)%nat →
  ∃ r, ast.reverseRefsFrom k i refs = Some r ∧ length r = length refs ∧
       ∀ p, (p < i)%nat → (p ≠ length refs - 1)%nat → r !! p = refs !! p.
Proof.
  revert i refs. induction k as [|k IH]; intros i refs Hlen.
  - exists refs. by cbn.
  - cbn [ast.reverseRefsFrom].
    destruct (lookup_lt_is_Some_2 refs i) as [x Hx]; [lia|].
    destruct (lookup_lt_is_Some_2 refs (length refs - 1)) as [y Hy]; [lia|].
    rewrite (swap_Some _ _ _ _ _ Hx Hy). cbn.
    set (refs' := <[length refs - 1 := x]> (<[i := y]> refs)).
    assert (Hl : length refs' = length refs)
      by (unfold refs'; by rewrite !length_insert).
    destruct (IH (S i) refs') as (r & Hr & Hrl & Hrp); [lia|].
    exists r. split; [done|]. split; [lia|].
    intros p Hp Hne. rewrite Hrp by lia.
    unfold refs'. rewrite list_lookup_insert_ne by lia.
    by rewrite list_lookup_insert_ne by lia.
Qed.

(** From four references on, the loop puts the first reference second, where
    the reversed list has the last but one. *)
Lemma reverseRefs_second (refs : list Z) :
  (4 ≤ length refs)%nat →
  ∃ r, ast.reverseRefs refs = Some r ∧ length r = length refs ∧
       r !! 1%nat = refs !! 0%nat.
Proof.
  intros Hlen. unfold ast.reverseRefs.
  assert (Hk : ∃ k, (length refs / 2 = S (S k))%nat ∧ (2 + k < length refs)%nat).
  { exists (length refs / 2 - 2)%nat.
    pose proof (Nat.div_mod_eq (length refs) 2).
    pose proof (Nat.mod_upper_bound (length refs) 2). lia. }
  destruct Hk as (k & -> & Hk).
  cbn [ast.reverseRefsFrom].
  destruct (lookup_lt_is_Some_2 refs 0) as [x0 H0]; [lia|].
  destruct (lookup_lt_is_Some_2 refs 1) as [x1 H1]; [lia|].
  destruct (lookup_lt_is_Some_2 refs (length refs - 1)) as [y Hy]; [lia|].
  rewrite (swap_Some _ _ _ _ _ H0 Hy). cbn.
  set (refs1 := <[length refs - 1 := x0]> (<[0%nat := y]> refs)).
  assert (Hl1 : length refs1 = length refs)
    by (unfold refs1; by rewrite !length_insert).
  rewrite Hl1.
  assert (H11 : refs1 !! 1%nat = Some x1).
  { unfold refs1. rewrite list_lookup_insert_ne by lia.
    by rewrite list_lookup_insert_ne by lia. }
  assert (H1l : refs1 !! (length refs - 1)%nat = Some x0).
  { unfold refs1. apply list_lookup_insert_eq. rewrite length_insert. lia. }
  rewrite (swap_Some _ _ _ _ _ H11 H1l). cbn.
  set (refs2 := <[length refs - 1 := x1]> (<[1%nat := x0]> refs1)).
  assert (Hl2 : length refs2 = length refs)
    by (unfold refs2; by rewrite !length_insert).
  destruct (reverseRefsFrom_before k 2 refs2) as (r & Hr & Hrl & Hrp); [lia|].
  exists r. split; [done|]. split; [lia|].
  rewrite Hrp by lia. unfold refs2.
  rewrite list_lookup_insert_ne by lia.
  rewrite H0. apply list_lookup_insert_eq. lia.
Qed.

(** So the loop does not undo a reversal of four or more distinct
    references. *)
Lemma reverseRefs_reverse (refs : list Z) :
  NoDup refs → (4 ≤ length refs)%nat →
  ∃ r, ast.reverseRefs (reverse refs) = Some r ∧ r ≠ refs.
Proof.
  intros Hnd Hlen.
  destruct (reverseRefs_second (reverse refs)) as (r & Hr & Hrl & Hr1).
  { by rewrite length_reverse. }
  exists r. split; [done|]. intros ->.
  destruct (lookup_lt_is_Some_2 refs 1) as [x Hx]; [lia|].
  rewrite Hx in Hr1. symmetry in Hr1.
  rewrite reverse_lookup in Hr1 by lia.
  pose proof (NoDup_lookup _ _ _ _ Hnd Hx Hr1). lia.
Qed.

(** The reversal loop on four references: the last three are rotated. *)
Lemma reverseRefs_four (a b c d : Z) :
  ast.reverseRefs [d; c; b; a] = Some [a; d; b; c].
Proof. reflexivity. Qed.

(** Up to three references the loop does reverse. *)
Lemma reverseRefs_short (refs : list Z) :
  (length refs ≤ 3)%nat → ast.reverseRefs refs = Some (reverse refs).
Proof.
  destruct refs as [|a [|b [|c [|d refs]]]]; cbn; intros; (reflexivity || lia).
Qed.

End ReverseFacts.

Section MoveFacts.
Context {Rest : Type}.
Variable CopyField : ast.Document Rest → Z → option (ast.Document Rest * Z).
Variable CopyFragmentSpread : ast.Document Rest → Z → option (ast.Document Rest * Z).
Variable CopyDirectiveList :
  ast.Document Rest → ast.DirectiveList → option (ast.Document Rest * ast.DirectiveList).
Variable FieldNameBytes : Rest → Z → option bytes.
Variable AddNamedType : Rest → bytes → Rest * Z.

Local Abbreviation isFieldToMove := (ast.isFieldToMove Rest FieldNameBytes).
Local Abbreviation moveFieldSelections := (ast.moveFieldSelections Rest FieldNameBytes).
Local Abbreviation moved d refs := (filter (λ s, isFieldToMove d s = Some true) refs).
Local Abbreviation unmoved d refs := (filter (λ s, isFieldToMove d s = Some false) refs).
Local Abbreviation withSets := (ast.withSelectionSets Rest).

Implicit Types (d : ast.Document Rest) (refs staged : list Z).

(** The loop invariant of the first loop: before position [n-1] is visited,
    the set holds the first [n] references as they were, followed by those of
    the others that stay, and the staging set has received the moved ones
    from the last to the first. *)
Lemma moveFieldSelections_from d (set staging : Z) refs staged sets (n : nat) :
  (0 ≤ set)%Z → (0 ≤ staging)%Z → Z.to_nat set ≠ Z.to_nat staging →
  (Z.to_nat set < length sets)%nat → (Z.to_nat staging < length sets)%nat →
  Forall (λ selection, is_Some (isFieldToMove d selection)) refs →
  (n ≤ length refs)%nat →
  moveFieldSelections n
    (withSets d
       (<[Z.to_nat staging :=
            ast.mkSelectionSet (staged ++ reverse (moved d (drop n refs)))]>
          (<[Z.to_nat set :=
               ast.mkSelectionSet (take n refs ++ unmoved d (drop n refs))]> sets)))
    set staging
  = Some (withSets d
            (<[Z.to_nat staging := ast.mkSelectionSet (staged ++ reverse (moved d refs))]>
               (<[Z.to_nat set := ast.mkSelectionSet (unmoved d refs)]> sets))).
Proof.
  intros Hs Hg Hne Hsl Hgl Hall. induction n as [|idx IH]; intros Hn.
  - by rewrite drop_0.
  - cbn [ast.moveFieldSelections].
    destruct (lookup_lt_is_Some_2 refs idx) as [x Hx]; [lia|].
    assert (Hlen : length (take idx refs) = idx) by (rewrite length_take; lia).
    rewrite selectionRefs_insert_ne by done.
    rewrite selectionRefs_insert_eq by done. cbn.
    rewrite index_nonneg by lia. rewrite Nat2Z.id.
    rewrite (take_S_r _ _ _ Hx).
    rewrite <- List.app_assoc.
    rewrite lookup_app_r by lia. rewrite Hlen, Nat.sub_diag. cbn.
    change (ast.isFieldToMove Rest FieldNameBytes (withSets d ?l) x)
      with (isFieldToMove d x).
    destruct (proj1 (Forall_lookup _ _) Hall _ _ Hx) as [b Hb]. rewrite Hb. cbn.
    specialize (IH ltac:(lia)). rewrite (drop_S _ _ _ Hx) in IH.
    destruct b.
    + rewrite filter_cons_True in IH by done.
      rewrite filter_cons_False in IH by (by rewrite Hb).
      rewrite reverse_cons, List.app_assoc in IH.
      rewrite (list_insert_insert_ne _ (Z.to_nat staging) (Z.to_nat set)) by done.
      rewrite (RemoveFromSelectionSet_withSets _ _ _
                 (take idx refs ++ [x] ++ unmoved d (drop (S idx) refs))).
      2:{ done. }
      2:{ by rewrite !length_insert. }
      2:{ apply selectionRefs_insert_eq; [done|done|]. by rewrite length_insert. }
      2:{ rewrite List.length_app, Hlen. cbn. lia. }
      cbn. rewrite list_insert_insert_eq.
      rewrite (list_insert_insert_ne _ (Z.to_nat set) (Z.to_nat staging)) by done.
      rewrite selectionRefs_insert_eq by (by rewrite ?length_insert). cbn.
      rewrite setSelectionRefs_withSets by (by rewrite ?length_insert). cbn.
      rewrite list_insert_insert_eq.
      rewrite take_app_length' by done.
      assert (E : ∀ K, drop (S idx) (take idx refs ++ x :: K) = K).
      { intros K. rewrite cons_middle, List.app_assoc.
        apply drop_app_length'. rewrite List.length_app, Hlen. cbn. lia. }
      rewrite E. exact IH.
    + rewrite filter_cons_False in IH by (by rewrite Hb).
      rewrite filter_cons_True in IH by done.
      exact IH.
Qed.

Local Abbreviation ExpandInterfaceSelectionSet :=
  (ast.ExpandInterfaceSelectionSet Rest CopyField CopyFragmentSpread
     CopyDirectiveList FieldNameBytes AddNamedType).
Local Abbreviation addExpandedFragments :=
  (ast.addExpandedFragments Rest CopyField CopyFragmentSpread
     CopyDirectiveList AddNamedType).

(** When no selection is moved, all of them stay. *)
Lemma unmoved_all d refs :
  Forall (λ selection, is_Some (isFieldToMove d selection)) refs →
  moved d refs = [] → unmoved d refs = refs.
Proof.
  induction 1 as [|x refs [b Hb] _ IH]; [done|].
  destruct b.
  - by rewrite filter_cons_True.
  - rewrite filter_cons_False by (by rewrite Hb).
    rewrite filter_cons_True by done. intros ?. f_equal. auto.
Qed.

(** [ExpandInterfaceSelectionSet] up to the loop over the type names: the
    set keeps the selections that are not moved, in their order, and the
    staging set holds what the reversal loop makes of the moved fields, taken
    from the last to the first.  When no field is moved, all that happens to
    the document is that two empty selection sets are added. *)
Lemma ExpandInterfaceSelectionSet_staged fuel d (set : Z) names refs :
  ast.selectionRefs Rest d set = Some refs →
  Forall (λ selection, is_Some (isFieldToMove d selection)) refs →
  ExpandInterfaceSelectionSet fuel d set names
  = if decide (moved d refs = []) then
      Some (withSets d (ast.SelectionSets Rest d
                          ++ [ast.mkSelectionSet []; ast.mkSelectionSet []]))
    else
      staged ← ast.reverseRefs (reverse (moved d refs));
      d' ← addExpandedFragments fuel names
             (withSets d
                (<[S (length (ast.SelectionSets Rest d)) := ast.mkSelectionSet staged]>
                   (<[Z.to_nat set := ast.mkSelectionSet (unmoved d refs)]>
                      (ast.SelectionSets Rest d
                         ++ [ast.mkSelectionSet []; ast.mkSelectionSet []]))))
             (Z.of_nat (length (ast.SelectionSets Rest d)))
             (Z.of_nat (S (length (ast.SelectionSets Rest d))));
      ast.AppendSelectionSet Rest d' set (Z.of_nat (length (ast.SelectionSets Rest d))).
Proof.
  intros Hrefs Hall.
  set (sets := ast.SelectionSets Rest d) in *.
  set (sets2 := sets ++ [ast.mkSelectionSet []; ast.mkSelectionSet []]).
  assert (Hset : (0 ≤ set)%Z ∧ ∃ s0, sets !! Z.to_nat set = Some s0
                                    ∧ ast.SelectionRefs s0 = refs).
  { revert Hrefs. unfold ast.selectionRefs, ast.index. fold sets.
    destruct (Z.ltb_spec set 0); [done|].
    destruct (sets !! Z.to_nat set) as [s0|] eqn:E; [|done].
    cbn. intros [= <-]. eauto. }
  destruct Hset as (Hs & s0 & Hs0 & Hs0r).
  pose proof (lookup_lt_Some _ _ _ Hs0) as Hsl.
  assert (Hl2 : length sets2 = S (S (length sets))).
  { unfold sets2. rewrite List.length_app. cbn. lia. }
  assert (Hid1 : <[Z.to_nat set := ast.mkSelectionSet refs]> sets2 = sets2).
  { apply list_insert_id. unfold sets2. rewrite lookup_app_l by done.
    rewrite Hs0, <- Hs0r. by destruct s0. }
  assert (Hid2 : <[S (length sets) := ast.mkSelectionSet []]> sets2 = sets2).
  { apply list_insert_id. unfold sets2. rewrite lookup_app_r by lia.
    by replace (S (length sets) - length sets)%nat with 1%nat by lia. }
  unfold ast.ExpandInterfaceSelectionSet, ast.AddSelectionSet,
    ast.AddSelectionSetToDocument.
  cbn [ast.SelectionSets ast.withSelectionSets].
  change (ast.withSelectionSets Rest (ast.withSelectionSets Rest d ?a) ?b)
    with (withSets d b).
  fold sets.
  replace ((sets ++ [ast.mkSelectionSet []]) ++ [ast.mkSelectionSet []])
    with sets2 by (unfold sets2; by rewrite <- List.app_assoc).
  replace (Z.of_nat (length (sets ++ [ast.mkSelectionSet []])))
    with (Z.of_nat (S (length sets))) by (rewrite List.length_app; cbn; lia).
  assert (Hrefs2 : ast.selectionRefs Rest (withSets d sets2) set = Some refs).
  { unfold ast.selectionRefs. cbn. rewrite index_nonneg by done.
    unfold sets2. rewrite lookup_app_l by done. by rewrite Hs0, <- Hs0r. }
  rewrite Hrefs2. cbn -[ast.reverseRefs].
  pose proof (moveFieldSelections_from d set (Z.of_nat (S (length sets))) refs []
                sets2 (length refs)) as Hmove.
  rewrite Nat2Z.id in Hmove.
  rewrite drop_all, firstn_all in Hmove.
  rewrite !filter_nil in Hmove.
  change ([] ++ reverse []) with (@nil Z) in Hmove.
  rewrite (List.app_nil_r refs), Hid1, Hid2 in Hmove.
  rewrite Hmove by (done || lia). clear Hmove. cbn -[ast.reverseRefs].
  rewrite selectionRefs_insert_eq by (rewrite ?length_insert; lia).
  cbn -[ast.reverseRefs].
  destruct (decide (moved d refs = [])) as [Hnil|Hne].
  - rewrite Hnil. cbn. by rewrite (unmoved_all _ _ Hall Hnil), Hid1, Hid2.
  - destruct (Z.eqb_spec (Z.of_nat (length (reverse (moved d refs)))) 0) as [H0|H0].
    { rewrite length_reverse in H0. by destruct (moved d refs). }
    destruct (ast.reverseRefs _) as [staged|]; [|done]. cbn.
    rewrite setSelectionRefs_withSets by (rewrite ?length_insert; lia).
    cbn. by rewrite Nat2Z.id, list_insert_insert_eq.
Qed.

(** C8. From four moved fields on, the staging set of
    [ExpandInterfaceSelectionSet], of which every inline fragment gets a
    clone, does not hold the fields in their declared order: the last moved
    field comes second. *)
Theorem expansion_of_four_fields_loses_the_order fuel d (set : Z) names refs :
  ast.selectionRefs Rest d set = Some refs →
  Forall (λ selection, is_Some (isFieldToMove d selection)) refs →
  NoDup (moved d refs) →
  (4 ≤ length (moved d refs))%nat →
  ∃ staged,
    ast.reverseRefs (reverse (moved d refs)) = Some staged ∧
    staged !! 1%nat = last (moved d refs) ∧
    staged ≠ moved d refs ∧
    ExpandInterfaceSelectionSet fuel d set names
    = (d' ← addExpandedFragments fuel names
              (withSets d
                 (<[S (length (ast.SelectionSets Rest d)) := ast.mkSelectionSet staged]>
                    (<[Z.to_nat set := ast.mkSelectionSet (unmoved d refs)]>
                       (ast.SelectionSets Rest d
                          ++ [ast.mkSelectionSet []; ast.mkSelectionSet []]))))
              (Z.of_nat (length (ast.SelectionSets Rest d)))
              (Z.of_nat (S (length (ast.SelectionSets Rest d))));
       ast.AppendSelectionSet Rest d' set
         (Z.of_nat (length (ast.SelectionSets Rest d)))).
Proof.
  intros Hrefs Hall Hnd Hlen.
  destruct (reverseRefs_second (reverse (moved d refs))) as (staged & Hr & Hrl & Hr1).
  { by rewrite length_reverse. }
  assert (Hlast : staged !! 1%nat = last (moved d refs)).
  { rewrite Hr1, reverse_lookup by lia. rewrite last_lookup.
    f_equal. lia. }
  exists staged. split; [done|]. split; [done|]. split.
  - intros ->.
    destruct (lookup_lt_is_Some_2 (moved d refs) 1) as [x Hx]; [lia|].
    rewrite Hx, last_lookup in Hlast. symmetry in Hlast.
    pose proof (NoDup_lookup _ _ _ _ Hnd Hx Hlast). lia.
  - rewrite (ExpandInterfaceSelectionSet_staged _ _ _ _ _ Hrefs Hall).
    destruct (decide (moved d refs = [])) as [Hnil|_].
    { rewrite Hnil in Hlen. cbn in Hlen. lia. }
    by rewrite Hr.
Qed.

End MoveFacts.

(** ** Selection-set surgery on concrete documents *)

Section AstTheorems.

Import Bytes Examples.

(** On [{ a b c d }] and the concrete type [Dog],
    [ExpandInterfaceSelectionSet] leaves the staging set (set 2) as the
    selections of [a d b c], and the fragment [... on Dog] appended to the set
    selects the copies in that order; on [{ a b c }] the declared order is
    kept. *)
Lemma ExpandInterfaceSelectionSet_examples :
  (d ← ExpandInterfaceSelectionSet fourFields 0 ["Dog"]; ast.selectionRefs names d 2)
    = Some [0; 3; 1; 2]%Z ∧
  (d ← ExpandInterfaceSelectionSet fourFields 0 ["Dog"]; fieldNamesOf d 3)
    = Some ["a"; "d"; "b"; "c"] ∧
  (d ← ExpandInterfaceSelectionSet threeFields 0 ["Dog"]; fieldNamesOf d 3)
    = Some ["a"; "b"; "c"].
Proof. repeat split; vm_compute; reflexivity. Qed.

(** C8 on [{ a b c d }]: the four fields are staged from the last to the
    first, and the reversal loop leaves [d] in the second place. *)
Lemma expansion_of_four_fields_loses_the_order_witness :
  ∃ staged,
    ast.reverseRefs [3; 2; 1; 0]%Z = Some staged ∧ staged !! 1%nat = Some 3%Z ∧
    staged ≠ [0; 1; 2; 3]%Z.
Proof.
  destruct (expansion_of_four_fields_loses_the_order CopyField CopyFragmentSpread
              CopyDirectiveList FieldNameBytes AddNamedType 2 fourFields 0 ["Dog"]
              [0; 1; 2; 3]%Z)
    as (staged & Hr & H1 & Hne & _).
  - reflexivity.
  - repeat constructor; vm_compute; eauto.
  - vm_compute. apply (bool_decide_unpack _). vm_compute. exact I.
  - vm_compute. lia.
  - exists staged. done.
Defined.

(** On [dog { ... on Dog { barkVolume } ... on Cat { meowVolume } }] with the
    enclosing type [Dog], [EnterSelectionSet] removes the fragment on
    [Cat]. *)
Lemma EnterSelectionSet_examples :
  (d ← EnterSelectionSet dogWithCatFragment 0; ast.selectionRefs names d 0)
    = Some [0%Z].
Proof. vm_compute; reflexivity. Qed.

(** C10 on [dog { ... on Dog { barkVolume } ... on Dog {} }] with the
    enclosing type [Dog]: the document is left as it is, the fragment with
    the empty selection set stays. *)
Lemma empty_inline_fragment_is_kept_witness :
  EnterSelectionSet dogWithEmptyFragment 0 = Some dogWithEmptyFragment ∧
  ast.selectionRefs names dogWithEmptyFragment 0 = Some [0; 1]%Z.
Proof.
  destruct (empty_inline_fragment_is_kept TypeNameBytes
              FirstNonExtensionNodeByNameBytes NodeFragmentIsAllowedOnNode dogNode
              dogWithEmptyFragment 0 [0; 1]%Z 1 1%Z
              (inlineFragmentSelection 1) (inlineFragmentOn 1 2)
              (Some "Dog") dogNode)
    as (d & Hd & Hset & Hrefs & _).
  - reflexivity.
  - repeat constructor; vm_compute; eauto.
  - reflexivity.
  - reflexivity.
  - reflexivity.
  - reflexivity.
  - right. reflexivity.
  - reflexivity.
  - reflexivity.
  - reflexivity.
  - vm_compute in Hset. injection Hset as <-. split; [exact Hd|reflexivity].
Defined.

End AstTheorems.

(** ** The properties on concrete inputs *)

Section Witnesses.

Import Bytes resolve Spec Examples.

Local Abbreviation run get each :=
  (resolveNode get each noHash firstWins false ctx0).
Local Abbreviation respond get each node data :=
  (ResolveGraphQLResponse get each noHash firstWins false bytes bufferWrite ctx0
     {| ResponseData := node |} data "").



Lemma envelope_keys_errors_with_capital_witness :
  respond aGet (tableArrayEach []) boomPlan None
    = ("" +:+ "{" +:+ quoted "Errors" +:+ ":[" +:+ boomError +:+ "]"
          +:+ "," +:+ quoted "data" +:+ ":" +:+ ("{" +:+ quoted "a" +:+ ":1}")
          +:+ "}", None).
Proof.
  apply (envelope_keys_errors_with_capital aGet (tableArrayEach []) noHash firstWins
           false ctx0 {| ResponseData := boomPlan |} None ""
           {| Data := "{" +:+ quoted "a" +:+ ":1}"; Errors := boomError |}).
  - vm_compute. reflexivity.
  - vm_compute. discriminate.
Defined.



(** C5, counterexample. A nullable object whose only field set is skipped
    returns no sentinel, it emits [null]; in an array the skipped item shows
    as a [null] entry followed by a separator. *)
Lemma nullable_object_is_not_skipped :
  run petsGet petsEach (dogObject true) (Some catDoc) NewBufPair
    = ({| Data := "null"; Errors := "" |}, None) ∧
  run petsGet petsEach (dogsPlan true false) (Some petsDoc) NewBufPair
    = ({| Data := "[null,{" +:+ quoted "x" +:+ ":1}]"; Errors := "" |}, None).
Proof. split; vm_compute; reflexivity. Qed.

Lemma typename_skip_of_objects_witness :
  (∀ buf, run petsGet petsEach (dogObject false) (Some catDoc) buf
            = (buf, Some errTypeNameSkipped)) ∧
  resolveArraySynchronous (run petsGet petsEach) false (dogObject false)
      [Some catDoc; Some dogDoc] NewBufPair
    = resolveArraySynchronous (run petsGet petsEach) false (dogObject false)
        [Some dogDoc] NewBufPair.
Proof.
  destruct (typename_skip_of_objects petsGet petsEach noHash firstWins false ctx0)
    as [HO HA].
  assert (H : ∀ buf, run petsGet petsEach (dogObject false) (Some catDoc) buf
                       = (buf, Some errTypeNameSkipped)).
  { intros buf.
    apply (HO [] _ None (Some catDoc) buf None buf); [discriminate|reflexivity|].
    repeat constructor. }
  split; [exact H|].
  apply (HA false (dogObject false) [] (Some catDoc) [Some dogDoc] NewBufPair H).
Defined.

(** C6, counterexample. A non-nullable root object whose only field set
    is skipped: [ResolveGraphQLResponse] returns the sentinel to its
    caller. *)
Lemma typename_skip_returned_to_the_caller :
  respond petsGet petsEach (dogObject false) (Some catDoc)
    = ("", Some errTypeNameSkipped).
Proof. vm_compute. reflexivity. Qed.

Lemma typename_skip_reaches_the_caller_witness :
  (∃ Nullable Path FieldSets fetch,
      dogObject false = NodeObject Nullable Path FieldSets fetch) ∧
  ResolveGraphQLResponse petsGet petsEach noHash firstWins false bytes bufferWrite ctx0
    {| ResponseData := dogObject false |} (Some catDoc) "abc"
    = ("abc", Some errTypeNameSkipped).
Proof.
  destruct (typename_skip_reaches_the_caller petsGet petsEach noHash firstWins false ctx0)
    as [HN HR].
  split.
  - apply (HN (dogObject false) (Some catDoc) NewBufPair). vm_compute. reflexivity.
  - eapply (HR bytes bufferWrite {| ResponseData := dogObject false |}).
    vm_compute. reflexivity.
Defined.

(** C3 on a load that writes [{"a":1}] and fails: the leader returns no
    error, the dependent returns the error of the load. *)
Lemma singleflight_leader_loses_the_load_error_witness :
  ∃ s, singleflight.run noHash true overlapping twoCalls = Some s ∧
       singleflight.loads s = [("failing", "")] ∧
       (λ c, (singleflight.c_pc c, singleflight.c_buf c, singleflight.c_err c))
         <$> singleflight.calls s
         = [ (singleflight.Returned, {| Data := aDoc; Errors := "" |}, None);
             (singleflight.Returned, {| Data := aDoc; Errors := "" |},
              Some (errExternal "upstream failed")) ] ∧
       singleflight.inflightFetches s = ∅ ∧
       singleflight.inflightFetchPool s = [0%nat].
Proof.
  destruct (singleflight_leader_loses_the_load_error noHash failingFetch ""
              NewBufPair NewBufPair {| Data := aDoc; Errors := "" |}
              (Some "upstream failed")) as [H _]; [reflexivity..|exact H].
Defined.

End Witnesses.

Section SchedulerWitnesses.

Import asttransform Examples.

Lemma reversingSort_contract : sortSliceContract reversingSort.
Proof.
  intros l. unfold reversingSort.
  assert (Transitive (λ a b : action, less b a = false)).
  { intros a b c. apply notAfter_trans. }
  assert (Total (λ a b : action, less b a = false)).
  { intros a b. apply notAfter_total. }
  split.
  - by rewrite merge_sort_Permutation, reverse_Permutation.
  - by apply (StronglySorted_merge_sort _).
Qed.



End SchedulerWitnesses.

(** * Further properties *)

(** * Further properties *)

(** ** Package ast: queries and surgery on selection sets *)

Section SelectionQueries.

Import Spec.

Context {Rest : Type}.
Implicit Types (d : ast.Document Rest) (refs : list Z).

Lemma selects_dec d (kind ref j : Z) (s : ast.Selection) :
  ast.index (ast.Selections Rest d) j = Some s →
  (bool_decide (ast.Kind s = kind) && bool_decide (ast.Ref s = ref) = true
   ↔ selects d kind ref j).
Proof.
  intros Hs. rewrite andb_true_iff, !bool_decide_eq_true. split.
  - intros [? ?]. by exists s.
  - intros (s' & Hs' & ? & ?). rewrite Hs in Hs'. by injection Hs' as <-.
Qed.

(** The loop of [SelectionIndex] stops at the first selection of the kind
    and reference asked for. *)
Lemma selectionIndexFrom_spec d (kind ref : Z) refs (k : Z) :
  selectionsExist d refs →
  ∃ res, ast.selectionIndexFrom Rest d kind ref refs k = Some res ∧
         match res with
         | (i, true) => ∃ n, i = (k + Z.of_nat n)%Z ∧ firstAt d kind ref refs n
         | (i, false) => i = 0%Z ∧ ∀ j, j ∈ refs → ¬ selects d kind ref j
         end.
Proof.
  intros H. revert k. induction H as [|j refs [s Hs] _ IH]; intros k.
  - exists (0%Z, false). split; [done|]. split; [done|]. by intros j ?%elem_of_nil.
  - cbn [ast.selectionIndexFrom]. rewrite Hs. cbn.
    destruct (bool_decide (ast.Kind s = kind) && bool_decide (ast.Ref s = ref)) eqn:E.
    + apply (selects_dec d kind ref j s Hs) in E.
      exists (k, true). split; [done|]. exists 0%nat. split; [lia|]. split.
      * by exists j.
      * intros i' j' Hlt. lia.
    + assert (Hn : ¬ selects d kind ref j).
      { intros Hsel%(selects_dec d kind ref j s Hs). congruence. }
      destruct (IH (k + 1)%Z) as ([i [|]] & -> & Hres).
      * destruct Hres as (n & -> & [(j0 & Hj0 & Hsel) Hfirst]).
        exists ((k + 1 + Z.of_nat n)%Z, true). split; [done|].
        exists (S n). split; [lia|]. split; [by exists j0|].
        intros [|i'] j' Hlt Hj'.
        -- by injection Hj' as <-.
        -- apply (Hfirst i' j'); [lia|done].
      * destruct Hres as [-> Hnone].
        exists (0%Z, false). split; [done|]. split; [done|].
        intros j' [->|Hin]%elem_of_cons; auto.
Qed.

(** X1. [SelectionIndex] returns the position of the first selection of the
    set that has the kind and the reference asked for, and [(0, false)]
    exactly when the set holds none. *)
Theorem SelectionIndex_first d (kind ref set : Z) refs :
  ast.selectionRefs Rest d set = Some refs →
  selectionsExist d refs →
  ∃ i found,
    ast.SelectionIndex Rest d kind ref set = Some (i, found) ∧
    if found then (0 ≤ i)%Z ∧ firstAt d kind ref refs (Z.to_nat i)
    else i = 0%Z ∧ ∀ j, j ∈ refs → ¬ selects d kind ref j.
Proof.
  intros Hrefs Hex. unfold ast.SelectionIndex. rewrite Hrefs. cbn.
  destruct (selectionIndexFrom_spec d kind ref refs 0 Hex) as ([i found] & -> & Hres).
  exists i, found. split; [done|]. destruct found; [|done].
  destruct Hres as (n & -> & Hn). split; [lia|].
  by replace (Z.to_nat (0 + Z.of_nat n)) with n by lia.
Qed.


Lemma firstAt_unique d (kind ref : Z) refs (i i' : nat) :
  firstAt d kind ref refs i → firstAt d kind ref refs i' → i = i'.
Proof.
  intros [(j & Hj & Hs) Hf] [(j' & Hj' & Hs') Hf'].
  destruct (Nat.lt_trichotomy i i') as [Hlt|[->|Hlt]]; [|done|].
  - by destruct (Hf' i j Hlt Hj).
  - by destruct (Hf i' j' Hlt Hj').
Qed.

Lemma firstAt_lt d (kind ref : Z) refs (i : nat) :
  firstAt d kind ref refs i → (i < length refs)%nat.
Proof. intros [(j & Hj & _) _]. by eapply lookup_lt_Some. Qed.

(** The loops of [SelectionsAfter] and [SelectionsBeforeField] are the loop
    of [SelectionIndex] with another result. *)
Lemma selectionsAfterFrom_index d (kind ref n : Z) refs (k : Z) :
  ast.selectionsAfterFrom Rest d kind ref n refs k
    = res ← ast.selectionIndexFrom Rest d kind ref refs k;
      Some (res.2 && negb (res.1 =? n - 1)%Z).
Proof.
  revert k. induction refs as [|j refs IH]; intros k; [done|].
  cbn [ast.selectionsAfterFrom ast.selectionIndexFrom].
  destruct (ast.index _ j) as [s|]; [|done]. cbn.
  destruct (_ && _); [done|]. apply IH.
Qed.

Lemma selectionsBeforeFieldFrom_index d (field : Z) refs (k : Z) :
  ast.selectionsBeforeFieldFrom Rest d field refs k
    = res ← ast.selectionIndexFrom Rest d ast.SelectionKindField field refs k;
      Some (res.2 && negb (res.1 =? 0)%Z).
Proof.
  revert k. induction refs as [|j refs IH]; intros k; [done|].
  cbn [ast.selectionsBeforeFieldFrom ast.selectionIndexFrom].
  destruct (ast.index _ j) as [s|]; [|done]. cbn.
  destruct (_ && _); [done|]. apply IH.
Qed.

Variable NodeKindSelectionSet : Z.

(** X2. [SelectionsAfter] says whether the first selection of the given kind
    and reference is followed by another selection of the set, and
    [SelectionsBeforeField] whether the first selection of the field is
    preceded by one; both are false for a node that is not a selection set,
    without the document being read. *)
Theorem selections_before_and_after d (kind ref : Z) (selectionSet : ast.Node) refs :
  ast.selectionRefs Rest d (ast.NodeRef selectionSet) = Some refs →
  selectionsExist d refs →
  (ast.NodeKind selectionSet = NodeKindSelectionSet →
   (∃ b, ast.SelectionsAfter Rest NodeKindSelectionSet d kind ref selectionSet = Some b ∧
         (b = true ↔ ∃ i, firstAt d kind ref refs i ∧ (S i < length refs)%nat)) ∧
   (∃ b, ast.SelectionsBeforeField Rest NodeKindSelectionSet d ref selectionSet = Some b ∧
         (b = true ↔ ∃ i, firstAt d ast.SelectionKindField ref refs i ∧ (0 < i)%nat))) ∧
  (ast.NodeKind selectionSet ≠ NodeKindSelectionSet →
   ∀ d', ast.SelectionsAfter Rest NodeKindSelectionSet d' kind ref selectionSet = Some false ∧
         ast.SelectionsBeforeField Rest NodeKindSelectionSet d' ref selectionSet = Some false).
Proof.
  intros Hrefs Hex. split.
  - intros Hk. split.
    + unfold ast.SelectionsAfter. rewrite Hk, Z.eqb_refl, Hrefs. cbn.
      rewrite selectionsAfterFrom_index.
      destruct (selectionIndexFrom_spec d kind ref refs 0 Hex) as ([i found] & E & Hres).
      destruct (Z.eqb_spec (Z.of_nat (length refs)) 1) as [H1|H1].
      * exists false. split; [done|]. split; [done|].
        intros (n & Hn & Hlt). lia.
      * rewrite E. cbn. eexists. split; [done|]. destruct found; cbn.
        -- destruct Hres as (n & -> & Hn). pose proof (firstAt_lt _ _ _ _ _ Hn).
           rewrite negb_true_iff, Z.eqb_neq. split.
           ++ intros ?. exists n. split; [done|]. lia.
           ++ intros (n' & Hn' & ?). rewrite (firstAt_unique _ _ _ _ _ _ Hn Hn'). lia.
        -- destruct Hres as [_ Hnone]. split; [done|].
           intros (n & [(j & Hj & Hs) _] & _).
           destruct (Hnone j); [by eapply list_elem_of_lookup_2|done].
    + unfold ast.SelectionsBeforeField. rewrite Hk, Z.eqb_refl, Hrefs. cbn.
      rewrite selectionsBeforeFieldFrom_index.
      destruct (selectionIndexFrom_spec d ast.SelectionKindField ref refs 0 Hex)
        as ([i found] & E & Hres).
      destruct (Z.eqb_spec (Z.of_nat (length refs)) 1) as [H1|H1].
      * exists false. split; [done|]. split; [done|].
        intros (n & Hn & Hlt). pose proof (firstAt_lt _ _ _ _ _ Hn). lia.
      * rewrite E. cbn. eexists. split; [done|]. destruct found; cbn.
        -- destruct Hres as (n & -> & Hn).
           rewrite negb_true_iff, Z.eqb_neq. split.
           ++ intros ?. exists n. split; [done|]. lia.
           ++ intros (n' & Hn' & ?). rewrite (firstAt_unique _ _ _ _ _ _ Hn Hn'). lia.
        -- destruct Hres as [_ Hnone]. split; [done|].
           intros (n & [(j & Hj & Hs) _] & _).
           destruct (Hnone j); [by eapply list_elem_of_lookup_2|done].
  - intros Hk d'. unfold ast.SelectionsAfter, ast.SelectionsBeforeField.
    by destruct (Z.eqb_spec (ast.NodeKind selectionSet) NodeKindSelectionSet).
Qed.

End SelectionQueries.

Section FieldQueries.

Import Spec.

Context {Rest : Type}.
Variable FieldNameBytes : Rest → Z → option bytes.
Variable FieldAliasIsDefined : Rest → Z → option bool.
Variable FieldAliasBytes : Rest → Z → option bytes.

Local Abbreviation namedBy :=
  (Spec.namedBy FieldNameBytes FieldAliasIsDefined FieldAliasBytes).
Local Abbreviation fieldReadable :=
  (Spec.fieldReadable FieldNameBytes FieldAliasIsDefined FieldAliasBytes).

(** X3. [SelectionSetHasFieldSelectionWithNameOrAliasBytes] is true exactly
    when a selection of the set is a field whose name, or whose alias if one
    is defined, is the bytes asked for. *)
Theorem has_field_selection_with_name_or_alias (d : ast.Document Rest) (set : Z)
    (nameOrAlias : bytes) (refs : list Z) :
  ast.selectionRefs Rest d set = Some refs →
  Forall (fieldReadable d) refs →
  ∃ b, ast.SelectionSetHasFieldSelectionWithNameOrAliasBytes Rest FieldNameBytes
         FieldAliasIsDefined FieldAliasBytes d set nameOrAlias = Some b ∧
       (b = true ↔ ∃ j, j ∈ refs ∧ namedBy d nameOrAlias j).
Proof.
  intros Hrefs Hall.
  unfold ast.SelectionSetHasFieldSelectionWithNameOrAliasBytes. rewrite Hrefs. cbn.
  clear Hrefs. induction Hall as [|j refs (s & Hs & Hfield) _ IH].
  - exists false. split; [done|]. split; [done|]. by intros (j & ?%elem_of_nil & _).
  - cbn [ast.hasFieldSelectionFrom]. rewrite Hs. cbn.
    assert (Hskip : ¬ namedBy d nameOrAlias j →
              ∃ b, ast.hasFieldSelectionFrom Rest FieldNameBytes FieldAliasIsDefined
                     FieldAliasBytes d nameOrAlias refs = Some b ∧
                   (b = true ↔ ∃ j', j' ∈ j :: refs ∧ namedBy d nameOrAlias j')).
    { intros Hn. destruct IH as (b & Hb & Hiff). exists b. split; [done|].
      rewrite Hiff. split.
      - intros (j' & ? & ?). exists j'. split; [by right|done].
      - intros (j' & [->|?]%elem_of_cons & ?); [done|]. by exists j'. }
    assert (Hfound : namedBy d nameOrAlias j →
              ∃ j', j' ∈ j :: refs ∧ namedBy d nameOrAlias j').
    { intros ?. exists j. split; [left|done]. }
    destruct (decide (ast.Kind s = ast.SelectionKindField)) as [Hk|Hk].
    + rewrite bool_decide_eq_true_2 by done. cbn.
      destruct (Hfield Hk) as ([name Hname] & defined & Hdef & Halias).
      rewrite Hname. cbn.
      destruct (decide (name = nameOrAlias)) as [->|Hne].
      * rewrite bool_decide_eq_true_2 by done. exists true. split; [done|].
        split; [|done]. intros _. apply Hfound. exists s. auto.
      * rewrite bool_decide_eq_false_2 by done. rewrite Hdef. cbn.
        destruct defined; cbn.
        -- destruct (Halias eq_refl) as [alias Ha]. rewrite Ha. cbn.
           destruct (decide (alias = nameOrAlias)) as [->|Hne'].
           ++ rewrite bool_decide_eq_true_2 by done. exists true. split; [done|].
              split; [|done]. intros _. apply Hfound. exists s. auto.
           ++ rewrite bool_decide_eq_false_2 by done. apply Hskip.
              intros (s' & Hs' & _ & [H|[_ H]]); rewrite Hs in Hs';
                injection Hs' as <-; congruence.
        -- apply Hskip.
           intros (s' & Hs' & _ & [H|[H _]]); rewrite Hs in Hs';
             injection Hs' as <-; congruence.
    + rewrite bool_decide_eq_false_2 by done. cbn. apply Hskip.
      intros (s' & Hs' & Hk' & _). rewrite Hs in Hs'. injection Hs' as <-. done.
Qed.

End FieldQueries.

Section SelectionSurgery.

Import Spec.

Context {Rest : Type}.
Implicit Types (d : ast.Document Rest) (refs : list Z).

(** Appending to the selections of a document keeps the selections it
    had. *)
Lemma index_app_l {A} (l k : list A) (j : Z) (x : A) :
  ast.index l j = Some x → ast.index (l ++ k) j = Some x.
Proof.
  intros [? H]%index_Some. apply index_Some. split; [done|].
  by apply lookup_app_l_Some.
Qed.

Lemma SelectionIndex_found d (kind ref set : Z) refs (i : nat) :
  ast.selectionRefs Rest d set = Some refs →
  selectionsExist d refs →
  firstAt d kind ref refs i →
  ast.SelectionIndex Rest d kind ref set = Some (Z.of_nat i, true).
Proof.
  intros Hrefs Hex Hi. unfold ast.SelectionIndex. rewrite Hrefs. cbn.
  destruct (selectionIndexFrom_spec d kind ref refs 0 Hex) as ([k [|]] & -> & Hres).
  - destruct Hres as (n & -> & Hn). by rewrite (firstAt_unique _ _ _ _ _ _ Hi Hn).
  - destruct Hres as [_ Hnone]. destruct Hi as [(j & Hj & Hs) _].
    destruct (Hnone j); [by eapply list_elem_of_lookup_2|done].
Qed.

Lemma SelectionIndex_absent d (kind ref set : Z) refs :
  ast.selectionRefs Rest d set = Some refs →
  selectionsExist d refs →
  (∀ j, j ∈ refs → ¬ selects d kind ref j) →
  ast.SelectionIndex Rest d kind ref set = Some (0%Z, false).
Proof.
  intros Hrefs Hex Hnone. unfold ast.SelectionIndex. rewrite Hrefs. cbn.
  destruct (selectionIndexFrom_spec d kind ref refs 0 Hex) as ([k [|]] & -> & Hres).
  - destruct Hres as (n & _ & [(j & Hj & Hs) _]).
    destruct (Hnone j); [by eapply list_elem_of_lookup_2|done].
  - by destruct Hres as [-> _].
Qed.

(** X4. [AddSelection] puts the selection at the end of the document's
    selections and its reference at the end of the set; the other selections
    and the other sets stay as they are, and [SelectionIndex] finds the
    selection in the set, at the last position when the set held no such
    selection before. *)
Theorem AddSelection_then_SelectionIndex d (set : Z) (selection : ast.Selection) refs :
  ast.selectionRefs Rest d set = Some refs →
  selectionsExist d refs →
  ∃ d',
    ast.AddSelection Rest d set selection = Some d' ∧
    ast.selectionRefs Rest d' set
      = Some (refs ++ [Z.of_nat (length (ast.Selections Rest d))]) ∧
    ast.index (ast.Selections Rest d') (Z.of_nat (length (ast.Selections Rest d)))
      = Some selection ∧
    (∀ j s, ast.index (ast.Selections Rest d) j = Some s →
            ast.index (ast.Selections Rest d') j = Some s) ∧
    (∀ set', (0 ≤ set')%Z → set' ≠ set →
             ast.selectionRefs Rest d' set' = ast.selectionRefs Rest d set') ∧
    ∃ i, ast.SelectionIndex Rest d' (ast.Kind selection) (ast.Ref selection) set
           = Some (Z.of_nat i, true) ∧
         (i ≤ length refs)%nat ∧
         ((∀ j, j ∈ refs → ¬ selects d (ast.Kind selection) (ast.Ref selection) j) →
          i = length refs).
Proof.
  intros Hrefs Hex.
  set (n := Z.of_nat (length (ast.Selections Rest d))).
  set (d1 := ast.withSelections Rest d (ast.Selections Rest d ++ [selection])).
  assert (Hrefs1 : ast.selectionRefs Rest d1 set = Some refs) by done.
  destruct (setSelectionRefs_total d1 set refs (refs ++ [n]) d1
              (setSelectionRefs_id _ _ _ Hrefs1)) as [d' Hd'].
  destruct (selectionRefs_set _ _ _ [] _ Hd') as [Hrefs' _].
  assert (Hsel' : ast.Selections Rest d' = ast.Selections Rest d ++ [selection]).
  { revert Hd'. unfold ast.setSelectionRefs. destruct (ast.index _ _); [|done].
    cbn. by intros [= <-]. }
  assert (Hn : ast.index (ast.Selections Rest d') n = Some selection).
  { rewrite Hsel'. apply index_Some. split; [lia|]. unfold n.
    rewrite Nat2Z.id. by rewrite lookup_app_r, Nat.sub_diag. }
  assert (Hold : ∀ j s, ast.index (ast.Selections Rest d) j = Some s →
                        ast.index (ast.Selections Rest d') j = Some s).
  { intros j s H. rewrite Hsel'. by apply index_app_l. }
  exists d'. split.
  { unfold ast.AddSelection, ast.AddSelectionToDocument. fold d1.
    rewrite Hrefs1. cbn. exact Hd'. }
  split; [done|]. split; [done|]. split; [done|]. split.
  { intros set' H0 Hne. revert Hd'. unfold ast.setSelectionRefs.
    destruct (ast.index _ set) as [x|] eqn:E; [|done]. cbn. intros [= <-].
    apply index_Some in E as [? _].
    unfold ast.selectionRefs. cbn. rewrite !index_nonneg by done.
    rewrite list_lookup_insert_ne; [done|]. lia. }
  assert (Hex' : selectionsExist d' (refs ++ [n])).
  { apply Forall_app. split.
    - eapply Forall_impl; [exact Hex|]. intros j [s Hs]. exists s. by apply Hold.
    - by repeat constructor. }
  assert (Hselects : selects d' (ast.Kind selection) (ast.Ref selection) n)
    by (by exists selection).
  unfold ast.SelectionIndex. rewrite Hrefs'. cbn.
  destruct (selectionIndexFrom_spec d' (ast.Kind selection) (ast.Ref selection)
              (refs ++ [n]) 0 Hex') as ([k [|]] & -> & Hres).
  - destruct Hres as (i & -> & Hi). exists i. split; [done|].
    pose proof (firstAt_lt _ _ _ _ _ Hi) as Hlt.
    rewrite List.length_app in Hlt. cbn in Hlt. split; [lia|].
    intros Hnone. destruct (decide (i = length refs)) as [|Hne]; [done|].
    destruct Hi as [(j & Hj & s & Hs & Hk & Hr) _].
    rewrite lookup_app_l in Hj by lia.
    pose proof (list_elem_of_lookup_2 _ _ _ Hj) as Hin.
    destruct (proj1 (Forall_forall _ _) Hex _ Hin) as [s0 Hs0].
    rewrite (Hold _ _ Hs0) in Hs. injection Hs as <-.
    destruct (Hnone j Hin). by exists s0.
  - destruct Hres as [_ Hnone]. destruct (Hnone n); [|done].
    apply elem_of_app. right. left.
Qed.

(** X5. Removing from a set the reference that [AddSelection] has just put
    at its end gives every selection set back as it was; the selection
    itself stays in the document. *)
Theorem AddSelection_then_RemoveFromSelectionSet d (set : Z)
    (selection : ast.Selection) refs :
  ast.selectionRefs Rest d set = Some refs →
  ∃ d',
    ast.AddSelection Rest d set selection = Some d' ∧
    ast.RemoveFromSelectionSet Rest d' set (Z.of_nat (length refs))
      = Some (ast.withSelections Rest d (ast.Selections Rest d ++ [selection])).
Proof.
  intros Hrefs.
  set (n := Z.of_nat (length (ast.Selections Rest d))).
  set (d1 := ast.withSelections Rest d (ast.Selections Rest d ++ [selection])).
  assert (Hrefs1 : ast.selectionRefs Rest d1 set = Some refs) by done.
  destruct (setSelectionRefs_total d1 set refs (refs ++ [n]) d1
              (setSelectionRefs_id _ _ _ Hrefs1)) as [d' Hd'].
  exists d'. split.
  { unfold ast.AddSelection, ast.AddSelectionToDocument. fold d1.
    rewrite Hrefs1. cbn. exact Hd'. }
  rewrite (RemoveFromSelectionSet_set d1 set (refs ++ [n]) d' (length refs) Hd')
    by (rewrite List.length_app; cbn; lia).
  rewrite take_app_length, drop_app_ge by lia.
  replace (S (length refs) - length refs)%nat with 1%nat by lia.
  cbn [drop]. rewrite List.app_nil_r. by apply setSelectionRefs_id.
Qed.

(** X6. [EmptySelectionSet] followed by [AppendSelectionSet] gives a set
    the selections of another set, which keeps them; appending a set that
    was just emptied to itself leaves it empty. *)
Theorem EmptySelectionSet_then_AppendSelectionSet d (ref appendRef : Z) refs appendRefs :
  ast.selectionRefs Rest d ref = Some refs →
  ast.selectionRefs Rest d appendRef = Some appendRefs →
  ∃ d1 d2,
    ast.EmptySelectionSet Rest d ref = Some d1 ∧
    ast.AppendSelectionSet Rest d1 ref appendRef = Some d2 ∧
    ast.selectionRefs Rest d2 ref = Some (if decide (appendRef = ref) then [] else appendRefs) ∧
    (appendRef ≠ ref → ast.selectionRefs Rest d2 appendRef = Some appendRefs) ∧
    ast.Selections Rest d2 = ast.Selections Rest d ∧
    ast.InlineFragments Rest d2 = ast.InlineFragments Rest d.
Proof.
  intros Hrefs Happend.
  destruct (setSelectionRefs_total d ref refs [] d (setSelectionRefs_id _ _ _ Hrefs))
    as [d1 Hd1].
  destruct (selectionRefs_set d ref [] [] d1 Hd1) as [Hrefs1 _].
  assert (Hother : ∀ r, r ≠ ref → ast.selectionRefs Rest d1 r = ast.selectionRefs Rest d r).
  { intros r Hne. revert Hd1. unfold ast.setSelectionRefs.
    destruct (ast.index _ ref) as [x|] eqn:E; [|done]. cbn. intros [= <-].
    apply index_Some in E as [? _].
    unfold ast.selectionRefs, ast.index. cbn. destruct (Z.ltb_spec r 0); [done|].
    rewrite list_lookup_insert_ne; [done|]. lia. }
  assert (Hparts : ∀ l dl, ast.setSelectionRefs Rest d ref l = Some dl →
                           ast.Selections Rest dl = ast.Selections Rest d ∧
                           ast.InlineFragments Rest dl = ast.InlineFragments Rest d).
  { intros l dl. unfold ast.setSelectionRefs.
    destruct (ast.index _ ref); [|done]. cbn. by intros [= <-]. }
  unfold ast.AppendSelectionSet, ast.EmptySelectionSet.
  destruct (decide (appendRef = ref)) as [->|Hne].
  - exists d1, d1. split; [done|]. rewrite Hrefs1. cbn.
    split; [by apply setSelectionRefs_id|]. split; [done|]. split; [done|].
    by apply (Hparts []).
  - destruct (setSelectionRefs_total d ref [] appendRefs d1 Hd1) as [d2 Hd2].
    destruct (selectionRefs_set d ref [] appendRefs d1 Hd1) as [_ Hset].
    exists d1, d2. split; [done|]. rewrite Hrefs1, (Hother _ Hne), Happend. cbn.
    rewrite Hset. split; [done|].
    destruct (selectionRefs_set d ref appendRefs [] d2 Hd2) as [Hrefs2 _].
    split; [done|]. split.
    + intros _. revert Hd2. unfold ast.setSelectionRefs.
      destruct (ast.index _ ref) as [x|] eqn:E; [|done]. cbn. intros [= <-].
      apply index_Some in E as [? _]. revert Happend.
      unfold ast.selectionRefs, ast.index. cbn. destruct (Z.ltb_spec appendRef 0); [done|].
      rewrite list_lookup_insert_ne; [done|]. lia.
    + by apply (Hparts appendRefs).
Qed.

(** [ReplaceSelectionOnSelectionSet] at a position of the set. *)
Lemma ReplaceSelectionOnSelectionSet_at d (ref with_ : Z) refs withRefs (i : nat) :
  ast.selectionRefs Rest d ref = Some refs →
  ast.selectionRefs Rest d with_ = Some withRefs →
  (i < length refs)%nat →
  ast.ReplaceSelectionOnSelectionSet Rest d ref (Z.of_nat i) with_
    = ast.setSelectionRefs Rest d ref (take i refs ++ withRefs ++ drop (S i) refs).
Proof.
  intros Hr Hw Hi. unfold ast.ReplaceSelectionOnSelectionSet.
  rewrite Hr, Hw. cbn. rewrite bool_decide_eq_true_2 by lia.
  rewrite Nat2Z.id. by replace (Z.to_nat (Z.of_nat i + 1)) with (S i) by lia.
Qed.

(** X7. [PromoteUnionInlineFragments] puts the selections of the fragment's
    selection set in the place of the first selection of the parent set that
    is the fragment.  When the parent set does not hold the fragment, it is
    the first selection of the parent set that is replaced, and the call
    panics on an empty parent set. *)
Theorem PromoteUnionInlineFragments_splices d (inlineFragment parentSelectionSet : Z)
    (f : ast.InlineFragment) refs children :
  ast.selectionRefs Rest d parentSelectionSet = Some refs →
  selectionsExist d refs →
  ast.index (ast.InlineFragments Rest d) inlineFragment = Some f →
  ast.selectionRefs Rest d (ast.InlineFragmentSelectionSet f) = Some children →
  (∀ i, firstAt d ast.SelectionKindInlineFragment inlineFragment refs i →
        ast.PromoteUnionInlineFragments Rest d inlineFragment parentSelectionSet
          = ast.setSelectionRefs Rest d parentSelectionSet
              (take i refs ++ children ++ drop (S i) refs)) ∧
  ((∀ j, j ∈ refs → ¬ selects d ast.SelectionKindInlineFragment inlineFragment j) →
   ast.PromoteUnionInlineFragments Rest d inlineFragment parentSelectionSet
     = match refs with
       | [] => None
       | _ :: others =>
           ast.setSelectionRefs Rest d parentSelectionSet (children ++ others)
       end).
Proof.
  intros Hrefs Hex Hf Hc. split.
  - intros i Hi. unfold ast.PromoteUnionInlineFragments.
    rewrite (SelectionIndex_found _ _ _ _ _ _ Hrefs Hex Hi). cbn. rewrite Hf. cbn.
    apply ReplaceSelectionOnSelectionSet_at; [done|done|].
    by eapply firstAt_lt.
  - intros Hnone. unfold ast.PromoteUnionInlineFragments.
    rewrite (SelectionIndex_absent _ _ _ _ _ Hrefs Hex Hnone). cbn. rewrite Hf. cbn.
    destruct refs as [|j others].
    + unfold ast.ReplaceSelectionOnSelectionSet. rewrite Hrefs, Hc. cbn.
      by rewrite bool_decide_eq_false_2 by (cbn; lia).
    + rewrite (ReplaceSelectionOnSelectionSet_at d _ _ (j :: others) children 0)
        by (done || cbn; lia).
      done.
Qed.

Variable CopyField : ast.Document Rest → Z → option (ast.Document Rest * Z).
Variable CopyFragmentSpread : ast.Document Rest → Z → option (ast.Document Rest * Z).
Variable CopyDirectiveList :
  ast.Document Rest → ast.DirectiveList → option (ast.Document Rest * ast.DirectiveList).
Variable AddNamedType : Rest → bytes → Rest * Z.

(** X8. With no concrete type name, [ExpandInterfaceInlineFragment] removes
    the fragment from the parent set: the first selection that is the
    fragment is taken out, the others keep their order, and the document
    gains one empty selection set. *)
Theorem ExpandInterfaceInlineFragment_without_types (fuel : nat) d
    (inlineFragment parentSelectionSet : Z) refs (i : nat) :
  ast.selectionRefs Rest d parentSelectionSet = Some refs →
  selectionsExist d refs →
  firstAt d ast.SelectionKindInlineFragment inlineFragment refs i →
  ast.ExpandInterfaceInlineFragment Rest CopyField CopyFragmentSpread
    CopyDirectiveList AddNamedType fuel d inlineFragment parentSelectionSet []
  = Some (ast.withSelectionSets Rest d
            (<[Z.to_nat parentSelectionSet :=
                 ast.mkSelectionSet (take i refs ++ drop (S i) refs)]>
               (ast.SelectionSets Rest d ++ [ast.mkSelectionSet []]))).
Proof.
  intros Hrefs Hex Hi.
  unfold ast.ExpandInterfaceInlineFragment, ast.AddSelectionSet,
    ast.AddSelectionSetToDocument.
  cbn [ast.addRetypedFragments]. cbn [mbind option_bind].
  set (sets := ast.SelectionSets Rest d) in *.
  set (d1 := ast.withSelectionSets Rest d (sets ++ [ast.mkSelectionSet []])).
  assert (Hset : (0 ≤ parentSelectionSet)%Z ∧
                 (Z.to_nat parentSelectionSet < length sets)%nat).
  { revert Hrefs. unfold ast.selectionRefs.
    destruct (ast.index _ _) as [x|] eqn:E; [|done]. intros _.
    apply index_Some in E as [? E]. split; [done|]. by eapply lookup_lt_Some. }
  destruct Hset as [H0 Hlt].
  assert (Hrefs1 : ast.selectionRefs Rest d1 parentSelectionSet = Some refs).
  { revert Hrefs. unfold ast.selectionRefs. cbn. rewrite !index_nonneg by done.
    fold sets. by rewrite lookup_app_l by done. }
  assert (Hrepl : ast.selectionRefs Rest d1 (Z.of_nat (length sets)) = Some []).
  { unfold ast.selectionRefs. cbn. rewrite index_nonneg by lia.
    rewrite Nat2Z.id. by rewrite lookup_app_r, Nat.sub_diag. }
  rewrite (SelectionIndex_found d1 _ _ _ refs i Hrefs1 Hex Hi). cbn.
  rewrite (ReplaceSelectionOnSelectionSet_at d1 _ _ refs [] i Hrefs1 Hrepl)
    by (by eapply firstAt_lt).
  unfold d1. rewrite setSelectionRefs_withSets.
  - done.
  - done.
  - rewrite List.length_app. cbn. lia.
Qed.

End SelectionSurgery.

(** ** Package resolve: fetch lists, error objects and variables *)

Section FetchesFacts.

Import resolve.

Context {F : Type} `{EqDecision F}.

Lemma appendIfUniqueFrom_spec (fetch : F) (rest f : list F) :
  appendIfUniqueFrom fetch rest f = if bool_decide (fetch ∈ rest) then f else f ++ [fetch].
Proof.
  induction rest as [|x rest IH]; cbn.
  - by rewrite bool_decide_eq_false_2 by (by intros ?%elem_of_nil).
  - destruct (decide (fetch = x)) as [->|Hx].
    + rewrite !bool_decide_eq_true_2; [done|left|done].
    + rewrite (bool_decide_eq_false_2 _ Hx).
      rewrite IH.
      assert (bool_decide (fetch ∈ x :: rest) = bool_decide (fetch ∈ rest)) as Heq.
      { apply bool_decide_ext. rewrite elem_of_cons. tauto. }
      by rewrite Heq.
Qed.

(** X9. [AppendIfUnique] leaves the slice as it is when the fetch is in it
    and appends the fetch otherwise: the fetches that were there keep their
    places, the fetch is in the slice afterwards, a slice without duplicates
    stays without, and a second call with the same fetch changes nothing. *)
Theorem AppendIfUnique_set (f : list F) (fetch : F) :
  f `prefix_of` AppendIfUnique f fetch ∧
  fetch ∈ AppendIfUnique f fetch ∧
  (∀ x, x ∈ AppendIfUnique f fetch ↔ x ∈ f ∨ x = fetch) ∧
  (NoDup f → NoDup (AppendIfUnique f fetch)) ∧
  (length (AppendIfUnique f fetch)
     = if bool_decide (fetch ∈ f) then length f else S (length f)) ∧
  AppendIfUnique (AppendIfUnique f fetch) fetch = AppendIfUnique f fetch.
Proof.
  unfold AppendIfUnique. rewrite !appendIfUniqueFrom_spec.
  case_bool_decide as Hin.
  - rewrite bool_decide_eq_true_2 by done. repeat split; try done.
    + intros ?. by left.
    + intros [?| ->]; done.
  - assert (fetch ∈ f ++ [fetch]) by (apply elem_of_app; right; left).
    rewrite bool_decide_eq_true_2 by done. repeat split; try done.
    + by apply prefix_app_r.
    + intros [?|?%list_elem_of_singleton]%elem_of_app; auto.
    + intros [?| ->]; [|done]. apply elem_of_app. by left.
    + intros Hnd. apply NoDup_app. split; [done|]. split; [|apply NoDup_singleton].
      by intros x Hx ->%list_elem_of_singleton.
    + rewrite List.length_app. cbn. lia.
Qed.

End FetchesFacts.

Section ErrorObjectFacts.

Import Bytes resolve.

(** X10. On a buffer, [writeErrSafe] writes [{"message":m}], the message as
    it is given and without quotes, or, when locations are given,
    [{"message":m,"locations":l,"path":l}]: the member [path] carries the
    locations, the argument [path] is never written, and nothing is written
    when an error is passed in. *)
Theorem writeErrSafe_never_writes_the_path (w message : bytes)
    (locations path : option bytes) (e : error) :
  writeErrSafe bytes bufferWrite None w message locations path
    = (w +:+ lBrace +:+ quoted literalMessage +:+ colon +:+ message
         +:+ match locations with
             | Some l =>
                 comma +:+ quoted literalLocations +:+ colon +:+ l
                   +:+ comma +:+ quoted literalPath +:+ colon +:+ l
             | None => ""
             end
         +:+ rBrace, None) ∧
  writeErrSafe bytes bufferWrite (Some e) w message locations path = (w, Some e).
Proof.
  split; [|done].
  unfold writeErrSafe, writeMemberOfLocations, resolveObjectFieldSafe, bufferWrite, quoted.
  unfold quote.
  destruct locations as [l|]; cbn [fst snd];
    rewrite ?app_assoc, ?app_nil_l; reflexivity.
Qed.

End ErrorObjectFacts.

Section VariablesFacts.

Import Bytes resolve Spec.

Lemma pathsEqual_spec (p q : list string) :
  length p = length q → pathsEqual p q = Some (bool_decide (p = q)).
Proof.
  revert q. induction p as [|x p IH]; intros [|y q] Hlen; try done.
  cbn. destruct (decide (x = y)) as [->|Hxy].
  - rewrite (bool_decide_eq_true_2 (y = y)) by done. cbn.
    rewrite IH by (cbn in Hlen; lia). f_equal. apply bool_decide_ext. naive_solver.
  - rewrite (bool_decide_eq_false_2 _ Hxy). cbn. f_equal. symmetry.
    apply bool_decide_eq_false_2. naive_solver.
Qed.

Lemma equalsVariable_spec (c : Variable_) (another : option Variable_) :
  equalsVariable c another = Some (bool_decide (another = Some c)).
Proof.
  destruct another as [a|]; [|done]. unfold equalsVariable.
  destruct (VariableKind a =? VariableKind c)%Z eqn:Hk; cbn.
  - destruct (Z.of_nat (length (VariablePath c)) =? Z.of_nat (length (VariablePath a)))%Z
      eqn:Hl; cbn.
    + rewrite pathsEqual_spec by lia. f_equal. apply bool_decide_ext.
      destruct a, c; cbn in *; try done; naive_solver.
    + f_equal. symmetry. apply bool_decide_eq_false_2. intros [= ->]. lia.
  - f_equal. symmetry. apply bool_decide_eq_false_2. intros [= ->]. lia.
Qed.

Lemma Equals_spec (c : Variable_) (another : option Variable_) :
  Equals (Some c) another = Some (bool_decide (another = Some c)).
Proof. destruct c; apply equalsVariable_spec. Qed.


Lemma findVariable_cons (y : option Variable_) (v : VariableList)
    (variable : option Variable_) (k : Z) :
  findVariable (y :: v) variable k
    = (eq ← Equals y variable;
       if (eq : bool) then Some k else findVariable v variable (k + 1)).
Proof. reflexivity. Qed.

Lemma findVariable_spec (vs : list Variable_) (x : Variable_) (k : Z) :
  (0 ≤ k)%Z →
  ∃ r, findVariable (Some <$> vs) (Some x) k = Some r ∧
       ((r = (-1)%Z ∧ x ∉ vs) ∨
        (∃ n : nat, r = (k + Z.of_nat n)%Z ∧ vs !! n = Some x ∧
                    ∀ j : nat, (j < n)%nat → vs !! j ≠ Some x)).
Proof.
  revert k. induction vs as [|y vs IH]; intros k Hk.
  - exists (-1)%Z. split; [done|]. left. split; [done|]. by intros ?%elem_of_nil.
  - rewrite fmap_cons, findVariable_cons, Equals_spec. cbn [mbind option_bind].
    destruct (decide (y = x)) as [->|Hne].
    + rewrite bool_decide_eq_true_2 by done. exists k. split; [done|]. right.
      exists 0%nat. split; [lia|]. split; [done|]. intros j ?. lia.
    + rewrite bool_decide_eq_false_2 by naive_solver.
      destruct (IH (k + 1)%Z) as (r & Hr & Hcase); [lia|].
      exists r. split; [done|]. destruct Hcase as [[-> Hnot]|(n & -> & Hn & Hfirst)].
      * left. split; [done|]. rewrite elem_of_cons. intros [Heq|Hin]; [by apply Hne|by apply Hnot].
      * right. exists (S n). split; [lia|]. split; [done|].
        intros [|j] Hj; cbn; [naive_solver|]. apply Hfirst. lia.
Qed.

Variable Itoa : Z → string.

Lemma AddVariable_spec (vs : list Variable_) (x : Variable_) (quoteValue : bool) :
  ∃ (n : nat) (vs' : list Variable_),
    AddVariable Itoa (Some <$> vs) (Some x) quoteValue
      = Some (Some <$> vs', variableName Itoa (Z.of_nat n) quoteValue, bool_decide (x ∈ vs)) ∧
    vs' = (if bool_decide (x ∈ vs) then vs else vs ++ [x]) ∧
    vs' !! n = Some x ∧
    (∀ j : nat, (j < n)%nat → vs' !! j ≠ Some x).
Proof.
  destruct (findVariable_spec vs x 0) as (r & Hr & Hcase); [lia|].
  unfold AddVariable. rewrite Hr. cbn.
  destruct Hcase as [[-> Hnot]|(n & -> & Hn & Hfirst)].
  - exists (length vs), (vs ++ [x]). cbn. rewrite bool_decide_eq_false_2 by done.
    split; [|split; [done|split]].
    + rewrite fmap_app. cbn. rewrite List.length_app, length_fmap. cbn.
      replace (Z.of_nat (length vs + 1) - 1)%Z with (Z.of_nat (length vs)) by lia.
      by destruct quoteValue.
    + by rewrite lookup_app_r, Nat.sub_diag by lia.
    + intros j Hj. rewrite lookup_app_l by lia. intros Hj'.
      apply Hnot. by eapply list_elem_of_lookup_2.
  - exists n, vs. assert (x ∈ vs) by (by eapply list_elem_of_lookup_2).
    rewrite bool_decide_eq_true_2 by done.
    replace (0 + Z.of_nat n =? -1)%Z with false by (symmetry; apply Z.eqb_neq; lia).
    cbn. split; [|done]. rewrite Z.add_0_l. by destruct quoteValue.
Qed.

(** X12. [AddVariable] keeps one entry for each variable.  Called with a
    variable of the list it changes nothing and returns the name of the
    first position where the variable is; called with a new variable it
    appends it and returns the name of the last position.  In both cases the
    name is [$$n$$], in quotes when asked, where [n] is the first position
    of the variable in the list that results, the flag tells whether the
    variable was there, a list without duplicates stays without, and a
    second call finds the variable under the same name. *)
Theorem AddVariable_keeps_one_entry (vs : list Variable_) (x : Variable_)
    (quoteValue : bool) :
  ∃ (n : nat) (vs' : list Variable_),
    AddVariable Itoa (Some <$> vs) (Some x) quoteValue
      = Some (Some <$> vs', variableName Itoa (Z.of_nat n) quoteValue, bool_decide (x ∈ vs)) ∧
    vs' = (if bool_decide (x ∈ vs) then vs else vs ++ [x]) ∧
    vs' !! n = Some x ∧
    (∀ j : nat, (j < n)%nat → vs' !! j ≠ Some x) ∧
    (NoDup vs → NoDup vs') ∧
    (∀ quoteValue',
       AddVariable Itoa (Some <$> vs') (Some x) quoteValue'
         = Some (Some <$> vs', variableName Itoa (Z.of_nat n) quoteValue', true)).
Proof.
  destruct (AddVariable_spec vs x quoteValue) as (n & vs' & Hadd & Hvs' & Hn & Hfirst).
  exists n, vs'. repeat split; try done.
  - intros Hnd. rewrite Hvs'. case_bool_decide as Hin; [done|].
    apply NoDup_app. split; [done|]. split; [|apply NoDup_singleton].
    by intros y Hy ->%list_elem_of_singleton.
  - intros q'. destruct (AddVariable_spec vs' x q') as (m & vs'' & Hadd' & Hvs'' & Hm & Hfirst').
    assert (x ∈ vs') as Hin by (by eapply list_elem_of_lookup_2).
    rewrite bool_decide_eq_true_2 in Hadd', Hvs'' by done. subst vs''.
    rewrite Hadd'. repeat f_equal.
    destruct (Nat.lt_trichotomy m n) as [Hlt|[->|Hgt]]; [|done|].
    + by destruct (Hfirst m Hlt).
    + by destruct (Hfirst' n Hgt).
Qed.

(** X13. A nil variable is appended like any other, since no variable of the
    list equals nil; from then on the nil entry is a receiver of [Equals]
    in the loop, and a call with a variable that is not in front of it
    panics. *)
Theorem AddVariable_nil_variable (vs : list Variable_) (w : VariableList)
    (quoteValue : bool) :
  AddVariable Itoa (Some <$> vs) None quoteValue
    = Some ((Some <$> vs) ++ [None],
            variableName Itoa (Z.of_nat (length vs)) quoteValue, false) ∧
  (∀ variable quoteValue',
     (∀ x, variable = Some x → x ∉ vs) →
     AddVariable Itoa ((Some <$> vs) ++ None :: w) variable quoteValue' = None).
Proof.
  assert (∀ variable k, (∀ x, variable = Some x → x ∉ vs) →
            ∀ rest, findVariable ((Some <$> vs) ++ rest) variable k
                    = findVariable rest variable (k + Z.of_nat (length vs))) as Hskip.
  { intros variable k Hnot rest. revert k.
    induction vs as [|y vs IH]; intros k; cbn [fmap list_fmap app length].
    - by rewrite Z.add_0_r.
    - rewrite findVariable_cons, Equals_spec. cbn [mbind option_bind].
      rewrite bool_decide_eq_false_2.
      + rewrite IH.
        * f_equal. lia.
        * intros x Hx Hin. apply (Hnot x Hx). by right.
      + intros ->. apply (Hnot y eq_refl). by left. }
  split.
  - unfold AddVariable.
    rewrite <- (List.app_nil_r (Some <$> vs)) at 1.
    rewrite Hskip by done. cbn.
    rewrite List.length_app, length_fmap. cbn.
    replace (Z.of_nat (length vs + 1) - 1)%Z with (Z.of_nat (length vs)) by lia.
    by destruct quoteValue.
  - intros variable q' Hnot. unfold AddVariable. by rewrite Hskip.
Qed.

End VariablesFacts.

(** ** Package resolve: merging, templates and fetches *)

Section MergeCounts.

Import Bytes resolve Spec.

Lemma len_app (s t : bytes) : len (s +:+ t) = (len s + len t)%Z.
Proof. unfold len. rewrite length_app. lia. Qed.

Lemma len_pos (s : bytes) : s ≠ "" → (0 < len s)%Z.
Proof. unfold len. destruct s; [done|]. cbn. lia. Qed.

(** X14. [MergeBufPairs] never fails, leaves the source pair empty and moves
    its bytes to the end of the destination.  The two counts it returns
    are the numbers of bytes by which the data and the errors of the
    destination grew, separators included, and a count is zero exactly when
    the source had no bytes of that kind. *)
Theorem MergeBufPairs_counts_the_bytes (from to : BufPair) (prefixDataWithComma : bool) :
  ∃ to' dataWritten errorsWritten,
    MergeBufPairs from to prefixDataWithComma
      = (NewBufPair, to', dataWritten, errorsWritten, None) ∧
    len (Data to') = (len (Data to) + dataWritten)%Z ∧
    len (Errors to') = (len (Errors to) + errorsWritten)%Z ∧
    (∃ sep, Data to' = Data to +:+ sep +:+ Data from ∧ (sep = "" ∨ sep = comma)) ∧
    (∃ sep, Errors to' = Errors to +:+ sep +:+ Errors from ∧ (sep = "" ∨ sep = comma)) ∧
    (dataWritten = 0%Z ↔ Data from = "") ∧
    (errorsWritten = 0%Z ↔ Errors from = "").
Proof.
  unfold MergeBufPairs. rewrite MergeBufPairData_err, MergeBufPairErrors_spec.
  cbn [m_from m_to m_written m_err].
  rewrite MergeBufPairData_from, MergeBufPairData_to. cbn [Data Errors].
  assert (m_written (MergeBufPairData from to prefixDataWithComma)
          = if HasData from
            then ((if prefixDataWithComma then len comma else 0) + len (Data from))%Z
            else 0%Z) as ->.
  { unfold MergeBufPairData. by destruct (HasData from), prefixDataWithComma. }
  assert (∀ d b, HasErrors {| Data := d; Errors := Errors b |} = HasErrors b) as Hmk by done.
  rewrite !Hmk.
  eexists _, _, _. split; [reflexivity|]. cbn [Data Errors].
  rewrite !len_app. change (len comma) with 1%Z.
  assert (HasData from = true → 0 < len (Data from))%Z as Hdpos.
  { intros H%HasData_true. by apply len_pos. }
  assert (HasErrors from = true → 0 < len (Errors from))%Z as Hepos.
  { intros H%HasErrors_true. by apply len_pos. }
  assert (HasData from = false → len (Data from) = 0%Z) as Hdz.
  { by intros ->%HasData_false. }
  assert (HasErrors from = false → len (Errors from) = 0%Z) as Hez.
  { by intros ->%HasErrors_false. }
  rewrite <- (HasData_false from), <- (HasErrors_false from).
  destruct (HasData from), (HasErrors from), prefixDataWithComma, (HasErrors to);
    cbn [andb]; change (len "") with 0%Z;
    repeat split; try lia; try done; try (intros; lia); eauto.
Qed.

End MergeCounts.

Section TemplateFacts.

Import Bytes resolve Spec.

Variable jsonGet :
  option bytes → list string → option bytes * jsonparser.ValueType * option string.
Variable hash64 : bytes → Z.

Local Abbreviation Render := (resolve.Render jsonGet).
Local Abbreviation renderSegments := (resolve.renderSegments jsonGet).

Lemma renderSegments_prefix (ctx : Context) (data : option bytes)
    (segs : list TemplateSegment) (p : bytes) (err : option error) :
  renderSegments ctx data segs p err
    = (p +:+ (renderSegments ctx data segs "" err).1,
       (renderSegments ctx data segs "" err).2).
Proof.
  revert p err. induction segs as [|seg segs IH]; intros p err.
  { cbn. by rewrite app_nil_r. }
  cbn [resolve.renderSegments].
  destruct (SegmentType seg =? StaticSegmentType)%Z.
  { rewrite (IH (p +:+ _)), (IH ("" +:+ _)). cbn [fst snd].
    by rewrite app_nil_l, app_assoc. }
  destruct (SegmentType seg =? VariableSegmentType)%Z; [|apply IH].
  destruct (if (VariableSource seg =? VariableSourceObject)%Z then _ else _) as [src|];
    [|cbn; by rewrite app_nil_r].
  destruct (jsonGet src _) as [[v t] [e|]]; [cbn; by rewrite app_nil_r|].
  rewrite (IH (p +:+ _)), (IH ("" +:+ _)). cbn [fst snd].
  by rewrite app_nil_l, app_assoc.
Qed.

Lemma renderSegments_app (ctx : Context) (data : option bytes)
    (segs1 segs2 : list TemplateSegment) (p : bytes) :
  renderSegments ctx data (segs1 ++ segs2) p None
    = match renderSegments ctx data segs1 p None with
      | (p', None) => renderSegments ctx data segs2 p' None
      | (p', Some e) => (p', Some e)
      end.
Proof.
  revert p. induction segs1 as [|seg segs1 IH]; intros p; [done|].
  cbn [app resolve.renderSegments].
  destruct (SegmentType seg =? StaticSegmentType)%Z; [apply IH|].
  destruct (SegmentType seg =? VariableSegmentType)%Z; [|apply IH].
  destruct (if (VariableSource seg =? VariableSourceObject)%Z then _ else _) as [src|];
    [|done].
  destruct (jsonGet src _) as [[v t] [e|]]; [done|]. apply IH.
Qed.

(** X15. [Render] only appends to the prepared input, and what it appends
    does not depend on what is there.  It goes through the segments in
    order: the rendering of two lists of segments one after the other is the
    rendering of the first followed, when it did not fail, by the rendering
    of the second, and a failure stops it with what was rendered so far.  A
    template of static segments never fails and appends their data. *)
Theorem Render_appends_segment_by_segment (ctx : Context) (data : option bytes)
    (p : bytes) :
  (∀ i, Render i ctx data p
        = (p +:+ (Render i ctx data "").1, (Render i ctx data "").2)) ∧
  (∀ segs1 segs2,
     Render (mkInputTemplate (segs1 ++ segs2)) ctx data p
       = match Render (mkInputTemplate segs1) ctx data p with
         | (p', None) => Render (mkInputTemplate segs2) ctx data p'
         | (p', Some e) => (p', Some e)
         end) ∧
  (∀ segs,
     Forall (λ seg, SegmentType seg = StaticSegmentType) segs →
     Render (mkInputTemplate segs) ctx data p
       = (foldl (λ acc seg, acc +:+ SegmentData seg) p segs, None)).
Proof.
  split; [|split].
  - intros i. apply renderSegments_prefix.
  - intros segs1 segs2. apply renderSegments_app.
  - intros segs Hs. unfold resolve.Render. cbn [Segments]. revert p.
    induction Hs as [|seg segs Hseg _ IH]; intros p; [done|].
    cbn [resolve.renderSegments foldl]. rewrite Hseg. cbn. apply IH.
Qed.

Variable EnableSingleFlightLoader : bool.

Local Abbreviation resolveFetch :=
  (resolve.resolveFetch jsonGet hash64 EnableSingleFlightLoader).

Lemma prepareFetches_rendered (ctx : Context) (data : option bytes)
    (fetches : list SingleFetch) (set : gmap Z BufPair) (inputs : list bytes) :
  Forall (λ f, (Render (FetchInputTemplate f) ctx data "").2 = None) fetches →
  ∃ set',
    prepareFetches jsonGet ctx data fetches set inputs
      = (set', inputs ++ ((λ f, (Render (FetchInputTemplate f) ctx data "").1) <$> fetches),
         None) ∧
    (∀ k, is_Some (set' !! k) ↔ is_Some (set !! k) ∨ k ∈ BufferId <$> fetches).
Proof.
  intros Hr. revert set inputs.
  induction Hr as [|f fetches Hf _ IH]; intros set inputs.
  { exists set. cbn. rewrite List.app_nil_r. split; [done|].
    intros k. rewrite elem_of_nil. tauto. }
  cbn [prepareFetches]. unfold prepareSingleFetch.
  destruct (Render _ _ _ _) as [input e] eqn:Hrender. cbn [fst snd] in *. subst e.
  destruct (IH (<[BufferId f:=NewBufPair]> set) (inputs ++ [input])) as (set' & -> & Hdom).
  exists set'. split.
  - rewrite <- List.app_assoc, fmap_cons, Hrender. reflexivity.
  - intros k. rewrite Hdom, fmap_cons, elem_of_cons.
    destruct (decide (k = BufferId f)) as [->|Hne].
    + rewrite lookup_insert_eq. split; [|eauto]. intros _. right. by left.
    + rewrite lookup_insert_ne by done. tauto.
Qed.

Lemma runFetches_dom (fetches : list SingleFetch) (inputs : list bytes)
    (set : gmap Z BufPair) (k : Z) :
  is_Some (set !! k) →
  is_Some (runFetches hash64 EnableSingleFlightLoader fetches inputs set !! k).
Proof.
  revert inputs set. induction fetches as [|s fetches IH]; intros [|i inputs] set Hk;
    try done.
  cbn [runFetches]. destruct (resolveSingleFetch _ _ _ _ _ _) as [buf e].
  apply IH. destruct (decide (k = BufferId s)) as [->|Hne].
  - by rewrite lookup_insert_eq.
  - by rewrite lookup_insert_ne.
Qed.

(** X16. A parallel fetch reports the errors of its input templates only.
    When every template renders, it returns no error, whatever the data
    sources return, and the result set holds a buffer for every fetch.  A
    single fetch made without single flight returns the error of its
    load. *)
Theorem parallel_fetch_reports_no_load_error (ctx : Context) (data : option bytes)
    (set : gmap Z BufPair) :
  (∀ fetches,
     Forall (λ f, (Render (FetchInputTemplate f) ctx data "").2 = None) fetches →
     ∃ set', resolveFetch ctx (FetchParallel fetches) data set = (set', None) ∧
             ∀ f, f ∈ fetches → is_Some (set' !! BufferId f)) ∧
  (∀ f input,
     Render (FetchInputTemplate f) ctx data "" = (input, None) →
     negb EnableSingleFlightLoader || DisallowSingleFlight f = true →
     (resolveFetch ctx (FetchSingle f) data set).2
       = errExternal <$> (Load (FetchDataSource f) input NewBufPair).2).
Proof.
  split.
  - intros fetches Hr. cbn [resolve.resolveFetch].
    destruct (prepareFetches_rendered ctx data fetches set [] Hr) as (set' & -> & Hdom).
    eexists. split; [reflexivity|]. intros f Hf. apply runFetches_dom, Hdom.
    right. by apply list_elem_of_fmap_2.
  - intros f input Hr Hsf. cbn [resolve.resolveFetch]. unfold prepareSingleFetch.
    rewrite Hr. unfold resolveSingleFetch. rewrite Hsf.
    rewrite lookup_total_insert_eq.
    by destruct (Load _ _ _).
Qed.

End TemplateFacts.

(** ** Package resolve: what every node keeps *)

Section NodeInduction.

Import Bytes resolve Spec.

(** Induction on a plan tree, with the hypothesis for every field value of
    an object and for the item of an array. *)
Lemma Node_nested_ind (P : Node → Prop) :
  (∀ Nullable Path FieldSets fetch,
      Forall (λ fs, Forall (λ f, P (Field_Value f)) (FieldSet_Fields fs)) FieldSets →
      P (NodeObject Nullable Path FieldSets fetch)) →
  P NodeEmptyObject →
  (∀ Path Nullable ResolveAsynchronous Item,
      P Item → P (NodeArray Path Nullable ResolveAsynchronous Item)) →
  P NodeEmptyArray →
  P NodeNull →
  (∀ Path Nullable, P (NodeString Path Nullable)) →
  (∀ Path Nullable, P (NodeBoolean Path Nullable)) →
  (∀ Path Nullable, P (NodeInteger Path Nullable)) →
  (∀ Path Nullable, P (NodeFloat Path Nullable)) →
  P NodeNil →
  ∀ node, P node.
Proof.
  intros Hobj Heo Harr Hea Hnull Hs Hb Hi Hf Hnil.
  fix IH 1. intros [N Path FieldSets fetch| |Path N A Item| | |Path N|Path N|Path N|Path N|].
  - apply Hobj. induction FieldSets as [|[t id hb Fields] FieldSets IHsets];
      constructor; [|exact IHsets].
    cbn. induction Fields as [|[name value] Fields IHfields]; constructor;
      [apply IH|exact IHfields].
  - exact Heo.
  - apply Harr, IH.
  - exact Hea.
  - exact Hnull.
  - apply Hs.
  - apply Hb.
  - apply Hi.
  - apply Hf.
  - exact Hnil.
Qed.

End NodeInduction.

Section ErrorsGrow.

Import Bytes resolve Spec.

Variable jsonGet :
  option bytes → list string → option bytes * jsonparser.ValueType * option string.
Variable jsonArrayEach : option bytes → list string → list (option bytes).
Variable hash64 : bytes → Z.
Variable raceWinner : list error → nat.
Variable EnableSingleFlightLoader : bool.
Variable rec : Node → option bytes → BufPair → BufPair * option error.

Lemma errorsGrow_refl (b : BufPair) : errorsGrow b b.
Proof. exists "". by rewrite app_nil_r. Qed.

Lemma errorsGrow_trans (a b c : BufPair) :
  errorsGrow a b → errorsGrow b c → errorsGrow a c.
Proof. intros [x Hx] [y Hy]. exists (x +:+ y). by rewrite Hy, Hx, app_assoc. Qed.

Lemma errorsGrow_eq (a b : BufPair) : Errors b = Errors a → errorsGrow a b.
Proof. intros H. exists "". by rewrite app_nil_r. Qed.

Lemma writeSafe_Errors (err : option error) (b : BufPair) (x : bytes) :
  Errors (writeSafe err b x).1 = Errors b.
Proof. by destruct err. Qed.

Lemma MergeBufPairs_grow (from to : BufPair) (p : bool) :
  errorsGrow to (MergeBufPairs from to p).1.1.1.2.
Proof.
  destruct (MergeBufPairs_spec from to p) as (dw & ew & -> & _).
  cbn. eexists. reflexivity.
Qed.

Lemma resolveField_grows (Nullable : bool) (d : option bytes) (f : Field)
    (st : objectState) :
  objectFlowGrows (o_objectBuf st) (resolveField rec Nullable d f st).
Proof.
  destruct f as [Name Value]. unfold resolveField.
  set (w1 := if o_first st then _ else _).
  assert (Errors w1.1 = Errors (o_objectBuf st)) as H1.
  { subst w1. destruct (o_first st); apply writeSafe_Errors. }
  destruct w1 as [b1 e1]. cbn [fst] in H1.
  destruct (writeSafe e1 b1 quote) as [b2 e2] eqn:W2.
  destruct (writeSafe e2 b2 Name) as [b3 e3] eqn:W3.
  destruct (writeSafe e3 b3 quote) as [b4 e4] eqn:W4.
  destruct (writeSafe e4 b4 colon) as [b5 e5] eqn:W5.
  assert (Errors b5 = Errors (o_objectBuf st)) as H5.
  { rewrite <- H1.
    change b5 with (b5, e5).1. rewrite <- W5, writeSafe_Errors.
    change b4 with (b4, e4).1. rewrite <- W4, writeSafe_Errors.
    change b3 with (b3, e3).1. rewrite <- W3, writeSafe_Errors.
    change b2 with (b2, e2).1. by rewrite <- W2, writeSafe_Errors. }
  destruct e5 as [e|]; [by apply errorsGrow_eq|].
  destruct (rec Value d (o_fieldBuf st)) as [fieldBuf [e|]].
  - destruct (errorsIs e errNonNullableFieldValueIsNull && Nullable).
    + by apply errorsGrow_eq.
    + by apply errorsGrow_eq.
  - pose proof (MergeBufPairs_grow fieldBuf b5 false) as Hm.
    destruct (MergeBufPairs fieldBuf b5 false) as [[[[f' o'] dw] ew] me].
    cbn in *. eapply errorsGrow_trans; [|exact Hm]. by apply errorsGrow_eq.
Qed.

Lemma resolveFields_grows (Nullable : bool) (d : option bytes) (fields : list Field)
    (st : objectState) :
  objectFlowGrows (o_objectBuf st) (resolveFields rec Nullable d fields st).
Proof.
  revert st. induction fields as [|f fields IH]; intros st; [apply errorsGrow_refl|].
  cbn [resolveFields]. pose proof (resolveField_grows Nullable d f st) as Hf.
  destruct (resolveField rec Nullable d f st) as [st'|r]; [|exact Hf].
  specialize (IH st'). cbn in Hf.
  destruct (resolveFields rec Nullable d fields st') as [st''|r]; cbn in *;
    by eapply errorsGrow_trans.
Qed.

Lemma resolveFieldSets_grows (Nullable : bool) (set : option (gmap Z BufPair))
    (data : option bytes) (fieldSets : list FieldSet) (st : objectState) :
  objectFlowGrows (o_objectBuf st)
    (resolveFieldSets jsonGet rec Nullable set data fieldSets st).
Proof.
  revert st. induction fieldSets as [|fs fieldSets IH]; intros st;
    [apply errorsGrow_refl|].
  cbn [resolveFieldSets].
  assert (objectFlowGrows (o_objectBuf st)
            (resolveFieldSet jsonGet rec Nullable set data fs st)) as Hf.
  { destruct fs as [t id hb Fields]. unfold resolveFieldSet.
    destruct (typeNameMismatch _ _ _); [apply errorsGrow_refl|].
    apply resolveFields_grows. }
  destruct (resolveFieldSet jsonGet rec Nullable set data fs st) as [st'|r]; [|exact Hf].
  specialize (IH st'). cbn in Hf.
  destruct (resolveFieldSets jsonGet rec Nullable set data fieldSets st') as [st''|r];
    cbn in *; by eapply errorsGrow_trans.
Qed.

Lemma mergeSetErrors_grows (set : gmap Z BufPair) (objectBuf : BufPair) :
  errorsGrow objectBuf (mergeSetErrors set objectBuf).2.
Proof.
  unfold mergeSetErrors. generalize (map_to_list set) as l. generalize set as s.
  intros s l. revert s objectBuf.
  induction l as [|[k b] l IH]; intros s objectBuf; [apply errorsGrow_refl|].
  cbn [foldl]. eapply errorsGrow_trans; [|apply IH].
  rewrite MergeBufPairErrors_spec. cbn. eexists. reflexivity.
Qed.

Lemma resolveObject_grows (ctx : Context) (Nullable : bool) (Path : list string)
    (FieldSets : list FieldSet) (fetch : option Fetch) (data : option bytes)
    (objectBuf : BufPair) :
  errorsGrow objectBuf
    (resolveObject jsonGet hash64 EnableSingleFlightLoader rec ctx Nullable Path
       FieldSets fetch data objectBuf).1.
Proof.
  unfold resolveObject.
  assert (match fetchObject jsonGet hash64 EnableSingleFlightLoader ctx fetch
                  (objectData jsonGet Path data) objectBuf with
          | Return r => errorsGrow objectBuf r.1
          | Next (set, b) => errorsGrow objectBuf b
          end) as Hf.
  { unfold fetchObject. destruct fetch as [f|]; [|apply errorsGrow_refl].
    destruct (resolveFetch _ _ _ _ _ _ _) as [set [e|]]; [apply errorsGrow_refl|].
    pose proof (mergeSetErrors_grows set objectBuf) as Hm.
    by destruct (mergeSetErrors set objectBuf). }
  destruct (fetchObject _ _ _ _ _ _ _) as [[set b]|r]; [|exact Hf].
  set (st := {| o_objectBuf := b |}).
  pose proof (resolveFieldSets_grows Nullable set (objectData jsonGet Path data)
                FieldSets st) as Hl.
  destruct (resolveFieldSets _ _ _ _ _ _ _) as [st'|r]; cbn in Hl.
  - eapply errorsGrow_trans; [exact Hf|]. eapply errorsGrow_trans; [exact Hl|].
    apply errorsGrow_eq. unfold finishObject.
    destruct (o_first st'); [destruct Nullable; cbn; [done|by destruct (o_typeNameSkip st')]|].
    apply writeSafe_Errors.
  - by eapply errorsGrow_trans.
Qed.

Lemma resolveItems_grows (Nullable : bool) (Item : Node) (items : list (option bytes))
    (st : arrayState) :
  arrayFlowGrows (a_arrayBuf st) (resolveItems rec Nullable Item items st).
Proof.
  revert st. induction items as [|x items IH]; intros st; [apply errorsGrow_refl|].
  cbn [resolveItems].
  assert (arrayFlowGrows (a_arrayBuf st) (resolveItem rec Nullable Item x st)) as Hf.
  { unfold resolveItem. destruct (rec Item x (a_itemBuf st)) as [itemBuf [e|]].
    - destruct (errorsIs e errNonNullableFieldValueIsNull && Nullable);
        [by apply errorsGrow_eq|].
      destruct (errorsIs e errTypeNameSkipped); apply errorsGrow_refl.
    - pose proof (MergeBufPairs_grow itemBuf (a_arrayBuf st) (a_hasPreviousItem st)) as Hm.
      by destruct (MergeBufPairs _ _ _) as [[[[f' o'] dw] ew] me]. }
  destruct (resolveItem rec Nullable Item x st) as [st'|r]; [|exact Hf].
  specialize (IH st'). cbn in Hf.
  destruct (resolveItems rec Nullable Item items st') as [st''|r]; cbn in *;
    by eapply errorsGrow_trans.
Qed.

Lemma foldl_mergeItem_grows (bufs : list BufPair) (st : arrayState) :
  errorsGrow (a_arrayBuf st) (a_arrayBuf (foldl mergeItem st bufs)).
Proof.
  revert st. induction bufs as [|b bufs IH]; intros st; [apply errorsGrow_refl|].
  cbn [foldl]. eapply errorsGrow_trans; [|apply IH].
  unfold mergeItem.
  pose proof (MergeBufPairs_grow b (a_arrayBuf st) (a_hasPreviousItem st)) as Hm.
  by destruct (MergeBufPairs _ _ _) as [[[[f' o'] dw] ew] me].
Qed.

Lemma resolveArray_grows (Path : list string) (Nullable ResolveAsynchronous : bool)
    (Item : Node) (data : option bytes) (arrayBuf : BufPair) :
  errorsGrow arrayBuf
    (resolveArray jsonArrayEach raceWinner rec Path Nullable ResolveAsynchronous Item
       data arrayBuf).1.
Proof.
  unfold resolveArray. destruct (_ =? _)%Z.
  { destruct Nullable; cbn; by apply errorsGrow_eq. }
  destruct ResolveAsynchronous.
  - unfold resolveArrayAsynchronous. rewrite writeSafe_None.
    destruct (match receivedError _ _ with Some e => Some e | None => None end) as [e|].
    + destruct (errorsIs e errNonNullableFieldValueIsNull && Nullable);
        by apply errorsGrow_eq.
    + eapply errorsGrow_trans; [|apply errorsGrow_eq, writeSafe_Errors].
      eapply errorsGrow_trans; [|apply foldl_mergeItem_grows]. by apply errorsGrow_eq.
  - unfold resolveArraySynchronous. rewrite writeSafe_None.
    set (st := {| a_arrayBuf := writeData arrayBuf lBrack |}).
    pose proof (resolveItems_grows Nullable Item (jsonArrayEach data Path) st) as Hl.
    destruct (resolveItems _ _ _ _ _) as [st'|r]; cbn in Hl.
    + eapply errorsGrow_trans; [exact Hl|]. apply errorsGrow_eq, writeSafe_Errors.
    + exact Hl.
Qed.

End ErrorsGrow.

Section NodeFacts.

Import Bytes resolve Spec.

Variable jsonGet :
  option bytes → list string → option bytes * jsonparser.ValueType * option string.
Variable jsonArrayEach : option bytes → list string → list (option bytes).
Variable hash64 : bytes → Z.
Variable raceWinner : list error → nat.
Variable EnableSingleFlightLoader : bool.

Local Abbreviation resolveNode :=
  (resolve.resolveNode jsonGet jsonArrayEach hash64 raceWinner EnableSingleFlightLoader).

Lemma scalar_cases (ctx : Context) (node : Node)
    (Path : list string) (Nullable : bool) (t : jsonparser.ValueType)
    (data : option bytes) (buf : BufPair) :
  scalarOf node = Some (Path, Nullable, t) →
  let r := resolveNode ctx node data buf in
  Errors r.1 = Errors buf ∧
  match r.2 with
  | None => ∃ out, r.1 = writeData buf out
  | Some e => e = errNonNullableFieldValueIsNull ∧ Nullable = false ∧ r.1 = buf
  end ∧
  (Nullable = true → r.2 = None) ∧
  ((jsonGet data Path).2 ≠ None ∨ (jsonGet data Path).1.2 ≠ t →
   r = if Nullable then (writeData buf null, None)
       else (buf, Some errNonNullableFieldValueIsNull)).
Proof.
  intros Hs r. subst r.
  assert (∀ o : option string, notNil o = false ↔ o = None) as HnotNil.
  { intros [x|]; cbn; split; intros; done. }
  destruct node as [N P F f| |P N A I| | |P N|P N|P N|P N|]; try done;
    injection Hs as <- <- <-; cbn [resolve.resolveNode];
    [unfold resolveString|unfold resolveBoolean|unfold resolveInteger|unfold resolveFloat];
    destruct (jsonGet data P) as [[v vt] ge]; cbn [fst snd];
    (destruct (notNil ge) eqn:Hge; cbn [orb];
     [|apply HnotNil in Hge; subst ge; case_bool_decide as Ht; cbn [negb]]);
    try (destruct N; cbn; repeat split; eauto; try done; intros; done).
  - destruct (negb (notNil data) && negb N) eqn:Hd.
    + apply andb_true_iff in Hd as [_ HN]. apply negb_true_iff in HN. subst N.
      cbn. split; [done|]. split; [done|]. split; [done|]. intros [?|?]; done.
    + rewrite !writeSafe_None. cbn [fst snd]. split; [done|]. split.
      * exists (quote +:+ default "" v +:+ quote). unfold writeData. cbn [Data Errors].
        by rewrite !app_assoc.
      * split; [done|]. intros [?|?]; done.
  - rewrite writeSafe_None. cbn [fst snd]. split; [done|]. split; [eauto|].
    split; [done|]. intros [?|?]; done.
  - rewrite writeSafe_None. cbn [fst snd]. split; [done|]. split; [eauto|].
    split; [done|]. intros [?|?]; done.
  - rewrite writeSafe_None. cbn [fst snd]. split; [done|]. split; [eauto|].
    split; [done|]. intros [?|?]; done.
Qed.

(** X17. A scalar node never touches the errors buffer.  It fails only when
    it is non-nullable, with NonNullableFieldValueIsNull and with the buffer
    pair as it was; otherwise it appends to the data.  When the value is
    missing or of another JSON type than the node expects, a nullable node
    appends [null] and a non-nullable one fails. *)
Theorem scalar_nodes_write_or_fail (ctx : Context) (node : Node)
    (Path : list string) (Nullable : bool) (t : jsonparser.ValueType)
    (data : option bytes) (buf : BufPair) :
  scalarOf node = Some (Path, Nullable, t) →
  let r := resolveNode ctx node data buf in
  Errors r.1 = Errors buf ∧
  match r.2 with
  | None => ∃ out, r.1 = writeData buf out
  | Some e => e = errNonNullableFieldValueIsNull ∧ Nullable = false ∧ r.1 = buf
  end ∧
  (Nullable = true → r.2 = None) ∧
  ((jsonGet data Path).2 ≠ None ∨ (jsonGet data Path).1.2 ≠ t →
   r = if Nullable then (writeData buf null, None)
       else (buf, Some errNonNullableFieldValueIsNull)).
Proof. apply scalar_cases. Qed.

(** X18. No node removes a byte from the errors buffer it is given: whether
    it succeeds, fails or is replaced by [null], the errors that were in the
    buffer are at the front of the errors it leaves. *)
Theorem errors_are_never_erased (ctx : Context) (node : Node) (data : option bytes)
    (buf : BufPair) :
  errorsGrow buf (resolveNode ctx node data buf).1.
Proof.
  destruct node as [N P F f| |P N A I| | |P N|P N|P N|P N|]; cbn [resolve.resolveNode].
  - apply resolveObject_grows.
  - apply errorsGrow_eq. unfold resolveEmptyObject. by rewrite !writeSafe_None.
  - apply resolveArray_grows.
  - apply errorsGrow_eq. unfold resolveEmptyArray. by rewrite !writeSafe_None.
  - by apply errorsGrow_eq.
  - apply errorsGrow_eq.
    destruct (scalar_cases ctx (NodeString P N) P N _ data buf eq_refl) as [H _].
    exact H.
  - apply errorsGrow_eq.
    destruct (scalar_cases ctx (NodeBoolean P N) P N _ data buf eq_refl) as [H _].
    exact H.
  - apply errorsGrow_eq.
    destruct (scalar_cases ctx (NodeInteger P N) P N _ data buf eq_refl) as [H _].
    exact H.
  - apply errorsGrow_eq.
    destruct (scalar_cases ctx (NodeFloat P N) P N _ data buf eq_refl) as [H _].
    exact H.
  - apply errorsGrow_refl.
Qed.

End NodeFacts.

(** ** The errors of a response are a list of error objects *)

Section ErrorListFacts.

Import Bytes resolve Spec.

Variable P : bytes → Prop.
Variable jsonGet :
  option bytes → list string → option bytes * jsonparser.ValueType * option string.
Variable jsonArrayEach : option bytes → list string → list (option bytes).
Variable hash64 : bytes → Z.
Variable raceWinner : list error → nat.
Variable EnableSingleFlightLoader : bool.

Local Abbreviation listed := (λ b : BufPair, errorList P (Errors b)).

Lemma listed_empty : listed NewBufPair.
Proof. apply errorList_empty. Qed.

Lemma merged_errorList (e1 e2 : bytes) (b1 b2 : bool) :
  (b1 = true ↔ e2 ≠ "") → (b2 = true ↔ e1 ≠ "") →
  errorList P e1 → errorList P e2 →
  errorList P (e1 +:+ (if b1 && b2 then comma else "") +:+ e2).
Proof.
  intros H1 H2 L1 L2. pose proof (errorList_app P e1 e2 L1 L2) as H.
  assert (b1 = bool_decide (e2 ≠ "")) as ->.
  { destruct b1; symmetry; [apply bool_decide_eq_true_2|apply bool_decide_eq_false_2].
    - by apply H1.
    - intros ?%H1. done. }
  assert (b2 = bool_decide (e1 ≠ "")) as ->.
  { destruct b2; symmetry; [apply bool_decide_eq_true_2|apply bool_decide_eq_false_2].
    - by apply H2.
    - intros ?%H2. done. }
  exact H.
Qed.

Lemma MergeBufPairErrors_listed (from to : BufPair) :
  listed from → listed to → listed (m_to (MergeBufPairErrors from to)).
Proof.
  intros Lf Lt. rewrite MergeBufPairErrors_spec. cbn [m_to Errors].
  apply merged_errorList; try done; apply HasErrors_true.
Qed.

Lemma MergeBufPairs_listed (from to : BufPair) (p : bool) :
  listed from → listed to →
  listed (MergeBufPairs from to p).1.1.1.2 ∧ (MergeBufPairs from to p).1.1.1.1 = NewBufPair.
Proof.
  intros Lf Lt. destruct (MergeBufPairs_spec from to p) as (dw & ew & -> & _).
  cbn [fst snd Errors]. split; [|done].
  apply merged_errorList; try done; apply HasErrors_true.
Qed.

(** *** Fetches *)

Lemma resolveSingleFetch_listed (f : SingleFetch) (input : bytes) :
  loadsErrorList P (FetchDataSource f) →
  listed (resolveSingleFetch hash64 EnableSingleFlightLoader ∅ f input NewBufPair).1.
Proof.
  intros Hl. specialize (Hl input). unfold resolveSingleFetch.
  destruct (negb EnableSingleFlightLoader || DisallowSingleFlight f).
  - by destruct (Load _ _ _).
  - rewrite lookup_empty. unfold resolveSingleFetch_leader.
    destruct (Load _ _ _) as [shared lerr]. rewrite leaderCopy_spec.
    cbn [fst snd] in *. unfold dependentCopy.
    destruct (HasData shared), (HasErrors shared) eqn:He; cbn;
      rewrite ?app_nil_l; try done; apply errorList_empty.
Qed.

Lemma prepareFetches_fresh (ctx : Context) (data : option bytes)
    (fetches : list SingleFetch) (set : gmap Z BufPair) (inputs : list bytes) :
  (∀ k b, set !! k = Some b → b = NewBufPair) →
  ∀ k b, (prepareFetches jsonGet ctx data fetches set inputs).1.1 !! k = Some b →
         b = NewBufPair.
Proof.
  revert set inputs. induction fetches as [|f fetches IH]; intros set inputs Hset; [done|].
  cbn [prepareFetches]. unfold prepareSingleFetch.
  destruct (Render _ _ _ _ _) as [input e].
  assert (∀ k b, <[BufferId f:=NewBufPair]> set !! k = Some b → b = NewBufPair) as Hset'.
  { intros k b [[_ <-]|[_ ?]]%lookup_insert_Some; [done|]. by eapply Hset. }
  destruct e as [e|]; [exact Hset'|]. by apply IH.
Qed.

Lemma runFetches_listed (fetches : list SingleFetch) (inputs : list bytes)
    (set : gmap Z BufPair) :
  Forall (λ f, loadsErrorList P (FetchDataSource f)) fetches →
  NoDup (BufferId <$> fetches) →
  (∀ f, f ∈ fetches → set !!! BufferId f = NewBufPair) →
  (∀ k b, set !! k = Some b → listed b) →
  ∀ k b, runFetches hash64 EnableSingleFlightLoader fetches inputs set !! k = Some b →
         listed b.
Proof.
  intros Hl. revert inputs set.
  induction Hl as [|f fetches Hf _ IH]; intros inputs set Hnd Hnew Hset; [done|].
  destruct inputs as [|input inputs]; [done|].
  cbn [runFetches]. rewrite (Hnew f) by left.
  pose proof (resolveSingleFetch_listed f input Hf) as Hres.
  destruct (resolveSingleFetch _ _ _ _ _ _) as [buf e]. cbn [fst] in Hres.
  rewrite fmap_cons in Hnd. apply NoDup_cons in Hnd as [Hnotin Hnd].
  apply IH; [done| |].
  - intros g Hg. rewrite lookup_total_insert_ne.
    + apply Hnew. by right.
    + intros Heq. apply Hnotin. rewrite Heq. by apply list_elem_of_fmap_2.
  - intros k b [[_ <-]|[_ ?]]%lookup_insert_Some; [done|]. by eapply Hset.
Qed.

Lemma resolveFetch_listed (ctx : Context) (fetch : Fetch) (data : option bytes) :
  fetchInOrder P (Some fetch) →
  ∀ k b, (resolveFetch jsonGet hash64 EnableSingleFlightLoader ctx fetch data ∅).1 !! k
           = Some b →
         listed b.
Proof.
  intros [Hl Hnd]. destruct fetch as [f|fetches]; cbn [resolveFetch fetchesOf] in *.
  - unfold prepareSingleFetch. destruct (Render _ _ _ _ _) as [input [e|]]; cbn [fst].
    + intros k b [[_ <-]|[_ ?]]%lookup_insert_Some; [apply listed_empty|done].
    + rewrite lookup_total_insert_eq.
      apply Forall_cons in Hl as [Hf _].
      pose proof (resolveSingleFetch_listed f input Hf) as Hres.
      destruct (resolveSingleFetch _ _ _ _ _ _) as [buf e]. cbn [fst] in *.
      intros k b [[_ <-]|[_ Hk]]%lookup_insert_Some; [done|].
      apply lookup_insert_Some in Hk as [[_ <-]|[_ ?]]; [apply listed_empty|done].
  - pose proof (prepareFetches_fresh ctx data fetches ∅ []) as Hfresh.
    destruct (prepareFetches _ _ _ _ _ _) as [[set inputs] e]. cbn [fst] in Hfresh.
    assert (∀ k b, set !! k = Some b → b = NewBufPair) as Hset by (by apply Hfresh).
    destruct e as [e|]; cbn [fst].
    + intros k b Hk. rewrite (Hset k b Hk). apply listed_empty.
    + apply runFetches_listed; try done.
      * intros f _. rewrite lookup_total_alt.
        destruct (set !! BufferId f) as [b|] eqn:Hb; [|done]. cbn. by eapply Hset.
      * intros k b Hk. rewrite (Hset k b Hk). apply listed_empty.
Qed.

Lemma mergeSetErrors_listed (set : gmap Z BufPair) (objectBuf : BufPair) :
  (∀ k b, set !! k = Some b → listed b) → listed objectBuf →
  listed (mergeSetErrors set objectBuf).2.
Proof.
  intros Hset. unfold mergeSetErrors.
  assert (Forall (λ kb, listed kb.2) (map_to_list set)) as Hl.
  { apply Forall_forall. intros [k b] Hkb%elem_of_map_to_list. by eapply Hset. }
  revert Hl. generalize (map_to_list set) as l. generalize set as s.
  intros s l Hl. revert s objectBuf.
  induction Hl as [|[k b] l Hb _ IH]; intros s objectBuf Ho; [done|].
  cbn [foldl]. apply IH. cbn [snd]. by apply MergeBufPairErrors_listed.
Qed.

(** *** Objects and arrays, over the recursive call *)

Variable rec : Node → option bytes → BufPair → BufPair * option error.

Local Abbreviation keeps := (keepsErrorList P rec).

Local Abbreviation objectListed := (Spec.objectListed P).
Local Abbreviation arrayListed := (Spec.arrayListed P).

Lemma writeSafe_listed (err : option error) (b : BufPair) (x : bytes) :
  listed b → listed (writeSafe err b x).1.
Proof. by destruct err. Qed.

Lemma resolveField_listed (Nullable : bool) (d : option bytes) (f : Field)
    (st : objectState) :
  keeps (Field_Value f) →
  listed (o_objectBuf st) → listed (o_fieldBuf st) →
  objectListed (resolveField rec Nullable d f st).
Proof.
  destruct f as [Name Value]. cbn [Field_Value]. intros Hv Lo Lf. unfold resolveField.
  set (w1 := if o_first st then _ else _).
  assert (listed w1.1) as H1.
  { subst w1. destruct (o_first st); by apply writeSafe_listed. }
  destruct w1 as [b1 e1]. cbn [fst] in H1.
  pose proof (writeSafe_listed e1 b1 quote H1) as H2.
  destruct (writeSafe e1 b1 quote) as [b2 e2]. cbn [fst] in H2.
  pose proof (writeSafe_listed e2 b2 Name H2) as H3.
  destruct (writeSafe e2 b2 Name) as [b3 e3]. cbn [fst] in H3.
  pose proof (writeSafe_listed e3 b3 quote H3) as H4.
  destruct (writeSafe e3 b3 quote) as [b4 e4]. cbn [fst] in H4.
  pose proof (writeSafe_listed e4 b4 colon H4) as H5.
  destruct (writeSafe e4 b4 colon) as [b5 e5]. cbn [fst] in H5.
  destruct e5 as [e|]; [exact H5|].
  pose proof (Hv d (o_fieldBuf st) Lf) as Hchild.
  destruct (rec Value d (o_fieldBuf st)) as [fieldBuf [e|]]; cbn [fst] in Hchild.
  - destruct (errorsIs e errNonNullableFieldValueIsNull && Nullable); exact H5.
  - destruct (MergeBufPairs_listed fieldBuf b5 false Hchild H5) as [Hto Hfrom].
    destruct (MergeBufPairs fieldBuf b5 false) as [[[[f' o'] dw] ew] me].
    cbn [fst snd] in *. subst f'. split; [exact Hto|apply listed_empty].
Qed.

Lemma resolveFields_listed (Nullable : bool) (d : option bytes) (fields : list Field)
    (st : objectState) :
  Forall (λ f, keeps (Field_Value f)) fields →
  listed (o_objectBuf st) → listed (o_fieldBuf st) →
  objectListed (resolveFields rec Nullable d fields st).
Proof.
  intros Hall. revert st. induction Hall as [|f fields Hf _ IH]; intros st Lo Lf; [done|].
  cbn [resolveFields]. pose proof (resolveField_listed Nullable d f st Hf Lo Lf) as H.
  destruct (resolveField rec Nullable d f st) as [st'|r]; [|exact H].
  destruct H as [Lo' Lf']. by apply IH.
Qed.

Lemma resolveFieldSets_listed (Nullable : bool) (set : option (gmap Z BufPair))
    (data : option bytes) (fieldSets : list FieldSet) (st : objectState) :
  Forall (λ fs, Forall (λ f, keeps (Field_Value f)) (FieldSet_Fields fs)) fieldSets →
  listed (o_objectBuf st) → listed (o_fieldBuf st) →
  objectListed (resolveFieldSets jsonGet rec Nullable set data fieldSets st).
Proof.
  intros Hall. revert st.
  induction Hall as [|fs fieldSets Hfs _ IH]; intros st Lo Lf; [done|].
  cbn [resolveFieldSets].
  assert (objectListed (resolveFieldSet jsonGet rec Nullable set data fs st)) as H.
  { destruct fs as [t id hb Fields]. unfold resolveFieldSet.
    destruct (typeNameMismatch _ _ _); [done|]. by apply resolveFields_listed. }
  destruct (resolveFieldSet jsonGet rec Nullable set data fs st) as [st'|r]; [|exact H].
  destruct H as [Lo' Lf']. by apply IH.
Qed.

Lemma resolveObject_listed (ctx : Context) (Nullable : bool) (Path : list string)
    (FieldSets : list FieldSet) (fetch : option Fetch) (data : option bytes)
    (objectBuf : BufPair) :
  fetchInOrder P fetch →
  Forall (λ fs, Forall (λ f, keeps (Field_Value f)) (FieldSet_Fields fs)) FieldSets →
  listed objectBuf →
  listed (resolveObject jsonGet hash64 EnableSingleFlightLoader rec ctx Nullable Path
            FieldSets fetch data objectBuf).1.
Proof.
  intros Hfetch Hall Lo. unfold resolveObject.
  assert (match fetchObject jsonGet hash64 EnableSingleFlightLoader ctx fetch
                  (objectData jsonGet Path data) objectBuf with
          | Return r => listed r.1
          | Next (set, b) => listed b
          end) as Hf.
  { unfold fetchObject. destruct fetch as [f|]; [|exact Lo].
    pose proof (resolveFetch_listed ctx f (objectData jsonGet Path data) Hfetch) as Hset.
    destruct (resolveFetch _ _ _ _ _ _ _) as [set [e|]]; [exact Lo|].
    cbn [fst] in Hset.
    pose proof (mergeSetErrors_listed set objectBuf Hset Lo) as Hm.
    by destruct (mergeSetErrors set objectBuf). }
  destruct (fetchObject _ _ _ _ _ _ _) as [[set b]|r]; [|exact Hf].
  set (st := {| o_objectBuf := b |}).
  pose proof (resolveFieldSets_listed Nullable set (objectData jsonGet Path data)
                FieldSets st Hall Hf listed_empty) as Hl.
  destruct (resolveFieldSets _ _ _ _ _ _ _) as [st'|r]; [|exact Hl].
  destruct Hl as [Lo' _]. unfold finishObject.
  destruct (o_first st'); [|by apply writeSafe_listed].
  destruct Nullable; cbn; [done|]. by destruct (o_typeNameSkip st').
Qed.

Lemma resolveItems_listed (Nullable : bool) (Item : Node) (items : list (option bytes))
    (st : arrayState) :
  keeps Item →
  listed (a_arrayBuf st) → listed (a_itemBuf st) →
  arrayListed (resolveItems rec Nullable Item items st).
Proof.
  intros Hi. revert st. induction items as [|x items IH]; intros st La Li; [done|].
  cbn [resolveItems].
  assert (arrayListed (resolveItem rec Nullable Item x st)) as H.
  { unfold resolveItem. pose proof (Hi x (a_itemBuf st) Li) as Hchild.
    destruct (rec Item x (a_itemBuf st)) as [itemBuf [e|]]; cbn [fst] in Hchild.
    - destruct (errorsIs e errNonNullableFieldValueIsNull && Nullable); [exact La|].
      destruct (errorsIs e errTypeNameSkipped); [by split|exact La].
    - destruct (MergeBufPairs_listed itemBuf (a_arrayBuf st) (a_hasPreviousItem st)
                  Hchild La) as [Hto Hfrom].
      destruct (MergeBufPairs _ _ _) as [[[[f' o'] dw] ew] me].
      cbn [fst snd] in *. subst f'. split; [exact Hto|apply listed_empty]. }
  destruct (resolveItem rec Nullable Item x st) as [st'|r]; [|exact H].
  destruct H as [La' Li']. by apply IH.
Qed.

Lemma foldl_mergeItem_listed (bufs : list BufPair) (st : arrayState) :
  Forall listed bufs → listed (a_arrayBuf st) →
  listed (a_arrayBuf (foldl mergeItem st bufs)).
Proof.
  intros Hall. revert st. induction Hall as [|b bufs Hb _ IH]; intros st La; [done|].
  cbn [foldl]. apply IH. unfold mergeItem.
  destruct (MergeBufPairs_listed b (a_arrayBuf st) (a_hasPreviousItem st) Hb La)
    as [Hto _].
  by destruct (MergeBufPairs _ _ _) as [[[[f' o'] dw] ew] me].
Qed.

Lemma resolveArray_listed (Path : list string) (Nullable ResolveAsynchronous : bool)
    (Item : Node) (data : option bytes) (arrayBuf : BufPair) :
  keeps Item → listed arrayBuf →
  listed (resolveArray jsonArrayEach raceWinner rec Path Nullable ResolveAsynchronous
            Item data arrayBuf).1.
Proof.
  intros Hi La. unfold resolveArray. destruct (_ =? _)%Z.
  { by destruct Nullable. }
  destruct ResolveAsynchronous.
  - unfold resolveArrayAsynchronous. rewrite writeSafe_None.
    destruct (match receivedError _ _ with Some e => Some e | None => None end) as [e|].
    + by destruct (errorsIs e errNonNullableFieldValueIsNull && Nullable).
    + apply writeSafe_listed, foldl_mergeItem_listed; [|done].
      apply Forall_forall. intros b Hb.
      apply list_elem_of_fmap in Hb as ([b' e'] & -> & Hb).
      apply list_elem_of_fmap in Hb as (x & Hx & _).
      pose proof (Hi x NewBufPair listed_empty) as H. by rewrite <- Hx in H.
  - unfold resolveArraySynchronous. rewrite writeSafe_None.
    set (st := {| a_arrayBuf := writeData arrayBuf lBrack |}).
    pose proof (resolveItems_listed Nullable Item (jsonArrayEach data Path) st Hi La
                  listed_empty) as Hl.
    destruct (resolveItems _ _ _ _ _) as [st'|r]; [|exact Hl].
    destruct Hl as [La' _]. by apply writeSafe_listed.
Qed.

End ErrorListFacts.

Section ErrorListTheorem.

Import Bytes resolve Spec.

Variable P : bytes → Prop.
Variable jsonGet :
  option bytes → list string → option bytes * jsonparser.ValueType * option string.
Variable jsonArrayEach : option bytes → list string → list (option bytes).
Variable hash64 : bytes → Z.
Variable raceWinner : list error → nat.
Variable EnableSingleFlightLoader : bool.

Local Abbreviation resolveNode :=
  (resolve.resolveNode jsonGet jsonArrayEach hash64 raceWinner EnableSingleFlightLoader).

Lemma resolveNode_listed (ctx : Context) (node : Node) :
  planInOrder P node → keepsErrorList P (resolveNode ctx) node.
Proof.
  induction node as [N Path FieldSets fetch IH| |Path N A Item IH| | |Path N|Path N
                    |Path N|Path N|] using Node_nested_ind;
    intros Hplan data buf Lb; cbn [resolve.resolveNode].
  - inversion Hplan as [? ? ? ? Hfetch Hsets| | | | | | | | |]; subst.
    apply resolveObject_listed; try done.
    clear -IH Hsets. induction IH as [|fs FieldSets Hfs _ IHsets]; [done|].
    apply Forall_cons in Hsets as [Hfields Hsets]. constructor; [|by apply IHsets].
    clear -Hfs Hfields. induction Hfs as [|f Fields Hf _ IHf]; [done|].
    apply Forall_cons in Hfields as [Hv Hfields]. constructor; [by apply Hf|by apply IHf].
  - unfold resolveEmptyObject. by rewrite !writeSafe_None.
  - inversion Hplan; subst. apply resolveArray_listed; [|done]. by apply IH.
  - unfold resolveEmptyArray. by rewrite !writeSafe_None.
  - done.
  - pose proof (scalar_cases jsonGet jsonArrayEach hash64 raceWinner
                  EnableSingleFlightLoader ctx (NodeString Path N) _ _ _ data buf eq_refl) as H.
    cbv zeta in H. cbn [resolve.resolveNode] in H. destruct H as [-> _]. exact Lb.
  - pose proof (scalar_cases jsonGet jsonArrayEach hash64 raceWinner
                  EnableSingleFlightLoader ctx (NodeBoolean Path N) _ _ _ data buf eq_refl) as H.
    cbv zeta in H. cbn [resolve.resolveNode] in H. destruct H as [-> _]. exact Lb.
  - pose proof (scalar_cases jsonGet jsonArrayEach hash64 raceWinner
                  EnableSingleFlightLoader ctx (NodeInteger Path N) _ _ _ data buf eq_refl) as H.
    cbv zeta in H. cbn [resolve.resolveNode] in H. destruct H as [-> _]. exact Lb.
  - pose proof (scalar_cases jsonGet jsonArrayEach hash64 raceWinner
                  EnableSingleFlightLoader ctx (NodeFloat Path N) _ _ _ data buf eq_refl) as H.
    cbv zeta in H. cbn [resolve.resolveNode] in H. destruct H as [-> _]. exact Lb.
  - done.
Qed.

(** X19. When the data sources of a plan leave lists of error objects in the
    empty buffers they fill, and the fetches of one object write to buffers
    of their own, every node of the plan keeps the errors buffer a
    comma-separated list of error objects; so does the resolution of a
    response, which starts from an empty buffer pair. *)
Theorem errors_stay_a_list (ctx : Context) (node : Node) (data : option bytes)
    (buf : BufPair) :
  planInOrder P node →
  (errorList P (Errors buf) →
   errorList P (Errors (resolveNode ctx node data buf).1)) ∧
  errorList P (Errors (resolveNode ctx node data NewBufPair).1).
Proof.
  intros Hplan. split.
  - by apply resolveNode_listed.
  - apply resolveNode_listed; [done|]. apply errorList_empty.
Qed.

End ErrorListTheorem.

(** ** The transformer and the visitors that use it *)

Section TransformerFacts.

Import asttransform.

Variable sortSlice : (action → action → bool) → list action → list action.
Hypothesis contract : sortSliceContract sortSlice.

Lemma sortSlice_unique (l1 l2 : list action) :
  NoDup (precedence <$> l1) → l1 ≡ₚ l2 → sortSlice less l1 = sortSlice less l2.
Proof.
  intros Hnd Hp.
  destruct (contract l1) as [Hp1 Hs1]. destruct (contract l2) as [Hp2 Hs2].
  apply sorted_unique; try done.
  - by rewrite Hp1.
  - by rewrite Hp1, Hp2.
Qed.

Lemma sortSlice_sorted_id (l : list action) :
  NoDup (precedence <$> l) → sortSlice less (sortSlice less l) = sortSlice less l.
Proof.
  intros Hnd. destruct (contract l) as [Hp Hs].
  destruct (contract (sortSlice less l)) as [Hp' Hs'].
  apply sorted_unique; try done. by rewrite Hp', Hp.
Qed.

Lemma applyAll_app {T : Type} `{Transformable T} (l1 l2 : list action) (x : T) :
  applyAll (l1 ++ l2) x = applyAll l2 (applyAll l1 x).
Proof. apply foldl_app. Qed.

(** X20. When the registered precedences are pairwise distinct, the order in
    which the actions were registered does not matter: two transformers that
    hold the same actions leave the same actions and the same AST. *)
Theorem registration_order_is_irrelevant (T : Type) (HT : Transformable T)
    (t1 t2 : Transformer) (transformable : T) :
  NoDup (precedence <$> actions t1) →
  actions t1 ≡ₚ actions t2 →
  ApplyTransformations sortSlice t1 transformable
    = ApplyTransformations sortSlice t2 transformable.
Proof.
  intros Hnd Hp. unfold ApplyTransformations.
  by rewrite (sortSlice_unique _ _ Hnd Hp).
Qed.

(** X21. [ApplyTransformations] does not empty the transformer: the actions
    stay registered, sorted, and a second call applies every one of them
    again, in the same order.  Only [Reset] removes them. *)
Theorem applied_actions_stay_registered (T : Type) (HT : Transformable T)
    (t : Transformer) (transformable : T) :
  NoDup (precedence <$> actions t) →
  let r := ApplyTransformations sortSlice t transformable in
  actions r.1 ≡ₚ actions t ∧
  ApplyTransformations sortSlice r.1 r.2
    = (r.1, applyAll (actions r.1 ++ actions r.1) transformable) ∧
  ApplyTransformations sortSlice (Reset r.1) r.2 = (Reset r.1, r.2).
Proof.
  intros Hnd r. subst r. unfold ApplyTransformations. cbn [fst snd actions Reset].
  destruct (contract (actions t)) as [Hp Hs].
  split; [done|]. split.
  - rewrite sortSlice_sorted_id by done. by rewrite applyAll_app.
  - destruct (contract []) as [Hnil _]. apply Permutation_nil_r in Hnil.
    by rewrite Hnil.
Qed.

End TransformerFacts.

Section VisitorFacts.

Import asttransform astnormalization Spec.

Variable NodeKindField : Z.
Variable NodeKindInlineFragment : Z.
Variable NodeKindInterfaceTypeDefinition : Z.
Variable NodeKindUnionTypeDefinition : Z.
Variable ConcreteInterfaceImplementationTypeNames : Z → list string.
Variable sortSlice : (action → action → bool) → list action → list action.

Lemma ancestor_last (w : astvisitor.Walker) : ancestor w 1 = parentOf w.
Proof.
  unfold ancestor, parentOf, ast.index. rewrite last_lookup.
  destruct (astvisitor.Ancestors w) as [|x l]; [done|].
  cbn [length]. rewrite (proj2 (Z.ltb_ge _ _)) by lia.
  f_equal. lia.
Qed.

Local Abbreviation enterSet :=
  (expandInterfaceSelectionSets_EnterSelectionSet NodeKindField
     NodeKindInterfaceTypeDefinition ConcreteInterfaceImplementationTypeNames).
Local Abbreviation isInterfaceField :=
  (interfaceField NodeKindField NodeKindInterfaceTypeDefinition).
Local Abbreviation expansion :=
  (selectionSetExpansion ConcreteInterfaceImplementationTypeNames).

Lemma enterSet_cases (w : astvisitor.Walker) (t : Transformer) (ref : Z) :
  astvisitor.Ancestors w ≠ [] →
  enterSet w t ref
    = Some (if isInterfaceField w
            then {| actions := actions t ++ [expansion (w, ref)] |}
            else t).
Proof.
  intros Hne. unfold expandInterfaceSelectionSets_EnterSelectionSet, interfaceField.
  rewrite ancestor_last.
  destruct (_ =? NodeKindInterfaceTypeDefinition)%Z; cbn [negb andb]; [|done].
  unfold parentOf. destruct (last (astvisitor.Ancestors w)) as [parent|] eqn:Hl.
  - cbn. by destruct (ast.NodeKind parent =? NodeKindField)%Z.
  - by apply last_None in Hl.
Qed.

Lemma enterSets_fold (entered : list (astvisitor.Walker * Z)) (t : Transformer) :
  Forall (λ e, astvisitor.Ancestors e.1 ≠ []) entered →
  foldl (λ t e, t ≫= λ t, enterSet e.1 t e.2) (Some t) entered
    = Some {| actions := actions t
                ++ (expansion <$> filter (λ e, isInterfaceField e.1 = true) entered) |}.
Proof.
  intros Hne. revert t. induction Hne as [|[w ref] entered Hw _ IH]; intros t.
  { cbn. rewrite List.app_nil_r. by destruct t. }
  cbn [foldl mbind option_bind fst snd]. rewrite enterSet_cases by done.
  rewrite IH. f_equal. f_equal.
  destruct (isInterfaceField w) eqn:Hi.
  - rewrite filter_cons_True by done. cbn [actions]. by rewrite <- List.app_assoc.
  - rewrite filter_cons_False; [done|]. cbn. by rewrite Hi.
Qed.

(** X22. A walk of [expandInterfaceSelectionSetsVisitor] drops what the
    transformer held before, registers one expansion for every selection set
    of a field with an interface type, in the order the walker enters them
    and with the walker's depth and order 0 as precedence, and on leaving
    applies them to the operation with [ApplyTransformations].  A walk that
    enters no such selection set leaves the operation as it is.  Entering a
    selection set of an interface type with no ancestor panics. *)
Theorem expandInterfaceSelectionSets_walk (T : Type) (HT : Transformable T)
    (entered : list (astvisitor.Walker * Z)) (transformer : Transformer)
    (operation : T) :
  Forall (λ e, astvisitor.Ancestors e.1 ≠ []) entered →
  sortSlice less [] = [] →
  let registered :=
    expansion <$> filter (λ e, isInterfaceField e.1 = true) entered in
  walk expandInterfaceSelectionSets_EnterDocument enterSet
       (expandInterfaceSelectionSets_LeaveDocument sortSlice)
       entered transformer operation
    = Some (ApplyTransformations sortSlice {| actions := registered |} operation) ∧
  (Forall (λ e, isInterfaceField e.1 = false) entered →
   walk expandInterfaceSelectionSets_EnterDocument enterSet
        (expandInterfaceSelectionSets_LeaveDocument sortSlice)
        entered transformer operation
     = Some ({| actions := [] |}, operation)) ∧
  (∀ w t ref,
     ast.NodeKind (astvisitor.EnclosingTypeDefinition w) = NodeKindInterfaceTypeDefinition →
     astvisitor.Ancestors w = [] →
     enterSet w t ref = None).
Proof.
  intros Hne Hnil registered. subst registered.
  assert (walk expandInterfaceSelectionSets_EnterDocument enterSet
            (expandInterfaceSelectionSets_LeaveDocument sortSlice)
            entered transformer operation
          = Some (ApplyTransformations sortSlice
                    {| actions := expansion
                                    <$> filter (λ e, isInterfaceField e.1 = true) entered |}
                    operation)) as Hwalk.
  { unfold walk, expandInterfaceSelectionSets_EnterDocument, Reset.
    by rewrite enterSets_fold. }
  split; [exact Hwalk|]. split.
  - intros Hno. rewrite Hwalk.
    assert (filter (λ e, isInterfaceField e.1 = true) entered = []) as ->.
    { clear -Hno. induction Hno as [|e l He _ IH]; [done|].
      rewrite filter_cons_False; [done|]. by rewrite He. }
    unfold ApplyTransformations. cbn [fmap list_fmap actions]. by rewrite Hnil.
  - intros w t ref Hk Ha.
    unfold expandInterfaceSelectionSets_EnterSelectionSet, ancestor.
    rewrite Hk, Z.eqb_refl, Ha. done.
Qed.

Local Abbreviation enterFragment :=
  (expandAbstractInlineFragments_EnterSelectionSet NodeKindInlineFragment
     NodeKindInterfaceTypeDefinition NodeKindUnionTypeDefinition
     ConcreteInterfaceImplementationTypeNames).
Local Abbreviation expandsAt :=
  (fragmentExpansionAt NodeKindInlineFragment NodeKindInterfaceTypeDefinition
     NodeKindUnionTypeDefinition ConcreteInterfaceImplementationTypeNames).

Lemma ancestor_two (w : astvisitor.Walker) :
  (2 ≤ length (astvisitor.Ancestors w))%nat → is_Some (ancestor w 2).
Proof.
  intros Hlen. unfold ancestor, ast.index.
  rewrite (proj2 (Z.ltb_ge _ _)) by lia.
  apply lookup_lt_is_Some. lia.
Qed.

Lemma enterFragment_cases (w : astvisitor.Walker) (t : Transformer) (ref : Z) :
  (2 ≤ length (astvisitor.Ancestors w))%nat →
  enterFragment w t ref = Some t ∨
  ∃ a, enterFragment w t ref = Some {| actions := actions t ++ [a] |} ∧ expandsAt w a.
Proof.
  intros Hlen. unfold expandAbstractInlineFragments_EnterSelectionSet.
  rewrite ancestor_last.
  destruct (parentOf w) as [fragment|] eqn:Hparent.
  2: { unfold parentOf in Hparent. apply last_None in Hparent.
       rewrite Hparent in Hlen. cbn in Hlen. lia. }
  cbn [mbind option_bind].
  destruct (ast.NodeKind fragment =? NodeKindInlineFragment)%Z eqn:Hk;
    cbn [negb]; [|by left].
  apply Z.eqb_eq in Hk.
  destruct (ancestor_two w Hlen) as [parentSet Hset]. rewrite Hset.
  cbn [mbind option_bind].
  destruct (_ =? NodeKindInterfaceTypeDefinition)%Z eqn:Hi; cbn [negb andb].
  - right. eexists. split; [reflexivity|]. apply Z.eqb_eq in Hi.
    split; [done|]. exists fragment, parentSet. repeat split; try done. by left.
  - destruct (_ =? NodeKindUnionTypeDefinition)%Z eqn:Hu; cbn [negb]; [|by left].
    right. eexists. split; [reflexivity|].
    apply Z.eqb_eq in Hu. apply Z.eqb_neq in Hi.
    split; [done|]. exists fragment, parentSet. repeat split; try done. by right.
Qed.

Lemma enterFragments_fold (entered : list (astvisitor.Walker * Z)) (t : Transformer) :
  Forall (λ e, (2 ≤ length (astvisitor.Ancestors e.1))%nat) entered →
  ∃ registered,
    foldl (λ t e, t ≫= λ t, enterFragment e.1 t e.2) (Some t) entered
      = Some {| actions := actions t ++ registered |} ∧
    (length registered ≤ length entered)%nat ∧
    Forall (λ a, ∃ e, e ∈ entered ∧ expandsAt e.1 a) registered.
Proof.
  intros Hlen. revert t. induction Hlen as [|[w ref] entered Hw _ IH]; intros t.
  { exists []. cbn. rewrite List.app_nil_r. by destruct t. }
  cbn [foldl mbind option_bind fst snd].
  destruct (enterFragment_cases w t ref Hw) as [->|(a & -> & Ha)].
  - destruct (IH t) as (registered & -> & Hn & Hall).
    exists registered. split; [done|]. split; [cbn; lia|].
    eapply Forall_impl; [exact Hall|]. intros b (e & He & Hb).
    exists e. split; [by right|done].
  - destruct (IH {| actions := actions t ++ [a] |}) as (registered & -> & Hn & Hall).
    exists (a :: registered). cbn [actions]. rewrite <- List.app_assoc.
    split; [done|]. split; [cbn; lia|]. constructor.
    + exists (w, ref). split; [by left|done].
    + eapply Forall_impl; [exact Hall|]. intros b (e & He & Hb).
      exists e. split; [by right|done].
Qed.

(** X23. A walk of [expandAbstractInlineFragmentsVisitor] whose selection
    sets all have two ancestors does not panic.  It drops what the
    transformer held before and registers at most one action for a selection
    set it enters: for the inline fragment above the set, with the walker's
    depth and order 0, an expansion when the enclosing type is an interface
    and a promotion when it is a union.  On leaving it applies the actions
    to the operation with [ApplyTransformations].  A selection set right
    under an inline fragment of an interface or union type, with no second
    ancestor, panics. *)
Theorem expandAbstractInlineFragments_walk (T : Type) (HT : Transformable T)
    (entered : list (astvisitor.Walker * Z)) (transformer : Transformer)
    (operation : T) :
  Forall (λ e, (2 ≤ length (astvisitor.Ancestors e.1))%nat) entered →
  (∃ registered,
     walk expandAbstractInlineFragments_EnterDocument enterFragment
          (expandAbstractInlineFragments_LeaveDocument sortSlice)
          entered transformer operation
       = Some (ApplyTransformations sortSlice {| actions := registered |} operation) ∧
     (length registered ≤ length entered)%nat ∧
     Forall (λ a, ∃ e, e ∈ entered ∧ expandsAt e.1 a) registered) ∧
  (∀ fragment t ref enclosing depth,
     ast.NodeKind fragment = NodeKindInlineFragment →
     ast.NodeKind enclosing = NodeKindInterfaceTypeDefinition
       ∨ ast.NodeKind enclosing = NodeKindUnionTypeDefinition →
     enterFragment
       {| astvisitor.Ancestors := [fragment];
          astvisitor.EnclosingTypeDefinition := enclosing;
          astvisitor.Depth := depth |} t ref = None).
Proof.
  intros Hlen. split.
  - destruct (enterFragments_fold entered
                (expandAbstractInlineFragments_EnterDocument transformer) Hlen)
      as (registered & Hfold & Hn & Hall).
    exists registered. split; [|done].
    unfold walk. rewrite Hfold. done.
  - intros fragment t ref enclosing depth Hk He.
    unfold expandAbstractInlineFragments_EnterSelectionSet.
    assert (∀ w, astvisitor.Ancestors w = [fragment] →
                 ancestor w 1 = Some fragment ∧ ancestor w 2 = None) as Hanc.
    { intros w Hw. unfold ancestor. by rewrite Hw. }
    set (w := {| astvisitor.Ancestors := [fragment] |}).
    destruct (Hanc w eq_refl) as [-> ->]. cbn [mbind option_bind].
    rewrite Hk, Z.eqb_refl. subst w. cbn [negb astvisitor.EnclosingTypeDefinition].
    destruct He as [->| ->]; rewrite Z.eqb_refl; cbn [negb andb]; [done|].
    by rewrite andb_false_r.
Qed.

End VisitorFacts.

(** ** The result writer *)

Section ResultWriterFacts.

Import Bytes Spec.

Context {World : Type}.

Lemma joinBytes_cons (c : bytes) (chunks : list bytes) :
  joinBytes (c :: chunks) = c +:+ joinBytes chunks.
Proof. reflexivity. Qed.

Lemma flushes_flush (calls : list writerCall) (pending : bytes) :
  flushes (DoFlush :: calls) pending
    = (pending :: (flushes calls "").1, (flushes calls "").2).
Proof. cbn [flushes]. by destruct (flushes calls ""). Qed.

Lemma flushes_written (calls : list writerCall) (pending : bytes) :
  joinBytes (flushes calls pending).1 +:+ (flushes calls pending).2
    = pending +:+ written calls.
Proof.
  revert pending. induction calls as [|[p|] calls IH]; intros pending.
  - cbn. by rewrite app_nil_r.
  - cbn [flushes written]. by rewrite IH, app_assoc.
  - cbn [flushes written]. specialize (IH "").
    destruct (flushes calls "") as [chunks rest]. cbn [fst snd] in *.
    by rewrite joinBytes_cons, app_assoc, IH.
Qed.

Lemma runWriter_flushes (calls : list writerCall)
    (e : graphql.EngineResultWriter World) (world : World) :
  runWriter calls e world
    = ({| graphql.buf := (flushes calls (graphql.buf World e)).2;
          graphql.flushCallback := graphql.flushCallback World e |},
       match graphql.flushCallback World e with
       | Some flushCb =>
           foldl (λ world chunk, flushCb chunk world) world
             (flushes calls (graphql.buf World e)).1
       | None => world
       end).
Proof.
  revert e world. induction calls as [|[p|] calls IH]; intros e world.
  - cbn. destruct e as [b [cb|]]; done.
  - cbn [runWriter flushes]. by rewrite IH.
  - cbn [runWriter flushes]. unfold graphql.Flush. rewrite IH.
    unfold graphql.Reset, graphql.Bytes. cbn [graphql.buf graphql.flushCallback].
    destruct (flushes calls "") as [chunks rest]. cbn [fst snd].
    by destruct (graphql.flushCallback World e).
Qed.

(** X24. Whatever writes and flushes are made on an [EngineResultWriter],
    every flush calls the callback once, also when nothing was written, with
    the bytes written since the flush before; so the bytes given to the
    callback, followed by the bytes still in the buffer, are the bytes
    written, each once and in order.  Without a callback a flush discards
    the bytes. *)
Theorem every_byte_is_flushed_once (calls : list writerCall)
    (e : graphql.EngineResultWriter World) (world : World) :
  let chunks := (flushes calls (graphql.buf World e)).1 in
  let r := runWriter calls e world in
  joinBytes chunks +:+ graphql.Bytes World r.1
    = graphql.buf World e +:+ written calls ∧
  length chunks = length (filter (λ c, c = DoFlush) calls) ∧
  graphql.flushCallback World r.1 = graphql.flushCallback World e ∧
  r.2 = match graphql.flushCallback World e with
        | Some flushCb => foldl (λ world chunk, flushCb chunk world) world chunks
        | None => world
        end ∧
  (last calls = Some DoFlush → graphql.Len World r.1 = 0%Z).
Proof.
  intros chunks r. subst chunks r. rewrite runWriter_flushes. cbn [fst snd].
  unfold graphql.Bytes, graphql.Len. cbn [graphql.buf graphql.flushCallback].
  split; [apply flushes_written|]. split; [|split; [done|split; [done|]]].
  - generalize (graphql.buf World e) as pending.
    induction calls as [|[p|] calls IH]; intros pending; [done| |].
    + cbn [flushes]. rewrite filter_cons_False by done. apply IH.
    + cbn [flushes]. rewrite filter_cons_True by done. specialize (IH "").
      destruct (flushes calls "") as [cs rest]. cbn [fst snd length] in *. by rewrite IH.
  - generalize (graphql.buf World e) as pending.
    induction calls as [|c calls IH]; intros pending Hlast; [done|].
    destruct calls as [|c' calls].
    + cbn in Hlast. injection Hlast as ->. done.
    + rewrite last_cons_cons in Hlast.
      destruct c as [p|].
      * by apply IH.
      * rewrite flushes_flush. by apply IH.
Qed.

End ResultWriterFacts.

(** ** Single flight: no call waits for ever *)

Section Progress.

Import resolve singleflight.

Variable hash64 : bytes → Z.
Variable EnableSingleFlightLoader : bool.

Lemma loading_leads (c : call) (r : nat) : loading c = Some r → leads c = Some r.
Proof. unfold loading, leads. by destruct (c_pc c). Qed.

Lemma released_update (records' : list record) (s : state) (i : nat) (c c' : call) :
  released s → calls s !! i = Some c →
  (∀ r x', records' !! r = Some x' → waitLoad x' ≠ 0%nat →
     (waitLoad x' = 1%nat ∧ loading c' = Some r) ∨
     (∃ x, records s !! r = Some x ∧ waitLoad x = waitLoad x' ∧
           (loading c = Some r → loading c' = Some r))) →
  releasedIn records' (<[i := c']> (calls s)).
Proof.
  intros R Hi Hrec r x' Hr Hw.
  assert (i < length (calls s))%nat as Hlt by (by eapply lookup_lt_Some).
  destruct (Hrec r x' Hr Hw) as [[H1 Hl]|(x & Hx & Hwx & Hl)].
  - split; [done|]. exists i, c'. split; [|done]. by apply list_lookup_insert_eq.
  - rewrite <- Hwx in Hw |- *. destruct (R r x Hx Hw) as [H1 (j & cj & Hj & Hlj)].
    split; [done|]. destruct (decide (j = i)) as [->|Hne].
    + exists i, c'. split; [by apply list_lookup_insert_eq|].
      apply Hl. congruence.
    + exists j, cj. split; [|done]. by rewrite list_lookup_insert_ne.
Qed.

Lemma released_same (s : state) (r r' : nat) (x x' y : record) :
  records s !! r = Some x →
  <[r := x']> (records s) !! r' = Some y →
  waitLoad x' = waitLoad x →
  ∃ x0, records s !! r' = Some x0 ∧ waitLoad x0 = waitLoad y.
Proof.
  intros Hx [(<- & <- & _)|[_ ?]]%list_lookup_insert_Some Hw; eauto.
Qed.

Lemma stepCall_released (s s' : state) (i : nat) :
  invariant hash64 s → released s →
  stepCall hash64 EnableSingleFlightLoader s i = Some s' →
  released s'.
Proof.
  intros I R. unfold stepCall.
  destruct (calls s !! i) as [c|] eqn:Hi; [|done]. cbn.
  destruct (c_pc c) as [|r|r|r|r|r|r|r|r|] eqn:Hpc.
  - (* Enter *)
    assert (loading c = None) as Hlc by (unfold loading; by rewrite Hpc).
    destruct (negb EnableSingleFlightLoader || DisallowSingleFlight (c_fetch c)).
    + destruct (Load _ _ _) as [buf lerr]. intros [= <-].
      apply (released_update _ s i c); try done.
      intros r x' Hr Hw; cbn in Hr. right. exists x'. rewrite Hlc. done.
    + destruct (inflightFetches s !! _) as [r|] eqn:Hk.
      * destruct (records s !! r) as [x|] eqn:Hr; [|done]. cbn. intros [= <-].
        apply (released_update _ s i c); try done.
        intros r' y Hy Hw; cbn in Hy. right. rewrite Hlc.
        destruct (released_same s r r' x _ y Hr Hy eq_refl) as (x0 & ? & ?).
        by exists x0.
      * unfold getInflightFetch.
        destruct (inflightFetchPool s) as [|r pool'] eqn:Hp; cbn.
        -- destruct ((records s ++ [newRecord]) !! length (records s))
             as [x|] eqn:Hr; [|done].
           cbn. intros [= <-].
           rewrite lookup_app_r, Nat.sub_diag in Hr by lia. injection Hr as <-.
           apply (released_update _ s i c); try done.
           intros r' y Hy Hw; cbn in Hy.
           apply list_lookup_insert_Some in Hy as [(<- & <- & _)|[Hne Hy]].
           ++ left. done.
           ++ right. rewrite Hlc.
              apply lookup_app_Some in Hy as [Hy|[Hge Hy]]; [by exists y|].
              apply list_lookup_singleton_Some in Hy as [Hz <-]. lia.
        -- destruct (records s !! r) as [x|] eqn:Hr; [|done]. cbn. intros [= <-].
           assert (waitLoad x = 0%nat) as H0.
           { destruct (decide (waitLoad x = 0%nat)) as [|Hw]; [done|].
             destruct (R r x Hr Hw) as [_ (j & cj & Hj & Hlj)].
             destruct (inv_leads_out _ _ I j cj r Hj (loading_leads _ _ Hlj)) as [Hout _].
             exfalso. apply Hout. rewrite Hp. left. }
           apply (released_update _ s i c); try done.
           intros r' y Hy Hw; cbn in Hy.
           apply list_lookup_insert_Some in Hy as [(<- & <- & _)|[Hne Hy]].
           ++ left. cbn. by rewrite H0.
           ++ right. rewrite Hlc. by exists y.
  - (* LeaderLoad *)
    destruct (records s !! r) as [x|] eqn:Hr; [|done]. cbn.
    destruct (Load _ _ _) as [shared lerr]. intros [= <-].
    apply (released_update _ s i c); try done.
    intros r' y Hy Hw; cbn in Hy. right.
    destruct (released_same s r r' x _ y Hr Hy eq_refl) as (x0 & ? & ?).
    exists x0. split; [done|]. split; [done|]. unfold loading. cbn. by rewrite Hpc.
  - (* LeaderCopy *)
    destruct (records s !! r) as [x|] eqn:Hr; [|done]. cbn. intros [= <-].
    apply (released_update _ s i c); try done.
    intros r' y Hy Hw; cbn in Hy. right. exists y. split; [done|]. split; [done|].
    unfold loading. cbn. by rewrite Hpc.
  - (* LeaderDone *)
    destruct (records s !! r) as [x|] eqn:Hr; [|done]. cbn. intros [= <-].
    apply (released_update _ s i c); try done.
    intros r' y Hy Hw; cbn in Hy. right.
    apply list_lookup_insert_Some in Hy as [(<- & <- & _)|[Hne Hy]].
    + cbn in Hw. exfalso.
      assert (waitLoad x ≠ 0%nat) as Hx by lia.
      destruct (R r x Hr Hx) as [H1 _]. lia.
    + exists y. split; [done|]. split; [done|].
      unfold loading. rewrite Hpc. intros [= ->]. done.
  - (* LeaderDelete *)
    intros [= <-]. apply (released_update _ s i c); try done.
    intros r' y Hy Hw; cbn in Hy. right. exists y. split; [done|]. split; [done|].
    unfold loading. by rewrite Hpc.
  - (* LeaderSpawn *)
    intros [= <-]. apply (released_update _ s i c); try done.
    intros r' y Hy Hw; cbn in Hy. right. exists y. split; [done|]. split; [done|].
    unfold loading. by rewrite Hpc.
  - (* DependentWait *)
    destruct (records s !! r) as [x|] eqn:Hr; [|done]. cbn.
    destruct (waitLoad x =? 0)%nat; [|done]. intros [= <-].
    apply (released_update _ s i c); try done.
    intros r' y Hy Hw; cbn in Hy. right. exists y. split; [done|]. split; [done|].
    unfold loading. by rewrite Hpc.
  - (* DependentCopy *)
    destruct (records s !! r) as [x|] eqn:Hr; [|done]. cbn. intros [= <-].
    apply (released_update _ s i c); try done.
    intros r' y Hy Hw; cbn in Hy. right. exists y. split; [done|]. split; [done|].
    unfold loading. by rewrite Hpc.
  - (* DependentReturn *)
    destruct (records s !! r) as [x|] eqn:Hr; [|done]. cbn. intros [= <-].
    apply (released_update _ s i c); try done.
    intros r' y Hy Hw; cbn in Hy. right.
    destruct (released_same s r r' x _ y Hr Hy eq_refl) as (x0 & ? & ?).
    exists x0. split; [done|]. split; [done|]. unfold loading. by rewrite Hpc.
  - done.
Qed.

Lemma stepFree_released (s s' : state) (k : nat) :
  released s → stepFree s k = Some s' → released s'.
Proof.
  intros R. unfold stepFree.
  destruct (freeing s !! k) as [r|] eqn:Hk; [|done]. cbn.
  destruct (records s !! r) as [x|] eqn:Hr; [|done]. cbn.
  destruct (waitFree x =? 0)%nat; [|done]. intros [= <-].
  intros r' y Hy Hw. cbn in Hy.
  destruct (released_same s r r' x _ y Hr Hy eq_refl) as (x0 & Hx0 & Hw0).
  rewrite <- Hw0 in Hw |- *. exact (R r' x0 Hx0 Hw).
Qed.

Lemma run_released (calls0 : list call) (schedule : list actor) (s : state) :
  Forall (λ c, c_pc c = Enter) calls0 →
  run hash64 EnableSingleFlightLoader schedule (initial calls0) = Some s →
  invariant hash64 s ∧ released s.
Proof.
  intros H0. revert s. induction schedule as [|a schedule IH] using rev_ind; intros s.
  - cbn. intros [= <-]. split; [by apply initial_invariant|].
    intros r x Hr. cbn in Hr. by rewrite lookup_nil in Hr.
  - rewrite run_snoc.
    destruct (run hash64 EnableSingleFlightLoader schedule (initial calls0)) as [s1|];
      [|done].
    cbn [mbind option_bind]. intros Hstep. destruct (IH s1 eq_refl) as [I R].
    split; [by eapply step_invariant|].
    destruct a as [i|k]; cbn in Hstep.
    + by eapply stepCall_released.
    + by eapply stepFree_released.
Qed.

Lemma record_of_leader (s : state) (i : nat) (c : call) (r : nat) :
  invariant hash64 s → calls s !! i = Some c → leads c = Some r →
  is_Some (records s !! r).
Proof.
  intros I Hi Hl. apply lookup_lt_is_Some. by eapply (inv_leads_bound _ _ I).
Qed.

Lemma record_of_dependent (s : state) (i : nat) (c : call) (r : nat) :
  invariant hash64 s → calls s !! i = Some c → dependentOn c = Some r →
  is_Some (records s !! r).
Proof.
  intros I Hi Hl. apply lookup_lt_is_Some. by eapply (inv_dependent_bound _ _ I).
Qed.

(** A call that is not in [waitLoad.Wait()] and has not returned can take
    its step. *)
Lemma stepCall_enabled (s : state) (i : nat) (c : call) :
  invariant hash64 s → calls s !! i = Some c →
  c_pc c ≠ Returned → (∀ r, c_pc c ≠ DependentWait r) →
  is_Some (stepCall hash64 EnableSingleFlightLoader s i).
Proof.
  intros I Hi Hret Hwait. unfold stepCall. rewrite Hi. cbn [mbind option_bind].
  destruct (c_pc c) as [|r|r|r|r|r|r|r|r|] eqn:Hpc; try done.
  - destruct (negb EnableSingleFlightLoader || DisallowSingleFlight (c_fetch c)).
    { by destruct (Load _ _ _). }
    destruct (inflightFetches s !! _) as [r|] eqn:Hk.
    + destruct (inv_table _ _ I _ _ Hk) as (j & cj & Hj & Hh & _).
      destruct (record_of_leader s j cj r I Hj (holdsKey_leads _ _ Hh)) as [x ->].
      done.
    + unfold getInflightFetch. destruct (inflightFetchPool s) as [|r pool'] eqn:Hp; cbn.
      * by rewrite lookup_app_r, Nat.sub_diag by lia.
      * assert (r < length (records s))%nat as Hlt.
        { apply (inv_pool_bound _ _ I). rewrite Hp. left. }
        apply lookup_lt_is_Some in Hlt as [x ->]. done.
  - destruct (record_of_leader s i c r I Hi) as [x ->]; [unfold leads; by rewrite Hpc|].
    cbn. by destruct (Load _ _ _).
  - destruct (record_of_leader s i c r I Hi) as [x ->]; [unfold leads; by rewrite Hpc|].
    done.
  - destruct (record_of_leader s i c r I Hi) as [x ->]; [unfold leads; by rewrite Hpc|].
    done.
  - by destruct (Hwait r).
  - destruct (record_of_dependent s i c r I Hi) as [x ->];
      [unfold dependentOn; by rewrite Hpc|].
    done.
  - destruct (record_of_dependent s i c r I Hi) as [x ->];
      [unfold dependentOn; by rewrite Hpc|].
    done.
Qed.

Lemma progress_of_calls (s : state) (i : nat) (c : call) :
  invariant hash64 s → released s →
  calls s !! i = Some c → c_pc c ≠ Returned →
  is_Some (stepCall hash64 EnableSingleFlightLoader s i) ∨
  ∃ r j cj, c_pc c = DependentWait r ∧ calls s !! j = Some cj ∧ loading cj = Some r ∧
            is_Some (stepCall hash64 EnableSingleFlightLoader s j).
Proof.
  intros I R Hi Hret.
  destruct (c_pc c) as [|r|r|r|r|r|r|r|r|] eqn:Hpc;
    try (left; apply (stepCall_enabled s i c); try done; by rewrite Hpc).
  - destruct (record_of_dependent s i c r I Hi) as [x Hx];
      [unfold dependentOn; by rewrite Hpc|].
    destruct (decide (waitLoad x = 0%nat)) as [H0|Hw].
    + left. unfold stepCall. rewrite Hi. cbn [mbind option_bind]. rewrite Hpc, Hx.
      cbn. by rewrite H0.
    + right. destruct (R r x Hx Hw) as [_ (j & cj & Hj & Hl)].
      exists r, j, cj. split; [done|]. split; [done|]. split; [done|].
      apply (stepCall_enabled s j cj); try done.
      * unfold loading in Hl. by destruct (c_pc cj).
      * unfold loading in Hl. by destruct (c_pc cj).
Qed.

Lemma progress_of_frees (s : state) (k r : nat) :
  invariant hash64 s → freeing s !! k = Some r →
  (∀ i c, calls s !! i = Some c → dependentOn c ≠ Some r) →
  is_Some (stepFree s k).
Proof.
  intros I Hk Hnone. unfold stepFree. rewrite Hk. cbn [mbind option_bind].
  assert (r < length (records s))%nat as Hlt.
  { apply (inv_freeing_bound _ _ I). by eapply list_elem_of_lookup_2. }
  apply lookup_lt_is_Some in Hlt as [x Hx]. rewrite Hx. cbn [mbind option_bind].
  rewrite (inv_waitFree _ _ I r x Hx), dependents_none; [done|]. exact Hnone.
Qed.

(** X25. The calls of [resolveSingleFetch] never block each other for
    ever.  However they have interleaved so far, a call that has not
    returned can take its next step, unless it is a dependent in
    [waitLoad.Wait()] whose leader has not called [Done]: then this leader
    can take its step.  A goroutine that waits to free a record can run as
    soon as no dependent reads the record; after all calls have returned
    every one of them can. *)
Theorem no_call_waits_for_ever (calls0 : list call) (schedule : list actor) (s : state) :
  Forall (λ c, c_pc c = Enter) calls0 →
  run hash64 EnableSingleFlightLoader schedule (initial calls0) = Some s →
  (∀ i c, calls s !! i = Some c → c_pc c ≠ Returned →
     is_Some (step hash64 EnableSingleFlightLoader s (Call i)) ∨
     ∃ r j cj, c_pc c = DependentWait r ∧ calls s !! j = Some cj ∧
               loading cj = Some r ∧
               is_Some (step hash64 EnableSingleFlightLoader s (Call j))) ∧
  (∀ k r, freeing s !! k = Some r →
     (∀ i c, calls s !! i = Some c → dependentOn c ≠ Some r) →
     is_Some (step hash64 EnableSingleFlightLoader s (Free k))) ∧
  (Forall (λ c, c_pc c = Returned) (calls s) →
   ∀ k, (k < length (freeing s))%nat →
        is_Some (step hash64 EnableSingleFlightLoader s (Free k))).
Proof.
  intros H0 Hrun. destruct (run_released calls0 schedule s H0 Hrun) as [I R].
  split; [|split].
  - intros i c Hi Hret. by apply progress_of_calls.
  - intros k r Hk Hnone. by eapply progress_of_frees.
  - intros Hall k Hk. apply lookup_lt_is_Some in Hk as [r Hr].
    eapply progress_of_frees; [done|exact Hr|].
    intros i c Hi. pose proof (proj1 (Forall_lookup _ _) Hall _ _ Hi) as Hpc.
    unfold dependentOn. by rewrite Hpc.
Qed.

(** X26. However the calls interleave, the inflight table holds a key
    exactly as long as one call leads the fetch of that key: two calls that
    hold the same key are the same call, so no two loads of one key run at
    the same time, and every dependent reads the record of a key that was
    led. *)
Theorem one_leader_per_key (calls0 : list call) (schedule : list actor) (s : state) :
  Forall (λ c, c_pc c = Enter) calls0 →
  run hash64 EnableSingleFlightLoader schedule (initial calls0) = Some s →
  (∀ i j c c' r r',
     calls s !! i = Some c → calls s !! j = Some c' →
     holdsKey c = Some r → holdsKey c' = Some r' →
     fetchID hash64 (c_fetch c) (c_preparedInput c)
       = fetchID hash64 (c_fetch c') (c_preparedInput c') →
     i = j) ∧
  (∀ k, is_Some (inflightFetches s !! k) ↔
        ∃ i c r, calls s !! i = Some c ∧ holdsKey c = Some r ∧
                 fetchID hash64 (c_fetch c) (c_preparedInput c) = k).
Proof.
  intros H0 Hrun. destruct (run_released calls0 schedule s H0 Hrun) as [I _].
  split.
  - intros i j c c' r r' Hi Hj Hh Hh' Hid.
    pose proof (inv_key _ _ I i c r Hi Hh) as Hk.
    pose proof (inv_key _ _ I j c' r' Hj Hh') as Hk'.
    rewrite Hid, Hk' in Hk. injection Hk as ->.
    apply (inv_leads_inj _ _ I i j c c' r); try done; by apply holdsKey_leads.
  - intros k. split.
    + intros [r Hr]. destruct (inv_table _ _ I k r Hr) as (i & c & ? & ? & ?).
      by exists i, c, r.
    + intros (i & c & r & Hi & Hh & <-). exists r. by apply (inv_key _ _ I i c).
Qed.

End Progress.

(** ** The further properties on concrete inputs *)

Section FurtherWitnesses.

Import Bytes resolve Spec Examples.

Lemma selectionsExist_dogWithCatFragment : selectionsExist dogWithCatFragment [0; 1]%Z.
Proof. repeat constructor; eexists; reflexivity. Qed.

Lemma selectionsExist_fourFields : selectionsExist fourFields [0; 1; 2; 3]%Z.
Proof. repeat constructor; eexists; reflexivity. Qed.

Lemma firstAt_second_fragment :
  firstAt dogWithCatFragment ast.SelectionKindInlineFragment 1 [0; 1]%Z 1.
Proof.
  split.
  - exists 1%Z. split; [reflexivity|]. eexists. split; [reflexivity|]. done.
  - intros [|i'] j' Hlt Hj; [|lia]. injection Hj as <-.
    intros (s & Hs & _ & Hr). injection Hs as <-. discriminate.
Qed.

Lemma SelectionIndex_first_witness :
  ∃ i found,
    ast.SelectionIndex names dogWithCatFragment ast.SelectionKindInlineFragment 1 0
      = Some (i, found) ∧
    if found
    then (0 ≤ i)%Z ∧
         firstAt dogWithCatFragment ast.SelectionKindInlineFragment 1 [0; 1]%Z (Z.to_nat i)
    else i = 0%Z ∧
         ∀ j, j ∈ [0; 1]%Z →
              ¬ selects dogWithCatFragment ast.SelectionKindInlineFragment 1 j.
Proof.
  apply (SelectionIndex_first dogWithCatFragment ast.SelectionKindInlineFragment 1 0
           [0; 1]%Z).
  - reflexivity.
  - exact selectionsExist_dogWithCatFragment.
Defined.

Lemma selections_before_and_after_witness :
  let set0 := {| ast.NodeKind := kindSelectionSet; ast.NodeRef := 0 |} in
  (ast.NodeKind set0 = kindSelectionSet →
   (∃ b, ast.SelectionsAfter names kindSelectionSet fourFields ast.SelectionKindField 1 set0
           = Some b ∧
         (b = true ↔ ∃ i, firstAt fourFields ast.SelectionKindField 1 [0; 1; 2; 3]%Z i ∧
                          (S i < length [0; 1; 2; 3]%Z)%nat)) ∧
   (∃ b, ast.SelectionsBeforeField names kindSelectionSet fourFields 1 set0 = Some b ∧
         (b = true ↔ ∃ i, firstAt fourFields ast.SelectionKindField 1 [0; 1; 2; 3]%Z i ∧
                          (0 < i)%nat))) ∧
  (ast.NodeKind set0 ≠ kindSelectionSet →
   ∀ d', ast.SelectionsAfter names kindSelectionSet d' ast.SelectionKindField 1 set0
           = Some false ∧
         ast.SelectionsBeforeField names kindSelectionSet d' 1 set0 = Some false).
Proof.
  apply (selections_before_and_after kindSelectionSet fourFields ast.SelectionKindField 1
           {| ast.NodeKind := kindSelectionSet; ast.NodeRef := 0 |} [0; 1; 2; 3]%Z).
  - reflexivity.
  - exact selectionsExist_fourFields.
Defined.

Lemma has_field_selection_with_name_or_alias_witness :
  ∃ b, ast.SelectionSetHasFieldSelectionWithNameOrAliasBytes names FieldNameBytes
         FieldAliasIsDefined FieldAliasBytes fourFields 0 "c" = Some b ∧
       (b = true ↔
        ∃ j, j ∈ [0; 1; 2; 3]%Z ∧
             namedBy FieldNameBytes FieldAliasIsDefined FieldAliasBytes fourFields "c" j).
Proof.
  apply (has_field_selection_with_name_or_alias FieldNameBytes FieldAliasIsDefined
           FieldAliasBytes fourFields 0 "c" [0; 1; 2; 3]%Z).
  - reflexivity.
  - repeat constructor;
      (eexists; split; [reflexivity|]; intros _; split; [by eexists|];
       exists false; split; [reflexivity|]; discriminate).
Defined.

Lemma AddSelection_then_SelectionIndex_witness :
  ∃ d',
    ast.AddSelection names fourFields 0 (fieldSelection 1) = Some d' ∧
    ast.selectionRefs names d' 0 = Some [0; 1; 2; 3; 4]%Z ∧
    ∃ i, ast.SelectionIndex names d' ast.SelectionKindField 1 0 = Some (Z.of_nat i, true) ∧
         (i ≤ 4)%nat.
Proof.
  destruct (AddSelection_then_SelectionIndex fourFields 0 (fieldSelection 1)
              [0; 1; 2; 3]%Z eq_refl selectionsExist_fourFields)
    as (d' & Hadd & Hrefs & _ & _ & _ & i & Hi & Hle & _).
  exists d'. split; [exact Hadd|]. split; [exact Hrefs|]. exists i. split; [exact Hi|].
  exact Hle.
Defined.

Lemma PromoteUnionInlineFragments_splices_witness :
  (∀ i, firstAt dogWithCatFragment ast.SelectionKindInlineFragment 1 [0; 1]%Z i →
        ast.PromoteUnionInlineFragments names dogWithCatFragment 1 0
          = ast.setSelectionRefs names dogWithCatFragment 0
              (take i [0; 1]%Z ++ [3%Z] ++ drop (S i) [0; 1]%Z)) ∧
  ((∀ j, j ∈ [0; 1]%Z →
         ¬ selects dogWithCatFragment ast.SelectionKindInlineFragment 1 j) →
   ast.PromoteUnionInlineFragments names dogWithCatFragment 1 0
     = ast.setSelectionRefs names dogWithCatFragment 0 ([3%Z] ++ [1%Z])).
Proof.
  apply (PromoteUnionInlineFragments_splices dogWithCatFragment 1 0 (inlineFragmentOn 1 2)
           [0; 1]%Z [3%Z]).
  - reflexivity.
  - exact selectionsExist_dogWithCatFragment.
  - reflexivity.
  - reflexivity.
Defined.

Lemma ExpandInterfaceInlineFragment_without_types_witness :
  ast.ExpandInterfaceInlineFragment names CopyField CopyFragmentSpread CopyDirectiveList
    AddNamedType 2 dogWithCatFragment 1 0 []
  = Some (ast.withSelectionSets names dogWithCatFragment
            (<[Z.to_nat 0 := ast.mkSelectionSet (take 1 [0; 1]%Z ++ drop 2 [0; 1]%Z)]>
               (ast.SelectionSets names dogWithCatFragment ++ [ast.mkSelectionSet []]))).
Proof.
  apply (ExpandInterfaceInlineFragment_without_types CopyField CopyFragmentSpread
           CopyDirectiveList AddNamedType 2 dogWithCatFragment 1 0 [0; 1]%Z 1).
  - reflexivity.
  - exact selectionsExist_dogWithCatFragment.
  - exact firstAt_second_fragment.
Defined.

Lemma AddSelection_then_RemoveFromSelectionSet_witness :
  ∃ d',
    ast.AddSelection names fourFields 0 (fieldSelection 1) = Some d' ∧
    ast.RemoveFromSelectionSet names d' 0 (Z.of_nat (length [0; 1; 2; 3]%Z))
      = Some (ast.withSelections names fourFields
                (ast.Selections names fourFields ++ [fieldSelection 1])).
Proof.
  apply (AddSelection_then_RemoveFromSelectionSet fourFields 0 (fieldSelection 1)
           [0; 1; 2; 3]%Z).
  reflexivity.
Defined.

Lemma EmptySelectionSet_then_AppendSelectionSet_witness :
  ∃ d1 d2,
    ast.EmptySelectionSet names dogWithCatFragment 1 = Some d1 ∧
    ast.AppendSelectionSet names d1 1 2 = Some d2 ∧
    ast.selectionRefs names d2 1 = Some (if decide (2 = 1)%Z then [] else [3%Z]) ∧
    ((2 ≠ 1)%Z → ast.selectionRefs names d2 2 = Some [3%Z]) ∧
    ast.Selections names d2 = ast.Selections names dogWithCatFragment ∧
    ast.InlineFragments names d2 = ast.InlineFragments names dogWithCatFragment.
Proof.
  apply (EmptySelectionSet_then_AppendSelectionSet dogWithCatFragment 1 2 [2%Z] [3%Z]).
  - reflexivity.
  - reflexivity.
Defined.

Lemma boomPlan_in_order : planInOrder (λ o, o = boomError) boomPlan.
Proof.
  apply object_in_order.
  - split.
    + repeat constructor. intros input. exists [boomError].
      split; [|reflexivity]. repeat constructor. vm_compute. discriminate.
    + cbn. apply NoDup_singleton.
  - repeat constructor.
Qed.

Lemma errors_stay_a_list_witness :
  (errorList (λ o, o = boomError) (Errors NewBufPair) →
   errorList (λ o, o = boomError)
     (Errors (resolveNode aGet (λ _ _, []) noHash firstWins false ctx0 boomPlan None
                NewBufPair).1)) ∧
  errorList (λ o, o = boomError)
    (Errors (resolveNode aGet (λ _ _, []) noHash firstWins false ctx0 boomPlan None
               NewBufPair).1).
Proof.
  apply (errors_stay_a_list (λ o, o = boomError) aGet (λ _ _, []) noHash firstWins false
           ctx0 boomPlan None NewBufPair).
  exact boomPlan_in_order.
Defined.

Lemma scalar_nodes_write_or_fail_witness :
  let r := resolveNode nameGet (λ _ _, []) noHash firstWins false ctx0
             (NodeString ["name"] true) (Some nameDoc) NewBufPair in
  Errors r.1 = Errors NewBufPair ∧
  match r.2 with
  | None => ∃ out, r.1 = writeData NewBufPair out
  | Some e => e = errNonNullableFieldValueIsNull ∧ true = false ∧ r.1 = NewBufPair
  end ∧
  (true = true → r.2 = None) ∧
  ((nameGet (Some nameDoc) ["name"]).2 ≠ None
   ∨ (nameGet (Some nameDoc) ["name"]).1.2 ≠ jsonparser.String →
   r = if true then (writeData NewBufPair null, None)
       else (NewBufPair, Some errNonNullableFieldValueIsNull)).
Proof.
  apply (scalar_nodes_write_or_fail nameGet (λ _ _, []) noHash firstWins false ctx0
           (NodeString ["name"] true) ["name"] true jsonparser.String (Some nameDoc)
           NewBufPair).
  reflexivity.
Defined.

End FurtherWitnesses.

Section TransformerWitnesses.

Import asttransform astnormalization Spec Examples.

(** The two actions of [emptyDeeperThanAppend], registered the other way
    round. *)
Lemma NoDup_emptyDeeperThanAppend : NoDup (precedence <$> actions emptyDeeperThanAppend).
Proof.
  vm_compute. apply NoDup_cons. split; [|apply NoDup_singleton].
  intros H%list_elem_of_singleton. discriminate.
Qed.

Lemma registration_order_is_irrelevant_witness :
  ApplyTransformations reversingSort (H := namesTransformable)
    emptyDeeperThanAppend (Some twoSets)
  = ApplyTransformations reversingSort (H := namesTransformable)
      {| actions := reverse (actions emptyDeeperThanAppend) |} (Some twoSets).
Proof.
  apply (registration_order_is_irrelevant reversingSort reversingSort_contract _
           namesTransformable emptyDeeperThanAppend
           {| actions := reverse (actions emptyDeeperThanAppend) |} (Some twoSets)).
  - exact NoDup_emptyDeeperThanAppend.
  - vm_compute. apply Permutation_swap.
Defined.

Lemma applied_actions_stay_registered_witness :
  let r := ApplyTransformations reversingSort (H := namesTransformable)
             emptyDeeperThanAppend (Some twoSets) in
  actions r.1 ≡ₚ actions emptyDeeperThanAppend ∧
  ApplyTransformations reversingSort (H := namesTransformable) r.1 r.2
    = (r.1, applyAll (H := namesTransformable) (actions r.1 ++ actions r.1) (Some twoSets)) ∧
  ApplyTransformations reversingSort (H := namesTransformable) (Reset r.1) r.2
    = (Reset r.1, r.2).
Proof.
  apply (applied_actions_stay_registered reversingSort reversingSort_contract _
           namesTransformable emptyDeeperThanAppend (Some twoSets)).
  exact NoDup_emptyDeeperThanAppend.
Defined.

Lemma expandInterfaceSelectionSets_walk_witness :
  walk expandInterfaceSelectionSets_EnterDocument
       (expandInterfaceSelectionSets_EnterSelectionSet kindField kindInterface
          implementations)
       (expandInterfaceSelectionSets_LeaveDocument reversingSort (H := namesTransformable))
       [(petFieldWalker, 0%Z)] appendThenEmpty (Some fourFields)
  = Some (ApplyTransformations reversingSort (H := namesTransformable)
            {| actions :=
                 [ {| precedence := {| Depth := 2; Order := 0 |};
                      action_transformation :=
                        expandInterfaceSelectionSet 0 ["Dog"; "Cat"] |} ] |}
            (Some fourFields)).
Proof.
  destruct (expandInterfaceSelectionSets_walk kindField kindInterface implementations
              reversingSort _ namesTransformable [(petFieldWalker, 0%Z)] appendThenEmpty
              (Some fourFields)) as [H _].
  - repeat constructor. discriminate.
  - reflexivity.
  - exact H.
Defined.

Lemma expandAbstractInlineFragments_walk_witness :
  ∃ registered,
    walk expandAbstractInlineFragments_EnterDocument
         (expandAbstractInlineFragments_EnterSelectionSet kindInlineFragment kindInterface
            kindUnion implementations)
         (expandAbstractInlineFragments_LeaveDocument reversingSort (H := namesTransformable))
         [(unionFragmentWalker, 2%Z)] appendThenEmpty (Some dogWithCatFragment)
      = Some (ApplyTransformations reversingSort (H := namesTransformable)
                {| actions := registered |} (Some dogWithCatFragment)) ∧
    (length registered ≤ 1)%nat.
Proof.
  destruct (expandAbstractInlineFragments_walk kindInlineFragment kindInterface kindUnion
              implementations reversingSort _ namesTransformable
              [(unionFragmentWalker, 2%Z)] appendThenEmpty (Some dogWithCatFragment))
    as [(registered & Hwalk & Hlen & _) _].
  - repeat constructor.
  - exists registered. split; [exact Hwalk|exact Hlen].
Defined.

End TransformerWitnesses.

Section SingleFlightWitnesses.

Import resolve singleflight Examples.

Lemma twoCalls_enter :
  Forall (λ c, c_pc c = Enter)
    [start failingFetch "" NewBufPair; start failingFetch "" NewBufPair].
Proof. repeat constructor. Qed.

Lemma no_call_waits_for_ever_witness :
  ∃ s, run noHash true bothEntered twoCalls = Some s ∧
       step noHash true s (Call 1) = None ∧
       (∀ i c, calls s !! i = Some c → c_pc c ≠ Returned →
          is_Some (step noHash true s (Call i)) ∨
          ∃ r j cj, c_pc c = DependentWait r ∧ calls s !! j = Some cj ∧
                    loading cj = Some r ∧ is_Some (step noHash true s (Call j))).
Proof.
  eexists. split; [vm_compute; reflexivity|]. split; [vm_compute; reflexivity|].
  refine (proj1 (no_call_waits_for_ever noHash true _ bothEntered _ twoCalls_enter _)).
  vm_compute. reflexivity.
Defined.

Lemma one_leader_per_key_witness :
  ∃ s, run noHash true bothEntered twoCalls = Some s ∧
       ∀ k, is_Some (inflightFetches s !! k) ↔
            ∃ i c r, calls s !! i = Some c ∧ holdsKey c = Some r ∧
                     fetchID noHash (c_fetch c) (c_preparedInput c) = k.
Proof.
  eexists. split; [vm_compute; reflexivity|].
  refine (proj2 (one_leader_per_key noHash true _ bothEntered _ twoCalls_enter _)).
  vm_compute. reflexivity.
Defined.

End SingleFlightWitnesses.
